(** * OpenWord editor: page flow, inline formatting, page breaks, persistence

    A shallow embedding of the paginated editor of [src/components/Editor/index.tsx]
    and of the persistence layer of [src/storage/local.ts].

    The editor keeps its state in the browser DOM: [pageRefsRef.current] is an
    array of pages, and the children of each page's [contentElement] are the
    block elements.  A page is modelled as the list of its block elements, the
    document as the list of its pages.  The [data-block-id] of a block element
    is a string; the empty string stands for an element without the attribute
    or with an empty one, which the move functions skip
    ([if (!blockId) continue]).

    Block heights come from the layout engine ([getBoundingClientRect] plus the
    computed margins): the height oracle is a parameter of the flow engine, with
    values in [Z]. *)

From Stdlib Require Import ZArith Lia Ascii.
From Stdlib Require DecimalString DecimalZ DecimalPos.
Set Warnings "-register-all".
From stdpp Require Import base option list gmap strings sorting.

Local Open Scope Z_scope.

(** ** The DOM fragment the editor works on *)

(** [type FormatType = 'bold' | 'italic' | 'underline' | 'strikethrough'] *)
Inductive FormatType := bold | italic | underline | strikethrough.

#[global] Instance FormatType_eq_dec : EqDecision FormatType.
Proof. solve_decision. Defined.

(** The nodes found inside a block: text nodes and formatting spans.  The
    [data-format] attribute of a span is the list of its space separated
    tokens. *)
Inductive Node :=
| TextNode (data : string)
| SpanNode (dataFormat : list FormatType) (childNodes : list Node).

(** Induction on nodes, with the property known for the children of a span. *)
Fixpoint Node_children_ind (P : Node -> Prop)
    (Htext : forall data, P (TextNode data))
    (Hspan : forall f children, Forall P children -> P (SpanNode f children))
    (n : Node) : P n :=
  match n with
  | TextNode data => Htext data
  | SpanNode f children =>
      Hspan f children
        ((fix go (cs : list Node) : Forall P cs :=
            match cs with
            | [] => @List.Forall_nil Node P
            | c :: rest =>
                @List.Forall_cons Node P c rest (Node_children_ind P Htext Hspan c) (go rest)
            end) children)
  end.

(** A block element: a direct child of a page's content element. *)
Record BlockEl := mkBlockEl {
  blockId : string;          (* data-block-id; empty when there is none *)
  isPageBreak : bool;        (* hasAttribute('data-page-break') *)
  content : list Node        (* childNodes *)
}.

Abbreviation Page := (list BlockEl).
Abbreviation Pages := (list (list BlockEl)).

(** ** The page flow engine *)

Module Flow.
Section WithOracle.

(** [rect.height + marginTop + marginBottom] of a block element. *)
Variable blockHeight : BlockEl -> Z.

Definition getPageContentMaxHeight : Z := 931.

Definition notPageBreak (el : BlockEl) : bool := negb (isPageBreak el).

(** The [reduce] of [calculatePageBlocksHeight], from accumulator [total]
    at position [index] of a page of [len] elements. *)
Fixpoint reduceHeights (total : Z) (index len : nat) (els : list BlockEl) : Z :=
  match els with
  | [] => total
  | el :: rest =>
      let total' :=
        if isPageBreak el then
          if (index <? len - 1)%nat
          then total + getPageContentMaxHeight + 1000
          else total
        else total + blockHeight el in
      reduceHeights total' (S index) len rest
  end.

Definition calculatePageBlocksHeight (page : Page) : Z :=
  reduceHeights 0 0 (length page) page.

(** The inner [for] loop of [handleForwardOverflow] that looks for
    [splitIndex]; [None] stands for the initial [-1]. *)
Fixpoint findSplitIndex (accumulatedHeight : Z) (i len : nat)
    (els : list BlockEl) : option nat :=
  match els with
  | [] => None
  | block :: rest =>
      if isPageBreak block then
        if (i <? len - 1)%nat then Some (S i)
        else findSplitIndex accumulatedHeight (S i) len rest
      else
        let accumulatedHeight' := accumulatedHeight + blockHeight block in
        if getPageContentMaxHeight <? accumulatedHeight' then Some i
        else findSplitIndex accumulatedHeight' (S i) len rest
  end.

(** The body of the page loop up to the decision to move: the split index
    of a page that has to give blocks away, if any. *)
Definition pageSplit (page : Page) : option nat :=
  if getPageContentMaxHeight <? calculatePageBlocksHeight page then
    if (1 <? length (filter (fun el => notPageBreak el = true) page))%nat then
      match findSplitIndex 0 0 (length page) page with
      | Some splitIndex =>
          if (splitIndex <? length page)%nat then Some splitIndex else None
      | None => None
      end
    else None
  else None.

(** [array.splice(index, 0, x)] *)
Definition splice_insert {A} (index : nat) (x : A) (l : list A) : list A :=
  take index l ++ x :: drop index l.

(** [array.splice(index, 1)] *)
Definition splice_remove {A} (index : nat) (l : list A) : list A :=
  take index l ++ drop (S index) l.

Definition getOrCreateNextPage (currentPageIndex : nat) (pages : Pages) : Pages :=
  let nextPageIndex := S currentPageIndex in
  match pages !! nextPageIndex with
  | Some _ => pages
  | None => splice_insert nextPageIndex [] pages
  end.

(** [const blockId = block.getAttribute('data-block-id')] is truthy: the
    attribute is there and is not empty. *)
Definition hasBlockId (block : BlockEl) : bool :=
  match blockId block with
  | EmptyString => false
  | String _ _ => true
  end.

(** The backward loop of [moveBlocksToNextPage]: [pending] holds the blocks
    of the slice still to visit, last one first.  A block without block id
    is skipped ([continue]) and stays on the source page; every other block
    is removed from the source page and inserted before the first child of
    the destination.  The result holds the blocks of the slice that stay and
    the blocks that are now at the top of the destination, both in the order
    of the page. *)
Fixpoint insertAtTop (pending : list BlockEl) (staying moved : list BlockEl)
    : list BlockEl * list BlockEl :=
  match pending with
  | [] => (staying, moved)
  | block :: pending' =>
      if hasBlockId block then insertAtTop pending' staying (block :: moved)
      else insertAtTop pending' (block :: staying) moved
  end.

Definition moveBlocksToNextPage (fromPageIndex toPageIndex startBlockIndex : nat)
    (pages : Pages) : Pages :=
  match pages !! fromPageIndex, pages !! toPageIndex with
  | Some fromPage, Some _ =>
      if (length fromPage <=? startBlockIndex)%nat then pages
      else
        let blocksToMove := drop startBlockIndex fromPage in
        let '(staying, moved) := insertAtTop (rev blocksToMove) [] [] in
        let pages1 :=
          <[fromPageIndex := take startBlockIndex fromPage ++ staying]> pages in
        match pages1 !! toPageIndex with
        | Some toPage => <[toPageIndex := moved ++ toPage]> pages1
        | None => pages1
        end
  | _, _ => pages
  end.

(** One run of the page [for] loop of [handleForwardOverflow]: [Some] is the
    state after the first call of [moveBlocksToNextPage] (the loop then
    [break]s with [hasChanges = true], whether or not a block has moved),
    [None] means that no page had a split index. *)
Fixpoint forwardScan (pageIndex : nat) (rest : Pages) (pages : Pages) : option Pages :=
  match rest with
  | [] => None
  | page :: rest' =>
      match pageSplit page with
      | Some splitIndex =>
          Some (moveBlocksToNextPage pageIndex (S pageIndex) splitIndex
                  (getOrCreateNextPage pageIndex pages))
      | None => forwardScan (S pageIndex) rest' pages
      end
  end.

Definition forwardPass (pages : Pages) : option Pages := forwardScan 0 pages pages.

(** The [while (hasChanges)] loop; [None] when [fuel] rounds do not reach a
    round without a move. *)
Fixpoint forwardLoop (fuel : nat) (pages : Pages) : option Pages :=
  match fuel with
  | O => None
  | S fuel' =>
      match forwardPass pages with
      | None => Some pages
      | Some pages' => forwardLoop fuel' pages'
      end
  end.

Definition handleForwardOverflow (fuel : nat) (pages : Pages) : option Pages :=
  if (length pages =? 0)%nat then Some pages else forwardLoop fuel pages.

(** [slice(start, end)] *)
Definition slice {A} (start stop : nat) (l : list A) : list A :=
  take (stop - start) (drop start l).

(** The loop of [moveBlocksToPreviousPage] over the slice.  A block without
    block id is skipped ([continue]) and stays on the source page; every
    other block is removed from the source page and appended to the
    destination.  The result holds the blocks of the slice that stay and the
    blocks that are now at the end of the destination. *)
Fixpoint appendEach (moving : list BlockEl) (staying moved : list BlockEl)
    : list BlockEl * list BlockEl :=
  match moving with
  | [] => (staying, moved)
  | block :: moving' =>
      if hasBlockId block then appendEach moving' staying (moved ++ [block])
      else appendEach moving' (staying ++ [block]) moved
  end.

(** The slice is empty when [endBlockIndex] is not behind
    [startBlockIndex]; the blocks behind the slice start at
    [startBlockIndex + blocksToMove.length]. *)
Definition moveBlocksToPreviousPage (fromPageIndex toPageIndex startBlockIndex endBlockIndex : nat)
    (pages : Pages) : Pages :=
  match pages !! fromPageIndex, pages !! toPageIndex with
  | Some fromPage, Some _ =>
      if ((length fromPage <=? startBlockIndex) || (length fromPage <? endBlockIndex))%nat
      then pages
      else
        let blocksToMove := slice startBlockIndex endBlockIndex fromPage in
        let '(staying, moved) := appendEach blocksToMove [] [] in
        let pages1 :=
          <[fromPageIndex :=
              take startBlockIndex fromPage ++ staying
              ++ drop (startBlockIndex + length blocksToMove) fromPage]> pages in
        match pages1 !! toPageIndex with
        | Some toPage => <[toPageIndex := toPage ++ moved]> pages1
        | None => pages1
        end
  | _, _ => pages
  end.

(** [currentPageHeight] of [handleReverseCompaction]: every block of the
    current page is measured. *)
Fixpoint measureAll (currentPageHeight : Z) (els : list BlockEl) : Z :=
  match els with
  | [] => currentPageHeight
  | block :: rest => measureAll (currentPageHeight + blockHeight block) rest
  end.

(** The scan of the next page's blocks in [handleReverseCompaction];
    the result is [blocksToMove]. *)
Fixpoint scanNextPage (currentPageHeight : Z) (encounteredPageBreak : bool)
    (i : nat) (els : list BlockEl) (blocksToMove : list nat) : list nat :=
  match els with
  | [] => blocksToMove
  | block :: rest =>
      if isPageBreak block then
        scanNextPage currentPageHeight true (S i) rest (blocksToMove ++ [i])
      else
        let blockHeight' :=
          if encounteredPageBreak then getPageContentMaxHeight + 1000
          else blockHeight block in
        if currentPageHeight + blockHeight' <=? getPageContentMaxHeight
        then scanNextPage (currentPageHeight + blockHeight') encounteredPageBreak
               (S i) rest (blocksToMove ++ [i])
        else blocksToMove
  end.

(** The body of the page loop of [handleReverseCompaction] for the pair
    ([pageIndex], [pageIndex + 1]).  [blocksToMove] is built in increasing
    order, so the [sort] of the source leaves it as it is. *)
Definition compactPair (pageIndex : nat) (pages : Pages) : Pages :=
  match pages !! pageIndex, pages !! S pageIndex with
  | Some currentPage, Some nextPageBlocks =>
      if (length nextPageBlocks =? 0)%nat then pages
      else if existsb isPageBreak currentPage then pages
      else
        let currentPageHeight := measureAll 0 currentPage in
        let blocksToMove := scanNextPage currentPageHeight false 0 nextPageBlocks [] in
        match head blocksToMove, last blocksToMove with
        | Some startIndex, Some lastIndex =>
            moveBlocksToPreviousPage (S pageIndex) pageIndex startIndex (S lastIndex) pages
        | _, _ => pages
        end
  | _, _ => pages
  end.

(** [for (pageIndex = startPageIndex; pageIndex < length - 1; pageIndex++)],
    with [count] iterations left. *)
Fixpoint compactFrom (count pageIndex : nat) (pages : Pages) : Pages :=
  match count with
  | O => pages
  | S count' => compactFrom count' (S pageIndex) (compactPair pageIndex pages)
  end.

Definition handleReverseCompaction (startPageIndex : nat) (pages : Pages) : Pages :=
  if (length pages =? 0)%nat then pages
  else compactFrom (length pages - 1 - startPageIndex) startPageIndex pages.

Definition hasNoRealBlock (page : Page) : bool :=
  (length (filter (fun el => notPageBreak el = true) page) =? 0)%nat.

(** [for (i = length - 1; i >= 0; i--)] of [removeEmptyPages], with the
    pages of index below [n] still to visit. *)
Fixpoint removeFrom (n : nat) (pages : Pages) : Pages :=
  match n with
  | O => pages
  | S i =>
      match pages !! i with
      | Some page =>
          if hasNoRealBlock page && (1 <? length pages)%nat
          then removeFrom i (splice_remove i pages)
          else removeFrom i pages
      | None => removeFrom i pages
      end
  end.

Definition removeEmptyPages (pages : Pages) : Pages :=
  if (length pages =? 0)%nat then pages else removeFrom (length pages) pages.

(** [handlePageOverflow]; [currentPage] is the result of
    [findCurrentPageIndex()]. *)
Definition handlePageOverflow (fuel : nat) (currentPage : option nat)
    (pages : Pages) : option Pages :=
  if (length pages =? 0)%nat then Some pages
  else
    let currentPageIndex := default 0%nat currentPage in
    match handleForwardOverflow fuel pages with
    | Some pages1 =>
        Some (removeEmptyPages (handleReverseCompaction currentPageIndex pages1))
    | None => None
    end.

(** The quantity the budget is about: heights of the blocks of a page that
    are not page breaks. *)
Definition contentHeight (page : Page) : Z :=
  foldr (fun el acc => if isPageBreak el then acc else blockHeight el + acc) 0 page.

Definition realBlocks (page : Page) : nat :=
  length (filter (fun el => notPageBreak el = true) page).

End WithOracle.
End Flow.

(** ** Inline formatting: [applyFormat] and its helpers *)

Module Format.

(** [allFormats] of [getActiveFormats]. *)
Definition allFormats : list FormatType := [bold; italic; underline; strikethrough].

(** The four names in the order of [Array.prototype.sort]:
    bold < italic < strikethrough < underline. *)
Definition sortedNames : list FormatType := [bold; italic; strikethrough; underline].

Definition includes (format : FormatType) (fs : list FormatType) : bool :=
  bool_decide (format ∈ fs).

(** [Array.from(set).sort()] for the set of the tokens [fs]. *)
Definition sortFormats (fs : list FormatType) : list FormatType :=
  filter (fun f => f ∈ fs) sortedNames.

(** [formats.delete(format)] on the set of the tokens [fs]. *)
Definition deleteFormat (format : FormatType) (fs : list FormatType) : list FormatType :=
  filter (fun f => f ≠ format) fs.

(** The text nodes below a node in document order (a [TreeWalker] with
    [SHOW_TEXT]), each with the [data-format] lists of the spans above it,
    innermost first. *)
Fixpoint textNodesOf (ancestors : list (list FormatType)) (n : Node)
    : list (string * list (list FormatType)) :=
  match n with
  | TextNode data => [(data, ancestors)]
  | SpanNode f children => flat_map (textNodesOf (f :: ancestors)) children
  end.

Definition walkText (block : list Node) : list (string * list (list FormatType)) :=
  flat_map (textNodesOf []) block.

(** [node.textContent] *)
Definition textContent (block : list Node) : string :=
  foldr (fun tn acc => String.app tn.1 acc) EmptyString (walkText block).

(** A DOM [Range] whose boundary points lie in text nodes of one block:
    a container is the index of a text node in document order. *)
Record Range := mkRange {
  startContainer : nat;
  startOffset : nat;
  endContainer : nat;
  endOffset : nat
}.

Definition collapsed (r : Range) : bool :=
  (startContainer r =? endContainer r)%nat && (startOffset r =? endOffset r)%nat.

(** [range.intersectsNode(textNode)] for the text node of index [k]: the
    node is neither wholly before the start container nor wholly after the
    end container. *)
Definition intersectsNode (r : Range) (k : nat) : bool :=
  (startContainer r <=? k)%nat && (k <=? endContainer r)%nat.

Fixpoint intersecting {A} (r : Range) (k : nat) (nodes : list A) : list A :=
  match nodes with
  | [] => []
  | n :: rest =>
      if intersectsNode r k then n :: intersecting r (S k) rest
      else intersecting r (S k) rest
  end.

(** [isTextNodeFormatted]: some span above the text node lists [format]. *)
Definition isTextNodeFormatted (ancestors : list (list FormatType)) (format : FormatType) : bool :=
  existsb (includes format) ancestors.

(** [getActiveFormats].  The [TreeWalker] is rooted at
    [range.commonAncestorContainer] and yields the text nodes below the root.
    When both boundary points lie in the same text node, that node is the
    root and the walker yields nothing: the fallback branch then takes the
    tokens of the first formatting span above the start container (that span
    contains the end container).  Otherwise the root is an element above both
    containers and the walker yields the text nodes that intersect the
    range. *)
Definition getActiveFormats (r : Range) (block : list Node) : list FormatType :=
  if (startContainer r =? endContainer r)%nat then
    match walkText block !! startContainer r with
    | Some (_, f :: _) => filter (fun format => format ∈ f) allFormats
    | _ => []
    end
  else
    let textNodes := intersecting r 0 (walkText block) in
    match textNodes with
    | [] => []
    | _ =>
        filter (fun format =>
                  forallb (fun tn => isTextNodeFormatted tn.2 format) textNodes = true)
               allFormats
    end.

(** [tempRange.toString().length] for the range from the start of the block
    to the boundary point ([container], [offset]). *)
Fixpoint charsBefore (container : nat) (texts : list string) : nat :=
  match container, texts with
  | S c, t :: rest => (String.length t + charsBefore c rest)%nat
  | _, _ => 0%nat
  end.

Definition charIndex (container offset : nat) (block : list Node) : nat :=
  (charsBefore container (map fst (walkText block)) + offset)%nat.

(** The two [while] loops of [applyFormat] that place the start and the end
    of [blockSelectionRange]: the first text node with
    [charCount + textLength >= index], and the offset in it.  [None] leaves
    the boundary where [selectNodeContents(block)] put it. *)
Fixpoint findBoundary (charCount k index : nat) (texts : list string) : option (nat * nat) :=
  match texts with
  | [] => None
  | t :: rest =>
      let textLength := String.length t in
      if (index <=? charCount + textLength)%nat
      then Some (k, Nat.max 0 (Nat.min (index - charCount) textLength))
      else findBoundary (charCount + textLength) (S k) index rest
  end.

(** [Array.from(selectedText)] *)
Fixpoint chars (s : string) : list string :=
  match s with
  | EmptyString => []
  | String c rest => String c EmptyString :: chars rest
  end.

(** What [breakSelectionIntoCharacterNodes] puts in the place of the text
    node of index [k]; [existingFormats] is [getFormatsForNode(node)]
    sorted. *)
Definition breakTextNode (start stop : option (nat * nat))
    (existingFormats : list FormatType) (k : nat) (text : string) : list Node :=
  let afterStart := match start with Some (c, _) => (c <=? k)%nat | None => true end in
  let beforeEnd := match stop with Some (c, _) => (k <=? c)%nat | None => true end in
  let startOffset :=
    match start with Some (c, o) => if (c =? k)%nat then o else 0%nat | None => 0%nat end in
  let endOffset :=
    match stop with
    | Some (c, o) => if (c =? k)%nat then o else String.length text
    | None => String.length text
    end in
  if afterStart && beforeEnd && (startOffset <? endOffset)%nat
     && negb (String.length text =? 1)%nat
  then
    let beforeText := String.substring 0 startOffset text in
    let selectedText := String.substring startOffset (endOffset - startOffset) text in
    let afterText := String.substring endOffset (String.length text - endOffset) text in
    (if (String.length beforeText =? 0)%nat then [] else [TextNode beforeText])
    ++ map (fun char =>
              match existingFormats with
              | [] => TextNode char
              | _ => SpanNode existingFormats [TextNode char]
              end) (chars selectedText)
    ++ (if (String.length afterText =? 0)%nat then [] else [TextNode afterText])
  else [TextNode text].

(** [breakSelectionIntoCharacterNodes] below one node; [k] counts the text
    nodes met so far. *)
Fixpoint breakNode (start stop : option (nat * nat))
    (ancestors : list (list FormatType)) (n : Node) (k : nat) : list Node * nat :=
  match n with
  | TextNode text =>
      (breakTextNode start stop (sortFormats (concat ancestors)) k text, S k)
  | SpanNode f children =>
      let '(children', k') :=
        (fix go (cs : list Node) (k : nat) : list Node * nat :=
           match cs with
           | [] => ([], k)
           | c :: rest =>
               let '(c', k1) := breakNode start stop (f :: ancestors) c k in
               let '(rest', k2) := go rest k1 in
               (c' ++ rest', k2)
           end) children k in
      ([SpanNode f children'], k')
  end.

Fixpoint breakNodes (start stop : option (nat * nat)) (cs : list Node) (k : nat)
    : list Node * nat :=
  match cs with
  | [] => ([], k)
  | c :: rest =>
      let '(c', k1) := breakNode start stop [] c k in
      let '(rest', k2) := breakNodes start stop rest k1 in
      (c' ++ rest', k2)
  end.

Definition breakSelectionIntoCharacterNodes (start stop : option (nat * nat))
    (block : list Node) : list Node :=
  (breakNodes start stop block 0).1.

(** Step 2 of [applyFormat]: is the text node that starts at character
    [nodeStart] pushed to [nodesToUpdate]? *)
Definition toUpdate (blockStartCharIndex blockEndCharIndex nodeStart : nat)
    (text : string) : bool :=
  let nodeEnd := (nodeStart + String.length text)%nat in
  (nodeStart <? blockEndCharIndex)%nat && (blockStartCharIndex <? nodeEnd)%nat
  && (String.length text =? 1)%nat
  && (blockStartCharIndex <=? nodeStart)%nat && (nodeStart <? blockEndCharIndex)%nat.

(** The new [data-format] of a span one of whose own text nodes is updated;
    the empty list means that the span is unwrapped. *)
Definition updatedFormats (shouldRemove : bool) (format : FormatType)
    (f : list FormatType) : list FormatType :=
  sortFormats (if shouldRemove then deleteFormat format f else format :: f).

(** The [forEach] over [nodesToUpdate], below the children [cs] of an
    element; [inSpan] tells whether that element is a formatting span.
    The result holds the new children, the character position after them,
    and whether one of the text nodes among [cs] was updated (the span
    above them is then rewritten or unwrapped, once: a second update of the
    same span finds the same attribute or a detached span). *)
Fixpoint updateNode (shouldRemove : bool) (format : FormatType)
    (blockStartCharIndex blockEndCharIndex : nat) (inSpan : bool) (n : Node) (pos : nat)
    : list Node * nat * bool :=
  match n with
  | TextNode text =>
      let selected := toUpdate blockStartCharIndex blockEndCharIndex pos text in
      let pos' := (pos + String.length text)%nat in
      if selected && negb inSpan && negb shouldRemove
      then ([SpanNode [format] [TextNode text]], pos', selected)
      else ([TextNode text], pos', selected)
  | SpanNode f children =>
      let '(children', pos', hit) :=
        (fix go (cs : list Node) (pos : nat) : list Node * nat * bool :=
           match cs with
           | [] => ([], pos, false)
           | c :: rest =>
               let '(c', p1, h1) :=
                 updateNode shouldRemove format blockStartCharIndex blockEndCharIndex
                   true c pos in
               let '(rest', p2, h2) := go rest p1 in
               (c' ++ rest', p2, h1 || h2)
           end) children pos in
      if hit then
        match updatedFormats shouldRemove format f with
        | [] => (children', pos', false)
        | formatArray => ([SpanNode formatArray children'], pos', false)
        end
      else ([SpanNode f children'], pos', false)
  end.

Fixpoint updateNodes (shouldRemove : bool) (format : FormatType)
    (blockStartCharIndex blockEndCharIndex : nat) (cs : list Node) (pos : nat)
    : list Node :=
  match cs with
  | [] => []
  | c :: rest =>
      let '(c', p1, _) :=
        updateNode shouldRemove format blockStartCharIndex blockEndCharIndex false c pos in
      c' ++ updateNodes shouldRemove format blockStartCharIndex blockEndCharIndex rest p1
  end.

(** [applyFormat] on the block that holds the selection [r].  The call of
    [mergeAdjacentNodesWithSameFormatting] (step 3) is commented out in the
    source and so is absent here. *)
Definition applyFormat (format : FormatType) (r : Range) (block : list Node) : list Node :=
  if collapsed r then block
  else
    let existingFormats := getActiveFormats r block in
    let shouldRemove := includes format existingFormats in
    let blockStartCharIndex := charIndex (startContainer r) (startOffset r) block in
    let blockEndCharIndex := charIndex (endContainer r) (endOffset r) block in
    let texts := map fst (walkText block) in
    let start := findBoundary 0 0 blockStartCharIndex texts in
    let stop := findBoundary 0 0 blockEndCharIndex texts in
    let block1 := breakSelectionIntoCharacterNodes start stop block in
    updateNodes shouldRemove format blockStartCharIndex blockEndCharIndex block1 0.

(** *** Serialized content: [extractFormattedContent], that is [innerHTML] *)

Definition formatName (f : FormatType) : string :=
  match f with
  | bold => "bold"
  | italic => "italic"
  | underline => "underline"
  | strikethrough => "strikethrough"
  end.

Fixpoint joinNames (fs : list FormatType) : string :=
  match fs with
  | [] => EmptyString
  | [f] => formatName f
  | f :: rest => String.app (formatName f) (String.app " " (joinNames rest))
  end.

Definition quote : string := String (Ascii.ascii_of_nat 34) EmptyString.

(** Escaping of text in the HTML fragment serialization. *)
Fixpoint escapeText (s : string) : string :=
  match s with
  | EmptyString => EmptyString
  | String c rest =>
      String.app
        (if Ascii.eqb c "&"%char then "&amp;"
         else if Ascii.eqb c "<"%char then "&lt;"
         else if Ascii.eqb c ">"%char then "&gt;"
         else if Ascii.eqb c "160"%char then "&nbsp;"
         else String c EmptyString)
        (escapeText rest)
  end.

Fixpoint serializeNode (n : Node) : string :=
  match n with
  | TextNode data => escapeText data
  | SpanNode f children =>
      String.app "<span data-format="
        (String.app quote
           (String.app (joinNames f)
              (String.app quote
                 (String.app ">"
                    (String.app
                       (foldr (fun c acc => String.app (serializeNode c) acc)
                              EmptyString children)
                       "</span>")))))
  end.

Definition extractFormattedContent (block : list Node) : string :=
  foldr (fun c acc => String.app (serializeNode c) acc) EmptyString block.

(** *** Runs *)

(** The run list of a block: every text node with the set of the formats of
    the spans above it. *)
Definition runs (block : list Node) : list (string * list FormatType) :=
  map (fun tn => (tn.1, sortFormats (concat tn.2))) (walkText block).

Fixpoint noAdjacentEqual (rs : list (string * list FormatType)) : bool :=
  match rs with
  | r1 :: ((r2 :: _) as rest) =>
      negb (bool_decide (r1.2 = r2.2)) && noAdjacentEqual rest
  | _ => true
  end.

(** Canonical form: no empty run, no two neighbours with the same format
    set. *)
Definition canonical (rs : list (string * list FormatType)) : bool :=
  forallb (fun r => negb (String.length r.1 =? 0)%nat) rs && noAdjacentEqual rs.

End Format.

(** ** Manual page breaks: [handlePageBreak] *)

Module PageBreak.
Import Format.

Definition countTexts (n : Node) : nat := length (textNodesOf [] n).

(** [beforeRange.cloneContents()]: the range from the start of the block to
    the boundary point in the text node of index [k] at offset [off].
    Nodes before the boundary are cloned whole, the spans around it are
    cloned with the part of their children that lies before it, the text
    node itself with the data before [off].  [idx] is the index of the first
    text node at or below [n]. *)
Fixpoint cloneBeforeNode (k off : nat) (n : Node) (idx : nat) : list Node :=
  match n with
  | TextNode data =>
      if (idx <? k)%nat then [n]
      else if (idx =? k)%nat then [TextNode (String.substring 0 off data)]
      else []
  | SpanNode f children =>
      if (idx + countTexts n <=? k)%nat then [n]
      else if (idx <=? k)%nat then
        [SpanNode f
           ((fix go (cs : list Node) (idx : nat) : list Node :=
               match cs with
               | [] => []
               | c :: rest =>
                   cloneBeforeNode k off c idx ++ go rest (idx + countTexts c)%nat
               end) children idx)]
      else []
  end.

Fixpoint cloneBefore (k off : nat) (cs : list Node) (idx : nat) : list Node :=
  match cs with
  | [] => []
  | c :: rest => cloneBeforeNode k off c idx ++ cloneBefore k off rest (idx + countTexts c)%nat
  end.

(** [afterRange.cloneContents()]: from the boundary point to the end of the
    block. *)
Fixpoint cloneAfterNode (k off : nat) (n : Node) (idx : nat) : list Node :=
  match n with
  | TextNode data =>
      if (idx <? k)%nat then []
      else if (idx =? k)%nat
      then [TextNode (String.substring off (String.length data - off) data)]
      else [n]
  | SpanNode f children =>
      if (idx + countTexts n <=? k)%nat then []
      else if (idx <=? k)%nat then
        [SpanNode f
           ((fix go (cs : list Node) (idx : nat) : list Node :=
               match cs with
               | [] => []
               | c :: rest =>
                   cloneAfterNode k off c idx ++ go rest (idx + countTexts c)%nat
               end) children idx)]
      else [n]
  end.

Fixpoint cloneAfter (k off : nat) (cs : list Node) (idx : nat) : list Node :=
  match cs with
  | [] => []
  | c :: rest => cloneAfterNode k off c idx ++ cloneAfter k off rest (idx + countTexts c)%nat
  end.

(** White space of [String.prototype.trim] among the characters of one
    byte: TAB, LF, VT, FF, CR, SP and NBSP. *)
Definition isWhiteSpace (c : ascii) : bool :=
  match N_of_ascii c with
  | 9%N | 10%N | 11%N | 12%N | 13%N | 32%N | 160%N => true
  | _ => false
  end.

Fixpoint trimStart (s : string) : string :=
  match s with
  | EmptyString => EmptyString
  | String c rest => if isWhiteSpace c then trimStart rest else s
  end.

Definition trimEnd (s : string) : string := String.rev (trimStart (String.rev s)).

Definition trim (s : string) : string := trimEnd (trimStart s).

(** The string is empty or consists of white space only. *)
Fixpoint allWhiteSpace (s : string) : bool :=
  match s with
  | EmptyString => true
  | String c rest => isWhiteSpace c && allWhiteSpace rest
  end.

(** A string is truthy when it is not empty. *)
Definition truthy (s : string) : bool := negb (String.length s =? 0)%nat.

(** The page break element that [handlePageBreak] creates. *)
Definition pageBreakElement (pageBreakId : string) : BlockEl :=
  {| blockId := pageBreakId; isPageBreak := true; content := [] |}.

(** What [handlePageBreak] puts in the place of the block [block] when the
    selection starts in its text node [k] at offset [off]: the block with the
    content before the cursor, the page break, and a new paragraph for the
    content after the cursor if that has text. *)
Definition splitBlock (pageBreakId newBlockId : string) (k off : nat) (block : BlockEl)
    : list BlockEl :=
  let beforeContent := cloneBefore k off (content block) 0 in
  let afterContent := cloneAfter k off (content block) 0 in
  let block' :=
    {| blockId := blockId block; isPageBreak := isPageBreak block;
       content := beforeContent |} in
  let hasAfterContent := trim (textContent afterContent) in
  if truthy hasAfterContent then
    [block'; pageBreakElement pageBreakId;
     {| blockId := newBlockId; isPageBreak := false; content := afterContent |}]
  else [block'; pageBreakElement pageBreakId].

(** [handlePageBreak] for a selection that starts in block [blockIndex] of
    page [pageIndex]; the two ids are the ones drawn from [Date.now()] and
    [Math.random()]. *)
Definition handlePageBreak (pageBreakId newBlockId : string)
    (pageIndex blockIndex k off : nat) (pages : Pages) : Pages :=
  match pages !! pageIndex with
  | Some page =>
      match page !! blockIndex with
      | Some block =>
          <[pageIndex :=
              take blockIndex page
              ++ splitBlock pageBreakId newBlockId k off block
              ++ drop (S blockIndex) page]> pages
      | None => pages
      end
  | None => pages
  end.

(** All the text of a page, block after block. *)
Definition pageText (page : Page) : string :=
  foldr (fun el acc => String.app (textContent (content el)) acc) EmptyString page.

End PageBreak.

(** ** Persistence: [saveDocument] of [storage/local.ts] *)

Module Storage.

Inductive BlockType := paragraph | heading | list_.

Inductive Alignment := left | center | right | justify.

Record Metadata := mkMetadata {
  alignment : option Alignment;
  level : option Z;
  styles : option (list string)
}.

Record Block := mkBlock {
  blockId : string;
  type : BlockType;
  content : string;
  metadata : option Metadata
}.

Record DocumentPage := mkDocumentPage {
  number : Z;
  blocks : list Block
}.

Record Document := mkDocument {
  id : string;
  title : string;
  pages : list DocumentPage;
  createdAt : Z;
  updatedAt : Z
}.

(** JavaScript objects are shared by reference: the heap maps references to
    [Document] objects.  The object store ['documents'] of IndexedDB, with
    key path ['id'], keeps a structured clone of what is put into it. *)
Record State := mkState {
  heap : gmap nat Document;
  documents : gmap string Document
}.

(** [saveDocument(doc)], where [doc] is a reference and [now] the value of
    [Date.now()]. *)
Definition saveDocument (now : Z) (doc : nat) (st : State) : State :=
  match heap st !! doc with
  | Some d =>
      let d' :=
        {| id := id d; title := title d; pages := pages d;
           createdAt := createdAt d; updatedAt := now |} in
      {| heap := <[doc := d']> (heap st);
         documents := <[id d' := d']> (documents st) |}
  | None => st
  end.

End Storage.

(** ** The snapshot: the page list of [recreateDocumentFromDOM] *)

Module Snapshot.

(** A page of the snapshot.  The conversion of a block element to a [Block]
    (id, type, content and metadata read off the element) gives one block
    per element that has a block id, so a snapshot page keeps these elements
    themselves. *)
Record SnapshotPage := mkSnapshotPage {
  number : nat;
  blocks : list BlockEl
}.

(** [.filter((page, index, array) => page.blocks.length > 0 || index === array.length - 1)] *)
Fixpoint keepFilled (index len : nat) (ps : list SnapshotPage) : list SnapshotPage :=
  match ps with
  | [] => []
  | page :: rest =>
      if negb (length (blocks page) =? 0)%nat || (index =? len - 1)%nat
      then page :: keepFilled (S index) len rest
      else keepFilled (S index) len rest
  end.

(** [.map((page, index) => ({ ...page, number: index + 1 }))] *)
Fixpoint renumber (index : nat) (ps : list SnapshotPage) : list SnapshotPage :=
  match ps with
  | [] => []
  | page :: rest =>
      {| number := index + 1; blocks := blocks page |} :: renumber (S index) rest
  end.

(** The [pages] of the document that [recreateDocumentFromDOM] returns,
    from the elements of each page that have a block id. *)
Definition recreatePages (pageRefs : Pages) : list SnapshotPage :=
  let mapped := imap (fun pageIndex els => {| number := pageIndex + 1; blocks := els |}) pageRefs in
  let pages := renumber 0 (keepFilled 0 (length mapped) mapped) in
  match pages with
  | [] => [{| number := 1; blocks := [] |}]
  | _ => pages
  end.

End Snapshot.

(** ** Concrete documents used below *)

Module Examples.

Definition blk (id : string) : BlockEl :=
  {| blockId := id; isPageBreak := false; content := [] |}.

Definition brk (id : string) : BlockEl :=
  {| blockId := id; isPageBreak := true; content := [] |}.

(** A height oracle given by a table from block ids to heights. *)
Fixpoint heightTable (t : list (string * Z)) (el : BlockEl) : Z :=
  match t with
  | [] => 0
  | (id, h) :: t' => if String.eqb id (blockId el) then h else heightTable t' el
  end.

(** One block taller than a page, and small ones. *)
Definition heights : BlockEl -> Z :=
  heightTable [("tall", 1000); ("a", 900); ("b", 20); ("c", 10); ("d", 10)].

Definition tallAlone : Pages := [[blk "tall"]].
Definition tallFirst : Pages := [[blk "tall"; blk "d"]].
Definition threePages : Pages := [[blk "a"]; [blk "b"]; [blk "c"]].
Definition fullPage : Pages := [[blk "a"; blk "b"; blk "c"; blk "d"]].
Definition brokenPage : Pages := [[blk "b"; brk "p"]; [blk "c"]; [brk "q"; blk "d"]].
Definition trailingEmpty : Pages := [[blk "a"]; []].

(** A block with an italic word, and a plain one. *)
Definition italicWord : list Node :=
  [TextNode "ab"; SpanNode [italic] [TextNode "cde"]; TextNode "fg"].
Definition plainText : list Node := [TextNode "abcdefg"].

(** The selection of the characters 2 to 5 of [italicWord] and of
    [plainText], and of the same characters once they are single character
    nodes. *)
Definition selectWord : Format.Range := Format.mkRange 1 0 1 3.
Definition selectInPlain : Format.Range := Format.mkRange 0 2 0 5.
Definition selectChars : Format.Range := Format.mkRange 1 0 3 1.

Definition greeting : BlockEl :=
  {| blockId := "g"; isPageBreak := false;
     content := [TextNode "Hello "; SpanNode [bold] [TextNode "World!"]; TextNode "  "] |}.

Definition draft : Storage.Document :=
  {| Storage.id := "doc-1"; Storage.title := "Untitled Document";
     Storage.pages := []; Storage.createdAt := 100; Storage.updatedAt := 100 |}.

Definition session : Storage.State :=
  {| Storage.heap := {[ 0%nat := draft ]}; Storage.documents := ∅ |}.

End Examples.


(** ** Reading the blocks of a page for the snapshot *)

Module SnapshotDOM.

(** [const blockId = blockElement.getAttribute('data-block-id'); if (!blockId) return;]
    An element without the attribute, or with an empty one, is skipped. *)
Definition hasBlockId (blockElement : BlockEl) : bool :=
  match blockId blockElement with
  | EmptyString => false
  | String _ _ => true
  end.

(** The [forEach] over the children of a page: one block per element that
    has a block id. *)
Definition readBlocks (blockElements : Page) : Page :=
  List.filter hasBlockId blockElements.

(** The [pages] of [recreateDocumentFromDOM], from the pages of the DOM. *)
Definition recreateDocumentFromDOM (pageRefs : Pages) : list Snapshot.SnapshotPage :=
  Snapshot.recreatePages (map readBlocks pageRefs).

End SnapshotDOM.

(** ** Shapes used in the statements about formatting *)

(** [if (beforeText) { ... createTextNode(beforeText) ... }]: the text node
    in front of or behind a selection is only created when it has text. *)
Definition optText (s : string) : list Node :=
  if (String.length s =? 0)%nat then [] else [TextNode s].

(** ** [mergeAdjacentNodesWithSameFormatting]

    The function is defined in the editor and its only call, step 3 of
    [applyFormat], is commented out. *)

Module Merge.

(** [normalizeFormat]: [format.split(' ').filter(Boolean).sort().join(' ')],
    on the list of the tokens.  A token that occurs twice stays twice. *)
Definition normalizeFormat (format : list FormatType) : list FormatType :=
  flat_map (fun name => filter (fun f => f = name) format) Format.sortedNames.

(** [nextFormat === currentFormat && nextFormat.length > 0] *)
Definition sameFormat (nextFormat currentFormat : list FormatType) : bool :=
  bool_decide (nextFormat = currentFormat) && negb (length nextFormat =? 0)%nat.

(** The inner [while] of a formatting span [current]: the spans behind it
    that have the same format give their children to it and are removed
    ([children.splice(j, 1); continue]).  The result holds the children of
    [current] and what is left of [children] behind it. *)
Fixpoint mergeSpans (currentFormat : list FormatType) (currentChildren rest : list Node)
    : list Node * list Node :=
  match rest with
  | SpanNode nextFormatRaw nextChildren :: rest' =>
      if sameFormat (normalizeFormat nextFormatRaw) currentFormat
      then mergeSpans currentFormat (currentChildren ++ nextChildren) rest'
      else (currentChildren, rest)
  | _ => (currentChildren, rest)
  end.

(** The inner [while] of a text node [current]: a text node at [children[j]]
    gives its text to it and is removed ([children.splice(j, 1)]), and then
    [j++] runs all the same, so the node that has moved to index [j] is
    stepped over.  The result holds the text of [current] and what is left
    of [children] behind it. *)
Fixpoint mergeTexts (currentText : string) (rest : list Node) : string * list Node :=
  match rest with
  | TextNode nextText :: rest' =>
      let currentText' := String.app currentText nextText in
      match rest' with
      | [] => (currentText', [])
      | skipped :: rest'' =>
          let '(text, remaining) := mergeTexts currentText' rest'' in
          (text, skipped :: remaining)
      end
  | _ => (currentText, rest)
  end.

(** The loop [while (i < children.length)] from [children[i]] on; [fuel]
    bounds the rounds, one per element of [children]. *)
Fixpoint mergeLoop (fuel : nat) (children : list Node) : list Node :=
  match fuel, children with
  | S fuel', SpanNode formatRaw currentChildren :: rest =>
      let '(currentChildren', rest') :=
        mergeSpans (normalizeFormat formatRaw) currentChildren rest in
      SpanNode formatRaw currentChildren' :: mergeLoop fuel' rest'
  | S fuel', TextNode currentText :: rest =>
      let '(currentText', rest') := mergeTexts currentText rest in
      TextNode currentText' :: mergeLoop fuel' rest'
  | _, _ => children
  end.

(** The [data-format] of the parent once a nested span is unwrapped into
    it: unchanged when both formats are the same and not empty, the sorted
    set of the tokens of both otherwise. *)
Definition mergedFormat (parentFormatRaw childFormatRaw : list FormatType) : list FormatType :=
  if sameFormat (normalizeFormat parentFormatRaw) (normalizeFormat childFormatRaw)
  then parentFormatRaw
  else Format.sortFormats (parentFormatRaw ++ childFormatRaw).

(** The [forEach] over [nestedSpans], the formatting spans in document
    order, below a node whose parent is a formatting span with the format
    [parentFormat]: a nested span is replaced by its children and its format
    goes to the parent; the spans below it then find the same parent.  The
    result holds the format of the parent and the nodes that take the place
    of the node. *)
Fixpoint unwrapNode (parentFormat : list FormatType) (n : Node)
    : list FormatType * list Node :=
  match n with
  | TextNode _ => (parentFormat, [n])
  | SpanNode childFormat children =>
      (fix go (parentFormat : list FormatType) (cs : list Node)
         : list FormatType * list Node :=
         match cs with
         | [] => (parentFormat, [])
         | c :: rest =>
             let '(parentFormat1, c') := unwrapNode parentFormat c in
             let '(parentFormat2, rest') := go parentFormat1 rest in
             (parentFormat2, c' ++ rest')
         end) (mergedFormat parentFormat childFormat) children
  end.

Fixpoint unwrapChildren (parentFormat : list FormatType) (cs : list Node)
    : list FormatType * list Node :=
  match cs with
  | [] => (parentFormat, [])
  | c :: rest =>
      let '(parentFormat1, c') := unwrapNode parentFormat c in
      let '(parentFormat2, rest') := unwrapChildren parentFormat1 rest in
      (parentFormat2, c' ++ rest')
  end.

(** A child of the block: its parent is no formatting span, so it stays. *)
Definition unwrapNested (n : Node) : Node :=
  match n with
  | TextNode _ => n
  | SpanNode formatRaw children =>
      let '(formatRaw', children') := unwrapChildren formatRaw children in
      SpanNode formatRaw' children'
  end.

Definition mergeAdjacentNodesWithSameFormatting (block : list Node) : list Node :=
  map unwrapNested (mergeLoop (length block) block).

End Merge.

(** ** The page flow engine that moves one block at a time

    Two more versions of the editor are kept in the repository.  They move
    one block at a time and know no page breaks; their flow engines are the
    same, line by line.  The module [Legacy] embeds that engine.  Its
    [getOrCreateNextPage] is the one of the editor above, line by line. *)

Module Legacy.
Section WithOracle.

Variable blockHeight : BlockEl -> Z.

Definition getPageContentMaxHeight : Z := 931.

(** The [reduce] of [calculatePageBlocksHeight]: every block counts. *)
Definition calculatePageBlocksHeight (page : Page) : Z :=
  foldl (fun total blockElement => total + blockHeight blockElement) 0 page.

(** [calculatePageHeightWithBlock] *)
Definition calculatePageHeightWithBlock (page : Page) (blockElement : BlockEl) : Z :=
  calculatePageBlocksHeight page + blockHeight blockElement.

(** The last block of a page becomes the first block of another page;
    a last block without block id stays where it is
    ([if (!blockId) return]). *)
Definition moveLastBlockToNextPage (fromPageIndex toPageIndex : nat) (pages : Pages) : Pages :=
  match pages !! fromPageIndex, pages !! toPageIndex with
  | Some fromPage, Some _ =>
      match last fromPage with
      | None => pages
      | Some lastBlock =>
          if negb (Flow.hasBlockId lastBlock) then pages
          else
            let pages1 := <[fromPageIndex := take (length fromPage - 1) fromPage]> pages in
            match pages1 !! toPageIndex with
            | Some toPage => <[toPageIndex := lastBlock :: toPage]> pages1
            | None => pages1
            end
      end
  | _, _ => pages
  end.

(** The first block of a page becomes the last block of another page;
    a first block without block id stays where it is
    ([if (!blockId) return]). *)
Definition moveFirstBlockToPreviousPage (fromPageIndex toPageIndex : nat) (pages : Pages)
    : Pages :=
  match pages !! fromPageIndex, pages !! toPageIndex with
  | Some fromPage, Some _ =>
      match fromPage with
      | [] => pages
      | firstBlock :: rest =>
          if negb (Flow.hasBlockId firstBlock) then pages
          else
            let pages1 := <[fromPageIndex := rest]> pages in
            match pages1 !! toPageIndex with
            | Some toPage => <[toPageIndex := toPage ++ [firstBlock]]> pages1
            | None => pages1
            end
      end
  | _, _ => pages
  end.

(** One run of the page [for] loop of [handleForwardOverflow]: [Some] is the
    state after the first call of [moveLastBlockToNextPage] (the loop then
    [break]s with [hasChanges = true], whether or not the block has moved),
    [None] means that no page had to give a block away. *)
Fixpoint forwardScan (pageIndex : nat) (rest : Pages) (pages : Pages) : option Pages :=
  match rest with
  | [] => None
  | page :: rest' =>
      if (getPageContentMaxHeight <? calculatePageBlocksHeight page)
         && (1 <? length page)%nat
      then Some (moveLastBlockToNextPage pageIndex (S pageIndex)
                   (Flow.getOrCreateNextPage pageIndex pages))
      else forwardScan (S pageIndex) rest' pages
  end.

Definition forwardPass (pages : Pages) : option Pages := forwardScan 0 pages pages.

(** The [while (hasChanges)] loop; [None] when [fuel] rounds do not reach a
    round without a move. *)
Fixpoint forwardLoop (fuel : nat) (pages : Pages) : option Pages :=
  match fuel with
  | O => None
  | S fuel' =>
      match forwardPass pages with
      | None => Some pages
      | Some pages' => forwardLoop fuel' pages'
      end
  end.

Definition handleForwardOverflow (fuel : nat) (pages : Pages) : option Pages :=
  if (length pages =? 0)%nat then Some pages else forwardLoop fuel pages.

(** The [while (hasChanges)] loop of [handleReverseCompaction] for the pair
    ([pageIndex], [pageIndex + 1]): the first block of the next page is
    pulled while it fits.  [hasChanges] is set after every call of
    [moveFirstBlockToPreviousPage], whether or not the block has moved;
    [None] when [fuel] rounds do not reach the end of the loop. *)
Fixpoint pullLoop (fuel pageIndex : nat) (pages : Pages) : option Pages :=
  match fuel with
  | O => None
  | S fuel' =>
      match pages !! pageIndex, pages !! S pageIndex with
      | Some currentPage, Some (firstBlockFromNext :: _) =>
          if calculatePageHeightWithBlock currentPage firstBlockFromNext
             <=? getPageContentMaxHeight
          then pullLoop fuel' pageIndex
                 (moveFirstBlockToPreviousPage (S pageIndex) pageIndex pages)
          else Some pages
      | _, _ => Some pages
      end
  end.

(** The body of the page loop for the pair ([pageIndex], [pageIndex + 1]). *)
Definition compactPair (fuel pageIndex : nat) (pages : Pages) : option Pages :=
  match pages !! pageIndex, pages !! S pageIndex with
  | Some _, Some _ => pullLoop fuel pageIndex pages
  | _, _ => Some pages
  end.

(** [for (pageIndex = startPageIndex; pageIndex < length - 1; pageIndex++)],
    with [count] iterations left. *)
Fixpoint compactFrom (fuel count pageIndex : nat) (pages : Pages) : option Pages :=
  match count with
  | O => Some pages
  | S count' =>
      match compactPair fuel pageIndex pages with
      | Some pages' => compactFrom fuel count' (S pageIndex) pages'
      | None => None
      end
  end.

(** [fuel] bounds the rounds of each [while] loop. *)
Definition handleReverseCompaction (fuel startPageIndex : nat) (pages : Pages)
    : option Pages :=
  if (length pages =? 0)%nat then Some pages
  else compactFrom fuel (length pages - 1 - startPageIndex) startPageIndex pages.

(** [for (i = length - 1; i >= 0; i--)] of [removeEmptyPages], with the
    pages of index below [n] still to visit. *)
Fixpoint removeFrom (n : nat) (pages : Pages) : Pages :=
  match n with
  | O => pages
  | S i =>
      match pages !! i with
      | Some page =>
          if (length page =? 0)%nat && (1 <? length pages)%nat
          then removeFrom i (Flow.splice_remove i pages)
          else removeFrom i pages
      | None => removeFrom i pages
      end
  end.

Definition removeEmptyPages (pages : Pages) : Pages :=
  if (length pages =? 0)%nat then pages else removeFrom (length pages) pages.

(** [handlePageOverflow]; [currentPage] is the result of
    [findCurrentPageIndex()]. *)
Definition handlePageOverflow (fuel : nat) (currentPage : option nat)
    (pages : Pages) : option Pages :=
  if (length pages =? 0)%nat then Some pages
  else
    let currentPageIndex := default 0%nat currentPage in
    match handleForwardOverflow fuel pages with
    | Some pages1 =>
        match handleReverseCompaction fuel currentPageIndex pages1 with
        | Some pages2 => Some (removeEmptyPages pages2)
        | None => None
        end
    | None => None
    end.

End WithOracle.
End Legacy.

(** ** The rest of the persistence layer, and its callers *)

Module Store.

(** [getDocument]: [db.get('documents', docId)] *)
Definition getDocument (docId : string) (st : Storage.State) : option Storage.Document :=
  Storage.documents st !! docId.

(** [deleteDocument]: [db.delete('documents', docId)] *)
Definition deleteDocument (docId : string) (st : Storage.State) : Storage.State :=
  {| Storage.heap := Storage.heap st;
     Storage.documents := delete docId (Storage.documents st) |}.

(** [Array.prototype.sort] with a comparator is stable: an element goes in
    front of the first element behind it that it does not have to follow.
    [before a b] tells that [compareFn(a, b)] is not positive. *)
Fixpoint insertSorted {A} (before : A -> A -> bool) (x : A) (sorted : list A) : list A :=
  match sorted with
  | [] => [x]
  | y :: rest =>
      if before x y then x :: sorted else y :: insertSorted before x rest
  end.

Definition stableSort {A} (before : A -> A -> bool) (l : list A) : list A :=
  foldr (insertSorted before) [] l.

(** The records of the object store in the order of their keys. *)
Definition keyBefore (a b : string * Storage.Document) : bool := String.leb a.1 b.1.

(** [getAllDocuments]: [db.getAll('documents')] *)
Definition getAllDocuments (st : Storage.State) : list Storage.Document :=
  map snd (stableSort keyBefore (map_to_list (Storage.documents st))).

(** The records in the order of the index ['by-updatedAt']: by [updatedAt],
    and by key among the records with the same [updatedAt]. *)
Definition indexBefore (a b : string * Storage.Document) : bool :=
  (Storage.updatedAt a.2 <? Storage.updatedAt b.2)
  || ((Storage.updatedAt a.2 =? Storage.updatedAt b.2) && String.leb a.1 b.1).

(** [(a, b) => b.updatedAt - a.updatedAt] is not positive. *)
Definition newerFirst (a b : Storage.Document) : bool :=
  Storage.updatedAt b <=? Storage.updatedAt a.

(** [array.slice(0, limit)] for an integer [limit]; a negative one counts
    from the end. *)
Definition slice0 {A} (limit : Z) (l : list A) : list A :=
  if limit <? 0 then take (length l - Z.to_nat (- limit)) l
  else take (Z.to_nat limit) l.

(** [getRecentDocuments(limit)] *)
Definition getRecentDocuments (limit : Z) (st : Storage.State) : list Storage.Document :=
  let documents := map snd (stableSort indexBefore (map_to_list (Storage.documents st))) in
  slice0 limit (stableSort newerFirst documents).

(** [getRecentDocuments()]: [limit: number = 10] *)
Definition defaultLimit : Z := 10.

(** [createEmptyDocument(id, title)]; [now] is [Date.now()], [blockId] the
    result of [uuidv4()], and [title] is [None] when the argument is left
    out. *)
Definition createEmptyDocument (now : Z) (blockId : string) (id : string)
    (title : option string) : Storage.Document :=
  {| Storage.id := id;
     Storage.title := default "Untitled Document" title;
     Storage.pages :=
       [ {| Storage.number := 1;
            Storage.blocks :=
              [ {| Storage.blockId := blockId; Storage.type := Storage.paragraph;
                   Storage.content := EmptyString; Storage.metadata := None |} ] |} ];
     Storage.createdAt := now;
     Storage.updatedAt := now |}.

(** [handleCreateNewDocument] of the home page: the new document is a new
    object, stored by [saveDocument]; [saveTime] is [Date.now()] at the
    time of saving. *)
Definition handleCreateNewDocument (docId blockId : string) (now saveTime : Z)
    (st : Storage.State) : Storage.State :=
  let newDoc := fresh (dom (Storage.heap st)) in
  Storage.saveDocument saveTime newDoc
    {| Storage.heap :=
         <[newDoc := createEmptyDocument now blockId docId None]> (Storage.heap st);
       Storage.documents := Storage.documents st |}.

(** [handleTitleSave] of the document page, on the document shown; the
    result is the new value of the state [document].  [titleValue] is the
    text of the title input, [now] is [Date.now()]. *)
Definition handleTitleSave (now : Z) (titleValue : string) (document : Storage.Document)
    : Storage.Document :=
  let trimmedTitle :=
    if PageBreak.truthy (PageBreak.trim titleValue) then PageBreak.trim titleValue
    else "Untitled Document" in
  if bool_decide (trimmedTitle = Storage.title document) then document
  else
    {| Storage.id := Storage.id document;
       Storage.title := trimmedTitle;
       Storage.pages := Storage.pages document;
       Storage.createdAt := Storage.createdAt document;
       Storage.updatedAt := now |}.

End Store.

(** ** Block elements: from a block to its element and back *)

Module Elements.

(** A JavaScript number that is an integer, or [NaN]. *)
Inductive Num := NaN | Int (z : Z).

(** A number is truthy when it is neither [0] nor [NaN]. *)
Definition truthyNum (n : Num) : bool :=
  match n with
  | NaN => false
  | Int z => negb (z =? 0)
  end.

Section WithNumberFormat.

(** [String(n)] writes a number with as few digits as tell it from its
    neighbours.  For a safe integer, below 2^53 in absolute value, these are
    all its digits.  A larger number is written with zeros for the digits
    that are left out ([2 ** 64] gives [18446744073709552000]) and, from
    10^21 on, in exponent notation ([1e+21]); that notation is a
    parameter. *)
Variable exponentNotation : Z -> string.

(** [String(n)] *)
Definition numberToString (n : Num) : string :=
  match n with
  | NaN => "NaN"
  | Int z =>
      if Z.abs z <? 2 ^ 53 then DecimalString.NilZero.string_of_int (Z.to_int z)
      else exponentNotation z
  end.

Definition digitValue (c : ascii) : option Z :=
  let n := N_of_ascii c in
  if ((48 <=? n) && (n <=? 57))%N then Some (Z.of_N n - 48) else None.

Fixpoint parseDigits (acc : Z) (s : string) : Z :=
  match s with
  | EmptyString => acc
  | String c rest =>
      match digitValue c with
      | Some d => parseDigits (10 * acc + d) rest
      | None => acc
      end
  end.

Definition startsWithDigit (s : string) : bool :=
  match s with
  | String c _ => bool_decide (is_Some (digitValue c))
  | EmptyString => false
  end.

(** [parseInt(s, 10)]: leading white space, a sign, then the longest run
    of digits; [NaN] when there is no digit. *)
Definition parseInt (s : string) : Num :=
  match PageBreak.trimStart s with
  | EmptyString => NaN
  | String c rest as t =>
      if Ascii.eqb c "-"%char then
        if startsWithDigit rest then Int (- parseDigits 0 rest) else NaN
      else if Ascii.eqb c "+"%char then
        if startsWithDigit rest then Int (parseDigits 0 rest) else NaN
      else if startsWithDigit t then Int (parseDigits 0 t) else NaN
  end.

(** [haystack.includes(needle)] *)
Fixpoint includesString (needle haystack : string) : bool :=
  String.prefix needle haystack
  || match haystack with
     | EmptyString => false
     | String _ rest => includesString needle rest
     end.

(** [Block['metadata']], with the [isPageBreak] that the editor reads and
    writes besides the fields of the interface. *)
Record Metadata := mkMetadata {
  alignment : option Storage.Alignment;
  level : option Num;
  styles : option (list string);
  isPageBreak : bool
}.

Record Block := mkBlock {
  id : string;
  type : Storage.BlockType;
  content : string;
  metadata : option Metadata
}.

(** [block.metadata?.isPageBreak], [block.metadata?.level] and
    [block.metadata?.alignment] *)
Definition metaIsPageBreak (block : Block) : bool :=
  match metadata block with Some m => isPageBreak m | None => false end.

Definition metaLevel (block : Block) : option Num := metadata block ≫= level.

Definition metaAlignment (block : Block) : option Storage.Alignment :=
  metadata block ≫= alignment.

Definition typeName (t : Storage.BlockType) : string :=
  match t with
  | Storage.paragraph => "paragraph"
  | Storage.heading => "heading"
  | Storage.list_ => "list"
  end.

Definition alignmentName (a : Storage.Alignment) : string :=
  match a with
  | Storage.left => "left"
  | Storage.center => "center"
  | Storage.right => "right"
  | Storage.justify => "justify"
  end.

(** [block.metadata?.level || 1] *)
Definition levelOrOne (l : option Num) : Z :=
  match l with
  | Some (Int z) => if z =? 0 then 1 else z
  | _ => 1
  end.

Definition getBlockTag (block : Block) : string :=
  if metaIsPageBreak block then "div"
  else
    match type block with
    | Storage.heading =>
        let level := levelOrOne (metaLevel block) in
        String.append "h" (numberToString (Int (Z.min (Z.max level 1) 6)))
    | Storage.list_ => "li"
    | Storage.paragraph => "p"
    end.

(** What the editor reads of a block element.  [tagName] is the name the
    element was created with; [textAlign] is [element.style.textAlign],
    empty when it is not set. *)
Record Element := mkElement {
  tagName : string;
  className : string;
  dataBlockId : option string;     (* getAttribute('data-block-id') *)
  dataPageBreak : bool;            (* hasAttribute('data-page-break') *)
  dataLevel : option string;       (* getAttribute('data-level') *)
  textAlign : string;
  childNodes : list Node
}.

Section WithParser.

(** The nodes that [element.innerHTML = content] creates. *)
Variable parseHTML : string -> list Node.

Definition createBlockElement (block : Block) : Element :=
  if metaIsPageBreak block then
    {| tagName := "div"; className := "block page-break";
       dataBlockId := Some (id block); dataPageBreak := true;
       dataLevel := None; textAlign := EmptyString; childNodes := [] |}
  else
    {| tagName := getBlockTag block;
       className := String.append "block " (typeName (type block));
       dataBlockId := Some (id block);
       dataPageBreak := false;
       dataLevel :=
         match type block, metaLevel block with
         | Storage.heading, Some l =>
             if truthyNum l then Some (numberToString l) else None
         | _, _ => None
         end;
       textAlign :=
         match metaAlignment block with
         | Some a => alignmentName a
         | None => EmptyString
         end;
       childNodes := parseHTML (content block) |}.

End WithParser.

Definition getBlockTypeFromElement (element : Element) : Storage.BlockType :=
  if dataPageBreak element then Storage.paragraph
  else if includesString "heading" (className element) then Storage.heading
  else if includesString "list" (className element) then Storage.list_
  else Storage.paragraph.

(** [textAlign && ['left', 'center', 'right', 'justify'].includes(textAlign)] *)
Definition alignmentOf (textAlign : string) : option Storage.Alignment :=
  if String.eqb textAlign "left" then Some Storage.left
  else if String.eqb textAlign "center" then Some Storage.center
  else if String.eqb textAlign "right" then Some Storage.right
  else if String.eqb textAlign "justify" then Some Storage.justify
  else None.

(** [element.tagName.match(/^h([1-6])$/i)], then [parseInt(tagMatch[1], 10)] *)
Definition tagLevel (tagName : string) : option Num :=
  match tagName with
  | String h (String d EmptyString) =>
      if (Ascii.eqb h "h"%char || Ascii.eqb h "H"%char)
         && bool_decide (49 <= N_of_ascii d <= 54)%N
      then Some (parseInt (String d EmptyString))
      else None
  | _ => None
  end.

Definition getBlockMetadataFromElement (element : Element) : option Metadata :=
  if dataPageBreak element then
    Some {| alignment := None; level := None; styles := None; isPageBreak := true |}
  else
    let alignment' := alignmentOf (textAlign element) in
    let level' :=
      if includesString "heading" (className element) then
        match dataLevel element with
        | Some (String c rest) => Some (parseInt (String c rest))
        | _ => tagLevel (tagName element)
        end
      else None in
    match alignment', level' with
    | None, None => None
    | _, _ =>
        Some {| alignment := alignment'; level := level'; styles := None;
                isPageBreak := false |}
    end.

(** The body of the [forEach] of [recreateDocumentFromDOM]: the block read
    off a block element, none for an element without a block id. *)
Definition readBlock (blockElement : Element) : option Block :=
  match dataBlockId blockElement with
  | Some (String c rest) =>
      Some {| id := String c rest;
              type := getBlockTypeFromElement blockElement;
              content :=
                if dataPageBreak blockElement then EmptyString
                else Format.extractFormattedContent (childNodes blockElement);
              metadata := getBlockMetadataFromElement blockElement |}
  | _ => None
  end.

(** [handleBlockTypeChange] *)
Inductive BlockTypeOption := h1 | h2 | h3 | paragraphOption.

Definition optionType (o : BlockTypeOption) : Storage.BlockType :=
  match o with
  | paragraphOption => Storage.paragraph
  | _ => Storage.heading
  end.

Definition optionLevel (o : BlockTypeOption) : option Num :=
  match o with
  | h1 => Some (Int 1)
  | h2 => Some (Int 2)
  | h3 => Some (Int 3)
  | paragraphOption => None
  end.

(** The element that takes the place of [block]. *)
Definition changeBlockType (blockTypeOption : BlockTypeOption) (block : Element) : Element :=
  let blockType := optionType blockTypeOption in
  let level := optionLevel blockTypeOption in
  let plainText := Format.textContent (childNodes block) in
  {| tagName :=
       match blockType, level with
       | Storage.heading, Some l => String.append "h" (numberToString l)
       | _, _ => "p"
       end;
     className := String.append "block " (typeName blockType);
     dataBlockId := Some (default EmptyString (dataBlockId block));
     dataPageBreak := false;
     dataLevel :=
       match blockType, level with
       | Storage.heading, Some l => if truthyNum l then Some (numberToString l) else None
       | _, _ => None
       end;
     textAlign := textAlign block;
     childNodes := optText plainText |}.

(** The blocks of the document after [handleBlockTypeChange]:
    [intersects] is [range.intersectsNode]; page breaks and elements
    without the attribute [data-block-id] are passed over. *)
Definition handleBlockTypeChange (blockTypeOption : BlockTypeOption)
    (intersects : Element -> bool) (blocks : list Element) : list Element :=
  map (fun block =>
         if bool_decide (is_Some (dataBlockId block))
            && negb (dataPageBreak block) && intersects block
         then changeBlockType blockTypeOption block
         else block) blocks.

End WithNumberFormat.

End Elements.
(** ** Predicates used in the statements *)

Module Spec.
Section WithOracle.

Variable blockHeight : BlockEl -> Z.

(** Every block of the page has a height that is not negative. *)
Definition nonNegative (p : Page) : Prop :=
  Forall (fun el => 0 <= blockHeight el) p.

(** Every real block of the page fits on a page of its own. *)
Definition fitsAlone (p : Page) : Prop :=
  Forall (fun el => isPageBreak el = false -> blockHeight el <= Flow.getPageContentMaxHeight) p.

(** A page is within the budget. *)
Definition withinBudget (page : Page) : Prop :=
  Flow.contentHeight blockHeight page <= Flow.getPageContentMaxHeight.

(** A page is within the budget, or holds at most one real block. *)
Definition settled (page : Page) : Prop :=
  (1 < Flow.realBlocks page)%nat -> withinBudget page.

(** The number of leading blocks of the next page that the scan of
    [handleReverseCompaction] selects. *)
Fixpoint pullCount (currentPageHeight : Z) (encounteredPageBreak : bool)
    (els : list BlockEl) : nat :=
  match els with
  | [] => 0%nat
  | block :: rest =>
      if isPageBreak block then S (pullCount currentPageHeight true rest)
      else
        let blockHeight' :=
          if encounteredPageBreak then Flow.getPageContentMaxHeight + 1000
          else blockHeight block in
        if currentPageHeight + blockHeight' <=? Flow.getPageContentMaxHeight
        then S (pullCount (currentPageHeight + blockHeight') encounteredPageBreak rest)
        else 0%nat
  end.

(** The split point in the words of the specification.  Block [i] makes the
    running total exceed the budget: *)
Definition exceedsAt (page : Page) (i : nat) : Prop :=
  exists b, page !! i = Some b /\ isPageBreak b = false
            /\ Flow.getPageContentMaxHeight < Flow.contentHeight blockHeight (take (S i) page).

(** block [j] is a page break that is not the last element of the page: *)
Definition breakAt (page : Page) (j : nat) : Prop :=
  exists b, page !! j = Some b /\ isPageBreak b = true /\ (S j < length page)%nat.

(** [k] is the first block that makes the total exceed the budget, or the
    position right after a page break that is not last, whichever the scan
    from the top meets first. *)
Definition splitPoint (page : Page) (k : nat) : Prop :=
  (exceedsAt page k \/ exists j, k = S j /\ breakAt page j)
  /\ (forall i, (i < k)%nat -> ~ exceedsAt page i)
  /\ (forall j, (S j < k)%nat -> ~ breakAt page j).

End WithOracle.

(** The blocks of a list that carry a block id, and the ones that do not. *)
Definition withId (l : list BlockEl) : list BlockEl :=
  filter (fun el => Flow.hasBlockId el = true) l.

Definition withoutId (l : list BlockEl) : list BlockEl :=
  filter (fun el => Flow.hasBlockId el = false) l.

(** Every block of the page carries a block id. *)
Definition identified (page : Page) : Prop :=
  Forall (fun el => Flow.hasBlockId el = true) page.

(** The measure of forward overflow: the sum, over the blocks of the
    document, of the index of the page that holds the block; [index] is the
    index of the first page of [pages]. *)
Fixpoint weight (index : nat) (pages : Pages) : nat :=
  match pages with
  | [] => 0%nat
  | page :: rest => (index * length page + weight (S index) rest)%nat
  end.

(** The number of pages without any block. *)
Fixpoint emptyPages (pages : Pages) : nat :=
  match pages with
  | [] => 0%nat
  | page :: rest => ((if (length page =? 0)%nat then 1 else 0) + emptyPages rest)%nat
  end.

(** What pruning leaves, in words: the pages that hold a real block, or the
    first page alone when no page holds one. *)
Definition pruned (pages : Pages) : Pages :=
  if forallb Flow.hasNoRealBlock pages then take 1 pages
  else filter (fun page => Flow.hasNoRealBlock page = false) pages.


(** The text of a list of text nodes. *)
Definition joinText {A} (l : list (string * A)) : string :=
  foldr (fun tn acc => String.app tn.1 acc) EmptyString l.

(** The clone before the boundary and the clone after it share out the text
    of the node [n]. *)
Definition splitsText (k off : nat) (n : Node) : Prop :=
  forall idx,
    String.app (Format.textContent (PageBreak.cloneBeforeNode k off n idx))
      (Format.textContent (PageBreak.cloneAfterNode k off n idx))
    = Format.textContent [n].

End Spec.

(** * Properties *)

(** ** Lists and heights *)

Section FlowFacts.

Variable blockHeight : BlockEl -> Z.

Abbreviation contentHeight := (Flow.contentHeight blockHeight).
Abbreviation pageSplit := (Flow.pageSplit blockHeight).
Abbreviation findSplitIndex := (Flow.findSplitIndex blockHeight).
Abbreviation reduceHeights := (Flow.reduceHeights blockHeight).
Abbreviation calculatePageBlocksHeight := (Flow.calculatePageBlocksHeight blockHeight).
Abbreviation maxHeight := Flow.getPageContentMaxHeight.
Abbreviation nonNegative := (Spec.nonNegative blockHeight).
Abbreviation settled := (Spec.settled blockHeight).

(** The two loops that move blocks share out the slice: the blocks with a
    block id move, the others stay. *)
Lemma insertAtTop_spec pending staying moved :
  Flow.insertAtTop pending staying moved
  = (Spec.withoutId (rev pending) ++ staying, Spec.withId (rev pending) ++ moved).
Proof.
  revert staying moved. unfold Spec.withId, Spec.withoutId.
  induction pending as [|b pending IH]; intros staying moved; simpl; [done|].
  rewrite !filter_app, !filter_cons, !filter_nil.
  destruct (Flow.hasBlockId b) eqn:E; rewrite IH; simpl;
    by rewrite ?app_nil_r, <- ?app_assoc.
Qed.

Lemma insertAtTop_rev moving :
  Flow.insertAtTop (rev moving) [] [] = (Spec.withoutId moving, Spec.withId moving).
Proof. by rewrite insertAtTop_spec, rev_involutive, !app_nil_r. Qed.

Lemma appendEach_spec moving staying moved :
  Flow.appendEach moving staying moved
  = (staying ++ Spec.withoutId moving, moved ++ Spec.withId moving).
Proof.
  revert staying moved. unfold Spec.withId, Spec.withoutId.
  induction moving as [|b moving IH]; intros staying moved; simpl.
  - by rewrite !app_nil_r.
  - rewrite !filter_cons.
    destruct (Flow.hasBlockId b) eqn:E; rewrite IH; simpl;
      by rewrite <- ?app_assoc.
Qed.

Lemma withId_identified (l : list BlockEl) :
  Spec.identified l -> Spec.withId l = l /\ Spec.withoutId l = [].
Proof.
  unfold Spec.withId, Spec.withoutId.
  induction 1 as [|b l Hb _ [IH1 IH2]]; [done|].
  rewrite !filter_cons, Hb. simpl. by rewrite IH1, IH2.
Qed.



(** The blocks with a block id and the blocks without one are the blocks. *)
Lemma withId_withoutId_Permutation (l : list BlockEl) :
  Spec.withId l ++ Spec.withoutId l ≡ₚ l.
Proof.
  unfold Spec.withId, Spec.withoutId.
  induction l as [|b l IH]; [done|].
  rewrite !filter_cons. destruct (Flow.hasBlockId b) eqn:E; simpl.
  - by rewrite IH.
  - rewrite <- Permutation_middle. by rewrite IH.
Qed.

Lemma withoutId_withId_Permutation (l : list BlockEl) :
  Spec.withoutId l ++ Spec.withId l ≡ₚ l.
Proof. rewrite (Permutation_app_comm _ _). apply withId_withoutId_Permutation. Qed.

Lemma Forall_withId (Q : BlockEl -> Prop) (l : list BlockEl) :
  Forall Q l -> Forall Q (Spec.withId l).
Proof.
  intros H. apply Forall_forall. intros x Hx.
  apply list_elem_of_filter in Hx as [_ Hx]. rewrite Forall_forall in H. by apply H.
Qed.

Lemma Forall_withoutId (Q : BlockEl -> Prop) (l : list BlockEl) :
  Forall Q l -> Forall Q (Spec.withoutId l).
Proof.
  intros H. apply Forall_forall. intros x Hx.
  apply list_elem_of_filter in Hx as [_ Hx]. rewrite Forall_forall in H. by apply H.
Qed.

Lemma contentHeight_app (p q : Page) :
  contentHeight (p ++ q) = contentHeight p + contentHeight q.
Proof.
  induction p as [|b p IH]; simpl; [done|].
  unfold Flow.contentHeight in *. simpl. destruct (isPageBreak b); lia.
Qed.

Lemma realBlocks_app (p q : Page) :
  Flow.realBlocks (p ++ q) = (Flow.realBlocks p + Flow.realBlocks q)%nat.
Proof. unfold Flow.realBlocks. by rewrite filter_app, length_app. Qed.

Lemma realBlocks_cons b (p : Page) :
  Flow.realBlocks (b :: p)
  = ((if isPageBreak b then 0 else 1) + Flow.realBlocks p)%nat.
Proof.
  unfold Flow.realBlocks, Flow.notPageBreak. rewrite filter_cons.
  by destruct (isPageBreak b).
Qed.

Lemma contentHeight_cons b (p : Page) :
  contentHeight (b :: p)
  = (if isPageBreak b then 0 else blockHeight b) + contentHeight p.
Proof. unfold Flow.contentHeight. simpl. by destruct (isPageBreak b). Qed.

(** A page without real blocks has content height 0. *)
Lemma contentHeight_no_real (p : Page) :
  Flow.realBlocks p = 0%nat -> contentHeight p = 0.
Proof.
  induction p as [|b p IH]; [done|].
  rewrite realBlocks_cons, contentHeight_cons.
  destruct (isPageBreak b); [|lia]. intros H. rewrite IH; lia.
Qed.

Lemma contentHeight_nonneg (p : Page) : nonNegative p -> 0 <= contentHeight p.
Proof.
  induction 1 as [|b p Hb _ IH]; [done|].
  rewrite contentHeight_cons. destruct (isPageBreak b); lia.
Qed.

Lemma nonNegative_take n (p : Page) : nonNegative p -> nonNegative (take n p).
Proof. apply Forall_take. Qed.

Lemma nonNegative_drop n (p : Page) : nonNegative p -> nonNegative (drop n p).
Proof. apply Forall_drop. Qed.

Lemma contentHeight_drop_le n (p : Page) :
  nonNegative p -> contentHeight (drop n p) <= contentHeight p.
Proof.
  intros H. rewrite <- (take_drop n p) at 2. rewrite contentHeight_app.
  pose proof (contentHeight_nonneg (take n p) (nonNegative_take n p H)). lia.
Qed.

(** Leaving blocks out makes a page neither higher nor fuller. *)
Lemma contentHeight_filter_le (P : BlockEl -> Prop) `{!forall x, Decision (P x)} (p : Page) :
  nonNegative p -> 0 <= contentHeight (filter P p) <= contentHeight p.
Proof.
  induction 1 as [|b p Hb _ IH]; [done|].
  rewrite filter_cons. destruct (decide (P b)); rewrite !contentHeight_cons;
    destruct (isPageBreak b); lia.
Qed.

Lemma realBlocks_filter_le (P : BlockEl -> Prop) `{!forall x, Decision (P x)} (p : Page) :
  (Flow.realBlocks (filter P p) <= Flow.realBlocks p)%nat.
Proof.
  induction p as [|b p IH]; [done|].
  rewrite filter_cons. destruct (decide (P b)); rewrite !realBlocks_cons; lia.
Qed.

Lemma realBlocks_drop_le n (p : Page) :
  (Flow.realBlocks (drop n p) <= Flow.realBlocks p)%nat.
Proof. rewrite <- (take_drop n p) at 2. rewrite realBlocks_app. lia. Qed.

(** The height that [calculatePageBlocksHeight] computes is the content
    height plus the penalty of the page breaks that are not last. *)
Lemma reduceHeights_ge total index len els :
  total + contentHeight els <= reduceHeights total index len els.
Proof.
  revert total index. induction els as [|b els IH]; intros total index.
  - simpl. unfold Flow.contentHeight. simpl. lia.
  - rewrite contentHeight_cons. simpl.
    destruct (isPageBreak b).
    + destruct (index <? len - 1)%nat.
      * etrans; [|apply IH]. unfold Flow.getPageContentMaxHeight. lia.
      * etrans; [|apply IH]. lia.
    + etrans; [|apply IH]. lia.
Qed.

Lemma calculate_ge_content (page : Page) :
  contentHeight page <= calculatePageBlocksHeight page.
Proof.
  unfold Flow.calculatePageBlocksHeight.
  pose proof (reduceHeights_ge 0 0%nat (length page) page). lia.
Qed.

(** When the split loop finds nothing, the page height is within the
    budget. *)
Lemma findSplitIndex_None acc i len els :
  findSplitIndex acc i len els = None ->
  acc <= maxHeight ->
  reduceHeights acc i len els <= maxHeight.
Proof.
  revert acc i. induction els as [|b els IH]; intros acc i Hfind Hacc; simpl in *.
  - done.
  - destruct (isPageBreak b).
    + destruct (i <? len - 1)%nat; [done|]. by apply IH.
    + destruct (maxHeight <? acc + blockHeight b) eqn:E; [done|].
      apply Z.ltb_ge in E. by apply IH.
Qed.

Lemma findSplitIndex_lt acc i len els k :
  (i + length els = len)%nat ->
  findSplitIndex acc i len els = Some k -> (i <= k < len)%nat.
Proof.
  revert acc i. induction els as [|b els IH]; intros acc i Hlen Hfind; simpl in *.
  - done.
  - destruct (isPageBreak b).
    + destruct (i <? len - 1)%nat eqn:E.
      * apply Nat.ltb_lt in E. inversion Hfind. lia.
      * apply IH in Hfind; lia.
    + destruct (maxHeight <? acc + blockHeight b).
      * inversion Hfind. lia.
      * apply IH in Hfind; lia.
Qed.

Lemma pageSplit_None_settled (page : Page) :
  pageSplit page = None -> settled page.
Proof.
  unfold Flow.pageSplit, Spec.settled, Spec.withinBudget. intros H Hreal.
  destruct (maxHeight <? calculatePageBlocksHeight page) eqn:E.
  - fold (Flow.realBlocks page) in H.
    destruct (1 <? Flow.realBlocks page)%nat eqn:E1.
    + destruct (findSplitIndex 0 0 (length page) page) as [k|] eqn:E2.
      * pose proof (findSplitIndex_lt _ _ _ _ _ (Nat.add_0_l _) E2) as Hk.
        destruct (k <? length page)%nat eqn:E3; [done|].
        apply Nat.ltb_ge in E3. lia.
      * apply findSplitIndex_None in E2; [|unfold Flow.getPageContentMaxHeight; lia].
        apply Z.ltb_lt in E. unfold Flow.calculatePageBlocksHeight in E. lia.
    + apply Nat.ltb_ge in E1. lia.
  - apply Z.ltb_ge in E. pose proof (calculate_ge_content page). lia.
Qed.

End FlowFacts.

(** ** Reverse compaction and pruning, step by step *)

Section ReverseFacts.

Variable blockHeight : BlockEl -> Z.

Abbreviation contentHeight' := (Flow.contentHeight blockHeight).
Abbreviation maxHeight' := Flow.getPageContentMaxHeight.
Abbreviation nonNegative' := (Spec.nonNegative blockHeight).
Abbreviation settled' := (Spec.settled blockHeight).
Abbreviation pullCount := (Spec.pullCount blockHeight).
Abbreviation compactPair := (Flow.compactPair blockHeight).

Lemma scanNextPage_pullCount h e i els acc :
  Flow.scanNextPage blockHeight h e i els acc = acc ++ seq i (pullCount h e els).
Proof.
  revert h e i acc. induction els as [|b els IH]; intros h e i acc; simpl.
  - by rewrite app_nil_r.
  - destruct (isPageBreak b).
    + rewrite IH, <- app_assoc. done.
    + destruct (h + (if e then maxHeight' + 1000 else blockHeight b) <=? maxHeight').
      * rewrite IH, <- app_assoc. done.
      * simpl. by rewrite app_nil_r.
Qed.

Lemma pullCount_le h e els : (pullCount h e els <= length els)%nat.
Proof.
  revert h e. induction els as [|b els IH]; intros h e; simpl; [lia|].
  destruct (isPageBreak b).
  - specialize (IH h true). lia.
  - destruct (h + _ <=? maxHeight'); [|lia].
    specialize (IH (h + (if e then maxHeight' + 1000 else blockHeight b)) e). lia.
Qed.

Lemma last_seq i n : last (seq i (S n)) = Some (i + n)%nat.
Proof.
  revert i. induction n as [|n IH]; intros i.
  - simpl. f_equal. lia.
  - change (seq i (S (S n))) with (i :: seq (S i) (S n)).
    rewrite last_cons, IH. f_equal. lia.
Qed.

(** After a page break nothing but page breaks is selected. *)
Lemma pullCount_after_break h els :
  -1000 < h ->
  Forall (fun el => isPageBreak el = true) (take (pullCount h true els) els).
Proof.
  intros Hh. induction els as [|b els IH]; simpl; [constructor|].
  destruct (isPageBreak b) eqn:E.
  - simpl. by constructor.
  - destruct (h + (maxHeight' + 1000) <=? maxHeight') eqn:E1.
    + apply Z.leb_le in E1. unfold Flow.getPageContentMaxHeight in E1. lia.
    + constructor.
Qed.

Lemma realBlocks_all_breaks (p : Page) :
  Forall (fun el => isPageBreak el = true) p -> Flow.realBlocks p = 0%nat.
Proof.
  induction 1 as [|b p Hb _ IH]; [done|].
  rewrite realBlocks_cons, Hb. done.
Qed.

(** What the scan selects either holds no real block or keeps the current
    page within the budget. *)
Lemma pullCount_budget h els :
  0 <= h -> nonNegative' els ->
  let pulled := take (pullCount h false els) els in
  Flow.realBlocks pulled = 0%nat \/ h + contentHeight' pulled <= maxHeight'.
Proof.
  intros Hh Hnn. revert h Hh. cbv zeta.
  induction Hnn as [|b els Hb Hnn IH]; intros h Hh; [by left|].
  cbn [Spec.pullCount]. destruct (isPageBreak b) eqn:E.
  - left. rewrite firstn_cons, realBlocks_cons, E.
    rewrite realBlocks_all_breaks; [done|]. apply pullCount_after_break. lia.
  - destruct (h + blockHeight b <=? maxHeight') eqn:E1; [|by left].
    apply Z.leb_le in E1. right.
    rewrite firstn_cons, contentHeight_cons, E.
    destruct (IH (h + blockHeight b)) as [H0|H1]; [lia| |].
    + rewrite (contentHeight_no_real _ _ H0). lia.
    + lia.
Qed.


Lemma measureAll_content h (cur : Page) :
  existsb isPageBreak cur = false ->
  Flow.measureAll blockHeight h cur = h + contentHeight' cur.
Proof.
  revert h. induction cur as [|b cur IH]; intros h Hno;
    cbn [Flow.measureAll existsb] in *.
  - unfold Flow.contentHeight. simpl. lia.
  - apply orb_false_iff in Hno as [Hb Hno].
    rewrite IH by done. rewrite contentHeight_cons, Hb. lia.
Qed.

(** The effect of one iteration of the loop of [handleReverseCompaction]:
    nothing, or the first [n] blocks of the next page are visited, where
    [n] is what the scan selects; those with a block id go to the end of
    the current page, the others stay at the top of the next page. *)
Lemma compactPair_cases pageIndex (pages : Pages) :
  compactPair pageIndex pages = pages
  \/ exists cur next n,
       pages !! pageIndex = Some cur /\ pages !! S pageIndex = Some next
       /\ existsb isPageBreak cur = false
       /\ n = pullCount (Flow.measureAll blockHeight 0 cur) false next
       /\ (0 < n <= length next)%nat
       /\ compactPair pageIndex pages
          = <[pageIndex := cur ++ Spec.withId (take n next)]>
              (<[S pageIndex := Spec.withoutId (take n next) ++ drop n next]> pages).
Proof.
  unfold Flow.compactPair.
  destruct (pages !! pageIndex) as [cur|] eqn:Hcur; [|by left].
  destruct (pages !! S pageIndex) as [next|] eqn:Hnext; [|by left].
  destruct (length next =? 0)%nat; [by left|].
  destruct (existsb isPageBreak cur) eqn:Hpb; [by left|].
  rewrite scanNextPage_pullCount. simpl.
  pose proof (pullCount_le (Flow.measureAll blockHeight 0 cur) false next) as Hle.
  destruct (pullCount (Flow.measureAll blockHeight 0 cur) false next) as [|m] eqn:Hn;
    [by left|].
  right. exists cur, next, (S m). rewrite last_seq.
  change (head (seq 0 (S m))) with (Some 0%nat). simpl "+"%nat.
  repeat split; try done; try lia.
  unfold Flow.moveBlocksToPreviousPage. rewrite Hnext, Hcur.
  destruct (length next <=? 0)%nat eqn:E0.
  { apply Nat.leb_le in E0. lia. }
  destruct (length next <? S m)%nat eqn:E1.
  { apply Nat.ltb_lt in E1. lia. }
  cbn [orb]. unfold Flow.slice. rewrite Nat.sub_0_r, drop_0, take_0.
  rewrite appendEach_spec. cbn [app].
  rewrite length_take_le by lia. cbn [Nat.add].
  rewrite list_lookup_insert_ne by lia. by rewrite Hcur.
Qed.

(** When every block carries a block id, the selected blocks all move. *)
Lemma compactPair_cases_identified pageIndex (pages : Pages) :
  Forall Spec.identified pages ->
  compactPair pageIndex pages = pages
  \/ exists cur next n,
       pages !! pageIndex = Some cur /\ pages !! S pageIndex = Some next
       /\ existsb isPageBreak cur = false
       /\ n = pullCount (Flow.measureAll blockHeight 0 cur) false next
       /\ (0 < n <= length next)%nat
       /\ compactPair pageIndex pages
          = <[pageIndex := cur ++ take n next]> (<[S pageIndex := drop n next]> pages).
Proof.
  intros Hid.
  destruct (compactPair_cases pageIndex pages)
    as [H|(cur & next & n & Hcur & Hnext & Hno & Hn & Hlen & Heq)]; [by left|].
  right. exists cur, next, n. repeat split; try done; try lia.
  assert (Spec.identified (take n next)) as Hpulled.
  { apply Forall_take. by eapply Forall_lookup_1. }
  destruct (withId_identified _ Hpulled) as [H1 H2].
  by rewrite Heq, H1, H2.
Qed.

Lemma compactPair_length pageIndex (pages : Pages) :
  length (compactPair pageIndex pages) = length pages.
Proof.
  destruct (compactPair_cases pageIndex pages) as [->|(cur & next & n & _ & _ & _ & _ & _ & ->)];
    [done|].
  by rewrite !length_insert.
Qed.

(** An iteration keeps what holds of every block. *)
Lemma compactPair_Forall (Q : BlockEl -> Prop) pageIndex (pages : Pages) :
  Forall (Forall Q) pages -> Forall (Forall Q) (compactPair pageIndex pages).
Proof.
  intros H.
  destruct (compactPair_cases pageIndex pages)
    as [->|(cur & next & n & Hcur & Hnext & _ & _ & _ & ->)]; [done|].
  pose proof (Forall_lookup_1 _ _ _ _ H Hcur) as Hc.
  pose proof (Forall_lookup_1 _ _ _ _ H Hnext) as Hx.
  apply Forall_insert; [apply Forall_insert|]; [done| |].
  - apply Forall_app. split; [by apply Forall_withoutId, Forall_take|by apply Forall_drop].
  - apply Forall_app. split; [done|by apply Forall_withId, Forall_take].
Qed.

Lemma compactPair_nonNegative pageIndex (pages : Pages) :
  Forall nonNegative' pages -> Forall nonNegative' (compactPair pageIndex pages).
Proof. apply compactPair_Forall. Qed.

Lemma compactPair_settled pageIndex (pages : Pages) :
  Forall nonNegative' pages -> Forall settled' pages ->
  Forall settled' (compactPair pageIndex pages).
Proof.
  intros Hnn Hst.
  destruct (compactPair_cases pageIndex pages)
    as [->|(cur & next & n & Hcur & Hnext & Hno & Hn & Hlen & ->)]; [done|].
  rewrite Forall_lookup in Hnn. rewrite Forall_lookup in Hst.
  pose proof (Hnn _ _ Hcur) as Hc. pose proof (Hnn _ _ Hnext) as Hx.
  pose proof (Hst _ _ Hcur) as Sc. pose proof (Hst _ _ Hnext) as Sx.
  assert (nonNegative' (take n next)) as Hpulled by (by apply Forall_take).
  apply Forall_insert; [apply Forall_insert|].
  - by apply Forall_lookup.
  - unfold Spec.settled, Spec.withinBudget, Spec.withoutId in *. intros Hreal.
    rewrite realBlocks_app in Hreal. rewrite contentHeight_app.
    pose proof (realBlocks_filter_le (fun el => Flow.hasBlockId el = false) (take n next)).
    pose proof (contentHeight_filter_le blockHeight
                  (fun el => Flow.hasBlockId el = false) (take n next) Hpulled).
    assert (Flow.realBlocks next
            = (Flow.realBlocks (take n next) + Flow.realBlocks (drop n next))%nat) as Hr.
    { by rewrite <- realBlocks_app, take_drop. }
    assert (contentHeight' next
            = contentHeight' (take n next) + contentHeight' (drop n next)) as Hh.
    { by rewrite <- contentHeight_app, take_drop. }
    specialize (Sx ltac:(lia)). lia.
  - unfold Spec.settled, Spec.withinBudget, Spec.withId in *. intros Hreal.
    rewrite contentHeight_app. rewrite realBlocks_app in Hreal.
    rewrite measureAll_content in Hn by done. rewrite Z.add_0_l in Hn.
    pose proof (contentHeight_nonneg blockHeight cur Hc) as H0.
    pose proof (realBlocks_filter_le (fun el => Flow.hasBlockId el = true) (take n next)) as Hr.
    pose proof (contentHeight_filter_le blockHeight
                  (fun el => Flow.hasBlockId el = true) (take n next) Hpulled) as Hh.
    destruct (pullCount_budget (contentHeight' cur) next H0 Hx) as [Hz|Hb];
      rewrite <- Hn in *.
    + rewrite (contentHeight_no_real blockHeight
                 (filter (fun el => Flow.hasBlockId el = true) (take n next))) by lia.
      assert (1 < Flow.realBlocks cur)%nat as Hcur1 by lia.
      specialize (Sc Hcur1). lia.
    + lia.
Qed.

Lemma compactFrom_length count pageIndex (pages : Pages) :
  length (Flow.compactFrom blockHeight count pageIndex pages) = length pages.
Proof.
  revert pageIndex pages. induction count as [|count IH]; intros pageIndex pages; simpl;
    [done|].
  by rewrite IH, compactPair_length.
Qed.

Lemma compactFrom_settled count pageIndex (pages : Pages) :
  Forall nonNegative' pages -> Forall settled' pages ->
  Forall settled' (Flow.compactFrom blockHeight count pageIndex pages).
Proof.
  revert pageIndex pages. induction count as [|count IH]; intros pageIndex pages Hnn Hst;
    simpl; [done|].
  apply IH; [by apply compactPair_nonNegative|by apply compactPair_settled].
Qed.

Lemma handleReverseCompaction_settled start (pages : Pages) :
  Forall nonNegative' pages -> Forall settled' pages ->
  Forall settled' (Flow.handleReverseCompaction blockHeight start pages).
Proof.
  intros Hnn Hst. unfold Flow.handleReverseCompaction.
  destruct (length pages =? 0)%nat; [done|]. by apply compactFrom_settled.
Qed.

End ReverseFacts.

Section PruneFacts.

Lemma splice_remove_Forall {A} (P : A -> Prop) i (l : list A) :
  Forall P l -> Forall P (Flow.splice_remove i l).
Proof.
  intros H. unfold Flow.splice_remove. apply Forall_app.
  split; [by apply Forall_take|by apply Forall_drop].
Qed.

Lemma removeFrom_Forall (P : Page -> Prop) n (pages : Pages) :
  Forall P pages -> Forall P (Flow.removeFrom n pages).
Proof.
  revert pages. induction n as [|n IH]; intros pages H; simpl; [done|].
  destruct (pages !! n) as [page|]; [|by apply IH].
  destruct (Flow.hasNoRealBlock page && (1 <? length pages)%nat); apply IH; [|done].
  by apply splice_remove_Forall.
Qed.

Lemma removeEmptyPages_Forall (P : Page -> Prop) (pages : Pages) :
  Forall P pages -> Forall P (Flow.removeEmptyPages pages).
Proof.
  intros H. unfold Flow.removeEmptyPages.
  destruct (length pages =? 0)%nat; [done|]. by apply removeFrom_Forall.
Qed.

End PruneFacts.

(** ** Forward overflow, step by step *)

Section ForwardFacts.

Variable blockHeight : BlockEl -> Z.

Abbreviation pageSplit' := (Flow.pageSplit blockHeight).
Abbreviation forwardPass := (Flow.forwardPass blockHeight).
Abbreviation forwardLoop := (Flow.forwardLoop blockHeight).

Lemma forwardScan_None pageIndex (rest pages : Pages) :
  Flow.forwardScan blockHeight pageIndex rest pages = None ->
  Forall (fun page => pageSplit' page = None) rest.
Proof.
  revert pageIndex. induction rest as [|page rest IH]; intros pageIndex H; simpl in *.
  - constructor.
  - destruct (pageSplit' page) eqn:E; [done|]. constructor; [done|]. by eapply IH.
Qed.

(** The loop stops only on a document in which no page has to move. *)
Lemma forwardLoop_stable fuel (pages pages' : Pages) :
  forwardLoop fuel pages = Some pages' -> forwardPass pages' = None.
Proof.
  revert pages. induction fuel as [|fuel IH]; intros pages H; simpl in *; [done|].
  destruct (forwardPass pages) as [pages1|] eqn:E.
  - by eapply IH.
  - by inversion H; subst.
Qed.

Lemma forwardPass_None_settled (pages : Pages) :
  forwardPass pages = None -> Forall (Spec.settled blockHeight) pages.
Proof.
  intros H. apply forwardScan_None in H.
  eapply Forall_impl; [exact H|]. intros page. apply pageSplit_None_settled.
Qed.

(** The scan moves the blocks of the first page that has a split index. *)
Lemma forwardScan_first (pre : Pages) page (post pages : Pages) k pageIndex :
  Forall (fun pg => pageSplit' pg = None) pre ->
  pageSplit' page = Some k ->
  Flow.forwardScan blockHeight pageIndex (pre ++ page :: post) pages
  = Some (Flow.moveBlocksToNextPage (pageIndex + length pre) (S (pageIndex + length pre)) k
            (Flow.getOrCreateNextPage (pageIndex + length pre) pages)).
Proof.
  intros Hpre Hk. revert pageIndex.
  induction Hpre as [|pg pre Hpg _ IH]; intros pageIndex; simpl.
  - rewrite Hk. by rewrite Nat.add_0_r.
  - rewrite Hpg, IH.
    by replace (S pageIndex + length pre)%nat with (pageIndex + S (length pre))%nat by lia.
Qed.

(** The state after the move from page [p] at split index [k]: page [p]
    keeps its first [k] blocks and, of the others, those without a block id;
    those with a block id go in front of the blocks of the next page, which
    is created when page [p] is the last one. *)
Lemma move_to_next p k (pages : Pages) page :
  pages !! p = Some page -> (k < length page)%nat ->
  Flow.moveBlocksToNextPage p (S p) k (Flow.getOrCreateNextPage p pages)
  = take p pages
    ++ [take k page ++ Spec.withoutId (drop k page);
        Spec.withId (drop k page) ++ default [] (pages !! S p)]
    ++ drop (S (S p)) pages.
Proof.
  intros Hp Hk.
  pose proof (take_drop_middle _ _ _ Hp) as Hsplit.
  assert (length (take p pages) = p) as Hlen.
  { apply length_take_le. apply lookup_lt_Some in Hp. lia. }
  unfold Flow.getOrCreateNextPage, Flow.moveBlocksToNextPage.
  destruct (pages !! S p) as [next|] eqn:Hnext.
  - rewrite Hp, Hnext.
    destruct (length page <=? k)%nat eqn:E; [apply Nat.leb_le in E; lia|].
    rewrite insertAtTop_rev.
    rewrite list_lookup_insert_ne by lia. rewrite Hnext. simpl.
    assert (drop (S p) pages = next :: drop (S (S p)) pages) as Hd.
    { rewrite <- (take_drop_middle _ _ _ Hnext) at 1.
      rewrite drop_app_length'; [done|]. symmetry.
      apply length_take_le. apply lookup_lt_Some in Hnext. lia. }
    rewrite <- Hsplit at 1. rewrite Hd.
    rewrite insert_app_r_alt by lia. rewrite Hlen, Nat.sub_diag. simpl.
    rewrite insert_app_r_alt by lia. rewrite Hlen.
    replace (S p - p)%nat with 1%nat by lia. done.
  - assert (drop (S p) pages = []) as Hd.
    { apply drop_ge. apply lookup_ge_None in Hnext. lia. }
    assert (drop (S (S p)) pages = []) as Hd2.
    { apply drop_ge. apply lookup_ge_None in Hnext. lia. }
    assert (take (S p) pages = pages) as Ht.
    { apply take_ge. apply lookup_ge_None in Hnext. lia. }
    unfold Flow.splice_insert. rewrite Ht, Hd, Hd2.
    assert (pages = take p pages ++ [page]) as Hpages.
    { rewrite <- Hsplit at 1. by rewrite Hd. }
    rewrite lookup_app_l by (apply lookup_lt_Some in Hp; done). rewrite Hp.
    rewrite lookup_app_r by (apply lookup_ge_None in Hnext; lia).
    replace (S p - length pages)%nat with 0%nat
      by (apply lookup_ge_None in Hnext; apply lookup_lt_Some in Hp; lia).
    simpl.
    destruct (length page <=? k)%nat eqn:E; [apply Nat.leb_le in E; lia|].
    rewrite insertAtTop_rev.
    remember (take p pages) as pre eqn:Hpre. clear Hpre.
    rewrite Hpages. rewrite <- app_assoc. simpl.
    rewrite insert_app_r_alt by lia. rewrite Hlen, Nat.sub_diag. simpl.
    rewrite lookup_app_r by lia. rewrite Hlen.
    replace (S p - p)%nat with 1%nat by lia. simpl.
    rewrite insert_app_r_alt by lia. rewrite Hlen.
    replace (S p - p)%nat with 1%nat by lia. simpl.
    done.
Qed.

(** When the blocks from the split index on all carry a block id, they all
    move. *)
Lemma move_to_next_identified p k (pages : Pages) page :
  pages !! p = Some page -> (k < length page)%nat ->
  Spec.identified (drop k page) ->
  Flow.moveBlocksToNextPage p (S p) k (Flow.getOrCreateNextPage p pages)
  = take p pages ++ [take k page; drop k page ++ default [] (pages !! S p)]
    ++ drop (S (S p)) pages.
Proof.
  intros Hp Hk Hid. rewrite (move_to_next p k pages page Hp Hk).
  destruct (withId_identified _ Hid) as [-> ->]. by rewrite app_nil_r.
Qed.

(** The split loop finds the split point of the specification. *)
Lemma findSplitIndex_splitPoint (pre els : Page) k :
  (forall i, (i < length pre)%nat -> ~ Spec.exceedsAt blockHeight (pre ++ els) i) ->
  (forall j, (j < length pre)%nat -> ~ Spec.breakAt (pre ++ els) j) ->
  Flow.findSplitIndex blockHeight (Flow.contentHeight blockHeight pre)
    (length pre) (length (pre ++ els)) els = Some k ->
  Spec.splitPoint blockHeight (pre ++ els) k.
Proof.
  revert pre. induction els as [|b els IH]; intros pre Hex Hbr Hfind; [done|].
  assert ((pre ++ b :: els) !! length pre = Some b) as Hb.
  { by rewrite lookup_app_r, Nat.sub_diag by lia. }
  assert (take (S (length pre)) (pre ++ b :: els) = pre ++ [b]) as Htake.
  { rewrite take_app_ge by lia.
    replace (S (length pre) - length pre)%nat with 1%nat by lia. done. }
  assert (length (pre ++ [b]) = S (length pre)) as Hlen.
  { rewrite length_app. simpl. lia. }
  assert (pre ++ b :: els = (pre ++ [b]) ++ els) as Hassoc.
  { by rewrite <- app_assoc. }
  simpl in Hfind. destruct (isPageBreak b) eqn:E.
  - destruct (length pre <? length (pre ++ b :: els) - 1)%nat eqn:E1.
    + apply Nat.ltb_lt in E1. inversion Hfind; subst k. repeat split.
      * right. exists (length pre). split; [done|]. exists b. repeat split; [done..|lia].
      * intros i Hi Hx.
        destruct (decide (i = length pre)) as [->|Hne].
        -- destruct Hx as [b' (Hb' & Hnb & _)]. rewrite Hb in Hb'. congruence.
        -- apply (Hex i); [lia|done].
      * intros j Hj. apply Hbr. lia.
    + apply Nat.ltb_ge in E1. rewrite Hassoc. apply IH.
      * rewrite <- Hassoc, Hlen. intros i Hi Hx.
        destruct (decide (i = length pre)) as [->|Hne].
        -- destruct Hx as [b' (Hb' & Hnb & _)]. rewrite Hb in Hb'. congruence.
        -- apply (Hex i); [lia|done].
      * rewrite <- Hassoc, Hlen. intros j Hj Hx.
        destruct (decide (j = length pre)) as [->|Hne].
        -- destruct Hx as [b' (_ & _ & Hlt)]. lia.
        -- apply (Hbr j); [lia|done].
      * rewrite <- Hassoc, Hlen, contentHeight_app, contentHeight_cons, E.
        replace (Flow.contentHeight blockHeight pre + (0 + Flow.contentHeight blockHeight []))
          with (Flow.contentHeight blockHeight pre) by (unfold Flow.contentHeight; simpl; lia).
        done.
  - destruct (Flow.getPageContentMaxHeight <? Flow.contentHeight blockHeight pre + blockHeight b) eqn:E1.
    + apply Z.ltb_lt in E1. inversion Hfind; subst k. repeat split.
      * left. exists b. repeat split; [done..|].
        rewrite Htake, contentHeight_app, contentHeight_cons, E.
        change (Flow.contentHeight blockHeight []) with 0. lia.
      * done.
      * intros j Hj. apply Hbr. lia.
    + apply Z.ltb_ge in E1. rewrite Hassoc. apply IH.
      * rewrite <- Hassoc, Hlen. intros i Hi Hx.
        destruct (decide (i = length pre)) as [->|Hne].
        -- destruct Hx as [b' (Hb' & Hnb & Hgt)].
           rewrite Htake, contentHeight_app, contentHeight_cons, E in Hgt.
           change (Flow.contentHeight blockHeight []) with 0 in Hgt. lia.
        -- apply (Hex i); [lia|done].
      * rewrite <- Hassoc, Hlen. intros j Hj Hx.
        destruct (decide (j = length pre)) as [->|Hne].
        -- destruct Hx as [b' (Hb' & Hpb & _)]. rewrite Hb in Hb'. congruence.
        -- apply (Hbr j); [lia|done].
      * rewrite <- Hassoc, Hlen, contentHeight_app, contentHeight_cons, E.
        replace (Flow.contentHeight blockHeight pre + (blockHeight b + Flow.contentHeight blockHeight []))
          with (Flow.contentHeight blockHeight pre + blockHeight b) by (unfold Flow.contentHeight; simpl; lia).
        done.
Qed.

(** A page over the budget with more than one real block has a split
    index, and it is the split point of the specification. *)
Lemma pageSplit_over_budget (page : Page) :
  Flow.getPageContentMaxHeight < Flow.contentHeight blockHeight page ->
  (1 < Flow.realBlocks page)%nat ->
  exists k, pageSplit' page = Some k /\ (k < length page)%nat
            /\ Spec.splitPoint blockHeight page k.
Proof.
  intros Hover Hreal. unfold Flow.pageSplit.
  pose proof (calculate_ge_content blockHeight page) as Hge.
  destruct (Flow.getPageContentMaxHeight <? Flow.calculatePageBlocksHeight blockHeight page)
    eqn:E; [|apply Z.ltb_ge in E; lia].
  fold (Flow.realBlocks page).
  destruct (1 <? Flow.realBlocks page)%nat eqn:E1; [|apply Nat.ltb_ge in E1; lia].
  destruct (Flow.findSplitIndex blockHeight 0 0 (length page) page) as [k|] eqn:E2.
  - pose proof (findSplitIndex_lt _ _ _ _ _ _ (Nat.add_0_l _) E2) as Hk.
    destruct (k <? length page)%nat eqn:E3; [|apply Nat.ltb_ge in E3; lia].
    exists k. repeat split; [lia|..];
      apply (findSplitIndex_splitPoint [] page k); simpl; try done; intros; lia.
  - apply findSplitIndex_None in E2; [|unfold Flow.getPageContentMaxHeight; lia].
    apply Z.ltb_lt in E. unfold Flow.calculatePageBlocksHeight in E. lia.
Qed.

End ForwardFacts.

(** ** What pruning leaves *)

Section PruneShape.

Abbreviation real := (fun page : Page => Flow.hasNoRealBlock page = false).

Lemma forallb_false_Exists {A} (f : A -> bool) (l : list A) :
  forallb f l = false -> Exists (fun x => f x = false) l.
Proof.
  induction l as [|x l IH]; simpl; [done|].
  destruct (f x) eqn:E; simpl; intros H.
  - right. by apply IH.
  - by left.
Qed.

Lemma forallb_true_Forall {A} (f : A -> bool) (l : list A) :
  forallb f l = true -> Forall (fun x => f x = true) l.
Proof.
  induction l as [|x l IH]; simpl; [constructor|].
  intros [Hx Hl]%andb_true_iff. constructor; [done|by apply IH].
Qed.

Lemma filter_all {A} (P : A -> Prop) `{!forall x, Decision (P x)} (l : list A) :
  Forall P l -> filter P l = l.
Proof.
  induction 1 as [|x l Hx _ IH]; [done|].
  rewrite filter_cons. case_decide; [by rewrite IH|done].
Qed.

(** While some page holds a real block, the loop of [removeEmptyPages]
    removes exactly the visited pages that hold none. *)
Lemma removeFrom_some_real n (pages : Pages) :
  Exists real pages -> (n <= length pages)%nat ->
  Flow.removeFrom n pages = filter real (take n pages) ++ drop n pages.
Proof.
  revert pages. induction n as [|n IH]; intros pages Hex Hn; simpl.
  - done.
  - destruct (lookup_lt_is_Some_2 pages n ltac:(lia)) as [page Hpage].
    rewrite Hpage.
    pose proof (take_drop_middle _ _ _ Hpage) as Hsplit.
    rewrite (take_S_r _ _ _ Hpage), filter_app.
    destruct (Flow.hasNoRealBlock page) eqn:E; simpl.
    + assert (Exists real (Flow.splice_remove n pages)) as Hex'.
      { unfold Flow.splice_remove. rewrite <- Hsplit in Hex.
        apply Exists_app in Hex as [H|H]; apply Exists_app; [by left|].
        apply Exists_cons in H as [H|H]; [congruence|by right]. }
      assert (length (Flow.splice_remove n pages) = (length pages - 1)%nat) as Hlen.
      { unfold Flow.splice_remove. rewrite length_app, length_take, length_drop. lia. }
      assert (0 < length (Flow.splice_remove n pages))%nat as Hpos.
      { destruct (Flow.splice_remove n pages); [by apply Exists_nil in Hex'|simpl; lia]. }
      destruct (1 <? length pages)%nat eqn:E1; [|apply Nat.ltb_ge in E1; lia].
      rewrite IH by (done || lia).
      unfold Flow.splice_remove.
      rewrite take_app_length' by (rewrite length_take; lia).
      rewrite drop_app_length' by (rewrite length_take; lia).
      rewrite filter_cons. case_decide; [congruence|]. by rewrite filter_nil, app_nil_r.
    + rewrite IH by (done || lia).
      rewrite (drop_S _ _ _ Hpage).
      rewrite filter_cons. case_decide; [|congruence].
      by rewrite filter_nil, <- app_assoc.
Qed.

(** When no page holds a real block, only the first page is left. *)
Lemma removeFrom_no_real n (pages : Pages) :
  Forall (fun page => Flow.hasNoRealBlock page = true) pages ->
  length pages = n -> (0 < n)%nat ->
  Flow.removeFrom n pages = take 1 pages.
Proof.
  revert pages. induction n as [|n IH]; intros pages Hall Hlen Hpos; [lia|].
  simpl. destruct (lookup_lt_is_Some_2 pages n ltac:(lia)) as [page Hpage].
  rewrite Hpage. rewrite Forall_lookup in Hall. rewrite (Hall _ _ Hpage). simpl.
  destruct n as [|n].
  - destruct (1 <? length pages)%nat eqn:E1; [apply Nat.ltb_lt in E1; lia|].
    simpl. symmetry. apply take_ge. lia.
  - destruct (1 <? length pages)%nat eqn:E1; [|apply Nat.ltb_ge in E1; lia].
    unfold Flow.splice_remove. rewrite (drop_ge pages (S (S n))) by lia.
    rewrite app_nil_r. rewrite IH.
    + rewrite take_take. f_equal.
    + apply Forall_take. by apply Forall_lookup.
    + rewrite length_take. lia.
    + lia.
Qed.

Lemma removeEmptyPages_pruned (pages : Pages) :
  Flow.removeEmptyPages pages = Spec.pruned pages.
Proof.
  unfold Flow.removeEmptyPages, Spec.pruned.
  destruct (length pages =? 0)%nat eqn:E0.
  - apply Nat.eqb_eq in E0. destruct pages; [done|simpl in E0; lia].
  - apply Nat.eqb_neq in E0.
    destruct (forallb Flow.hasNoRealBlock pages) eqn:E.
    + apply removeFrom_no_real; [by apply forallb_true_Forall|done|lia].
    + rewrite removeFrom_some_real; [|by apply forallb_false_Exists|lia].
      by rewrite take_ge, drop_all, app_nil_r by lia.
Qed.

Lemma pruned_idempotent (pages : Pages) :
  Spec.pruned (Spec.pruned pages) = Spec.pruned pages.
Proof.
  unfold Spec.pruned at 2 3.
  destruct (forallb Flow.hasNoRealBlock pages) eqn:E.
  - unfold Spec.pruned.
    destruct pages as [|page pages]; [done|]. simpl in *.
    apply andb_true_iff in E as [Hp _]. by rewrite Hp.
  - apply forallb_false_Exists in E.
    assert (Forall real (filter real pages)) as Hall.
    { apply Forall_forall. intros x Hx. by apply list_elem_of_filter in Hx as [Hx _]. }
    assert (exists page rest, filter real pages = page :: rest) as (page & rest & Heq).
    { apply Exists_exists in E as (x & Hin & Hx).
      assert (x ∈ filter real pages) as Hf by (by apply list_elem_of_filter).
      destruct (filter real pages); [by apply elem_of_nil in Hf|eauto]. }
    unfold Spec.pruned. rewrite Heq in *. simpl.
    inversion Hall as [|? ? Hp Hr]; subst. rewrite Hp. simpl.
    by apply filter_all.
Qed.

End PruneShape.

(** ** Page breaks under reverse compaction *)

Section PagePairs.

(** Two neighbours of a list, and their update. *)
Lemma insert_pair {A} (l : list A) i a b x y :
  l !! i = Some a -> l !! S i = Some b ->
  l = take i l ++ a :: b :: drop (S (S i)) l
  /\ <[i := x]> (<[S i := y]> l) = take i l ++ x :: y :: drop (S (S i)) l.
Proof.
  intros Ha Hb.
  assert (length (take i l) = i) as Hlen.
  { apply length_take_le. apply lookup_lt_Some in Ha. lia. }
  assert (l = take i l ++ a :: b :: drop (S (S i)) l) as Hl.
  { rewrite <- (take_drop_middle _ _ _ Ha) at 1. f_equal. f_equal.
    by apply drop_S. }
  split; [done|].
  rewrite Hl at 1.
  rewrite insert_app_r_alt by lia. rewrite Hlen.
  replace (S i - i)%nat with 1%nat by lia. simpl.
  rewrite insert_app_r_alt by lia. rewrite Hlen, Nat.sub_diag. done.
Qed.

Variable blockHeight : BlockEl -> Z.


(** The blocks that an iteration takes from a page and the blocks that it
    leaves there are the blocks of the page. *)
Lemma pulled_Permutation n (next : Page) :
  Spec.withId (take n next) ++ Spec.withoutId (take n next) ++ drop n next ≡ₚ next.
Proof.
  rewrite app_assoc, withId_withoutId_Permutation. by rewrite take_drop.
Qed.

Lemma pulled_Permutation_app n (next : Page) (rest : list BlockEl) :
  Spec.withId (take n next) ++ Spec.withoutId (take n next) ++ drop n next ++ rest
  ≡ₚ next ++ rest.
Proof.
  rewrite !app_assoc. f_equiv. rewrite <- app_assoc. apply pulled_Permutation.
Qed.







End PagePairs.

(** ** Properties of blocks kept by forward overflow *)

Section ForwardInvariant.

Variable blockHeight : BlockEl -> Z.
Variable Q : BlockEl -> Prop.

Lemma getOrCreateNextPage_Forall i (pages : Pages) :
  Forall (Forall Q) pages -> Forall (Forall Q) (Flow.getOrCreateNextPage i pages).
Proof.
  intros H. unfold Flow.getOrCreateNextPage, Flow.splice_insert.
  destruct (pages !! S i); [done|].
  apply Forall_app. split; [by apply Forall_take|].
  constructor; [constructor|by apply Forall_drop].
Qed.

Lemma moveBlocksToNextPage_Forall i j k (pages : Pages) :
  Forall (Forall Q) pages -> Forall (Forall Q) (Flow.moveBlocksToNextPage i j k pages).
Proof.
  intros H. unfold Flow.moveBlocksToNextPage.
  destruct (pages !! i) as [fromPage|] eqn:Hi; [|done].
  destruct (pages !! j) as [toPage0|] eqn:Hj; [|done].
  destruct (length fromPage <=? k)%nat; [done|].
  rewrite insertAtTop_rev.
  assert (Forall Q fromPage) as Hfrom by (by eapply Forall_lookup_1).
  assert (Forall (Forall Q)
            (<[i:=take k fromPage ++ Spec.withoutId (drop k fromPage)]> pages)) as H1.
  { apply Forall_insert; [done|]. apply Forall_app.
    split; [by apply Forall_take|by apply Forall_withoutId, Forall_drop]. }
  destruct (<[i:=take k fromPage ++ Spec.withoutId (drop k fromPage)]> pages !! j)
    as [toPage|] eqn:Hj'; [|done].
  apply Forall_insert; [done|].
  apply Forall_app. split; [by apply Forall_withId, Forall_drop|by eapply Forall_lookup_1].
Qed.

Lemma forwardScan_Forall pageIndex (rest pages pages' : Pages) :
  Flow.forwardScan blockHeight pageIndex rest pages = Some pages' ->
  Forall (Forall Q) pages -> Forall (Forall Q) pages'.
Proof.
  revert pageIndex. induction rest as [|page rest IH]; intros pageIndex Hscan H;
    simpl in Hscan; [done|].
  destruct (Flow.pageSplit blockHeight page) as [k|].
  - inversion Hscan. by apply moveBlocksToNextPage_Forall, getOrCreateNextPage_Forall.
  - by eapply IH.
Qed.

Lemma forwardLoop_Forall fuel (pages pages' : Pages) :
  Flow.forwardLoop blockHeight fuel pages = Some pages' ->
  Forall (Forall Q) pages -> Forall (Forall Q) pages'.
Proof.
  revert pages. induction fuel as [|fuel IH]; intros pages Hloop H; simpl in Hloop; [done|].
  destruct (Flow.forwardPass blockHeight pages) as [pages1|] eqn:E.
  - eapply IH; [done|]. by eapply forwardScan_Forall.
  - by inversion Hloop; subst.
Qed.

End ForwardInvariant.


(** ** Text of a page around a page break *)

Section PageBreakFacts.

Import PageBreak.

(** A string of white space trims to the empty string. *)
Lemma trimStart_whitespace s :
  allWhiteSpace s = true -> trimStart s = EmptyString.
Proof.
  induction s as [|c s IH]; simpl; [done|].
  intros [Hc Hs]%andb_true_iff. rewrite Hc. by apply IH.
Qed.

Lemma trim_whitespace s :
  allWhiteSpace s = true -> trim s = EmptyString.
Proof. intros H. unfold trim. by rewrite (trimStart_whitespace s H). Qed.

Lemma string_app_assoc (s1 s2 s3 : string) :
  String.app (String.app s1 s2) s3 = String.app s1 (String.app s2 s3).
Proof.
  induction s1 as [|c s1 IH]; [done|].
  change (String c (String.app (String.app s1 s2) s3)
          = String c (String.app s1 (String.app s2 s3))).
  by rewrite IH.
Qed.

Lemma string_app_nil_r (s : string) : String.app s EmptyString = s.
Proof.
  induction s as [|c s IH]; [done|].
  change (String c (String.app s EmptyString) = String c s). by rewrite IH.
Qed.

Lemma pageText_app (p q : Page) :
  pageText (p ++ q) = String.app (pageText p) (pageText q).
Proof.
  induction p as [|b p IH]; simpl; [done|].
  unfold pageText in *. simpl. rewrite IH.
  by rewrite string_app_assoc.
Qed.

End PageBreakFacts.


(** ** The two clones of a block split at the cursor *)

Section CloneFacts.

Import Format PageBreak.

Lemma joinText_app {A} (l1 l2 : list (string * A)) :
  Spec.joinText (l1 ++ l2) = String.app (Spec.joinText l1) (Spec.joinText l2).
Proof.
  induction l1 as [|x l1 IH]; [done|].
  change (String.app x.1 (Spec.joinText (l1 ++ l2))
          = String.app (String.app x.1 (Spec.joinText l1)) (Spec.joinText l2)).
  by rewrite IH, string_app_assoc.
Qed.

Lemma joinText_fst {A B} (l1 : list (string * A)) (l2 : list (string * B)) :
  map fst l1 = map fst l2 -> Spec.joinText l1 = Spec.joinText l2.
Proof.
  revert l2. induction l1 as [|x l1 IH]; intros [|y l2] H; try done.
  injection H as Hx Hl.
  change (String.app x.1 (Spec.joinText l1) = String.app y.1 (Spec.joinText l2)).
  by rewrite Hx, (IH l2 Hl).
Qed.

(** The text of a node does not depend on the spans above it. *)
Lemma textNodesOf_fst anc n :
  map fst (textNodesOf anc n) = map fst (textNodesOf [] n).
Proof.
  revert anc. induction n as [data|f children IH] using Node_children_ind; intros anc; [done|].
  simpl. induction IH as [|c rest Hc _ IHrest]; [done|].
  simpl. rewrite !map_app, IHrest. f_equal.
  by rewrite (Hc (f :: anc)), (Hc [f]).
Qed.

Lemma textContent_app (l1 l2 : list Node) :
  textContent (l1 ++ l2) = String.app (textContent l1) (textContent l2).
Proof. unfold textContent, walkText. rewrite flat_map_app. apply joinText_app. Qed.

Lemma textContent_text data : textContent [TextNode data] = data.
Proof. unfold textContent. simpl. apply string_app_nil_r. Qed.

Lemma textContent_span f children :
  textContent [SpanNode f children] = textContent children.
Proof.
  unfold textContent, walkText. simpl. rewrite app_nil_r.
  apply (joinText_fst (flat_map (textNodesOf [f]) children)
           (flat_map (textNodesOf []) children)).
  induction children as [|c rest IH]; [done|].
  simpl. rewrite !map_app, IH. f_equal. apply textNodesOf_fst.
Qed.

Lemma substring_all s : String.substring 0 (String.length s) s = s.
Proof. induction s as [|c s IH]; [done|]. simpl. by rewrite IH. Qed.

Lemma substring_split off s :
  String.app (String.substring 0 off s)
    (String.substring off (String.length s - off) s) = s.
Proof.
  revert off. induction s as [|c s IH]; intros [|off]; try done.
  - simpl. by rewrite substring_all.
  - simpl. change (String c (String.app (String.substring 0 off s)
                               (String.substring off (String.length s - off) s))
                   = String c s).
    by rewrite IH.
Qed.

(** Nodes behind the boundary: nothing before, everything after. *)
Lemma cloneBeforeNode_behind k off n idx :
  (k < idx)%nat -> cloneBeforeNode k off n idx = [].
Proof.
  intros H. destruct n as [data|f children]; simpl.
  - destruct (idx <? k)%nat eqn:E; [apply Nat.ltb_lt in E; lia|].
    destruct (idx =? k)%nat eqn:E1; [apply Nat.eqb_eq in E1; lia|done].
  - destruct (_ <=? k)%nat eqn:E; [apply Nat.leb_le in E; lia|].
    destruct (idx <=? k)%nat eqn:E1; [apply Nat.leb_le in E1; lia|done].
Qed.

Lemma cloneBefore_behind k off cs idx :
  (k < idx)%nat -> cloneBefore k off cs idx = [].
Proof.
  revert idx. induction cs as [|c rest IH]; intros idx H; [done|].
  simpl. rewrite cloneBeforeNode_behind by done. rewrite IH by lia. done.
Qed.

(** Nodes in front of the boundary: nothing after. *)
Lemma cloneAfterNode_front k off n idx :
  (idx + countTexts n <= k)%nat -> cloneAfterNode k off n idx = [].
Proof.
  intros H. destruct n as [data|f children].
  - unfold countTexts in H. simpl in *.
    destruct (idx <? k)%nat eqn:E; [done|apply Nat.ltb_ge in E; lia].
  - cbn [cloneAfterNode].
    destruct (_ <=? k)%nat eqn:E; [done|apply Nat.leb_gt in E; lia].
Qed.

Lemma cloneBefore_go k off cs idx :
  (fix go (cs : list Node) (idx : nat) : list Node :=
     match cs with
     | [] => []
     | c :: rest => cloneBeforeNode k off c idx ++ go rest (idx + countTexts c)%nat
     end) cs idx = cloneBefore k off cs idx.
Proof. revert idx. induction cs as [|c rest IH]; intros idx; [done|]. simpl. by rewrite IH. Qed.

Lemma cloneAfter_go k off cs idx :
  (fix go (cs : list Node) (idx : nat) : list Node :=
     match cs with
     | [] => []
     | c :: rest => cloneAfterNode k off c idx ++ go rest (idx + countTexts c)%nat
     end) cs idx = cloneAfter k off cs idx.
Proof. revert idx. induction cs as [|c rest IH]; intros idx; [done|]. simpl. by rewrite IH. Qed.

Lemma clone_list_text k off cs idx :
  Forall (Spec.splitsText k off) cs ->
  String.app (textContent (cloneBefore k off cs idx)) (textContent (cloneAfter k off cs idx))
  = textContent cs.
Proof.
  intros H. revert idx. induction H as [|c rest Hc _ IH]; intros idx; [done|].
  cbn [cloneBefore cloneAfter].
  change (c :: rest) with ([c] ++ rest).
  rewrite !textContent_app, <- (Hc idx), <- (IH (idx + countTexts c)%nat).
  destruct (decide (idx + countTexts c <= k)%nat) as [Hle|Hgt].
  - rewrite cloneAfterNode_front by done.
    change (textContent []) with EmptyString.
    rewrite string_app_nil_r. change (String.app EmptyString ?s) with s.
    by rewrite !string_app_assoc.
  - rewrite cloneBefore_behind by lia.
    change (textContent []) with EmptyString.
    rewrite string_app_nil_r. change (String.app EmptyString ?s) with s.
    by rewrite !string_app_assoc.
Qed.

Lemma clone_node_text k off n : Spec.splitsText k off n.
Proof.
  induction n as [data|f children IH] using Node_children_ind; intros idx.
  - simpl. destruct (idx <? k)%nat; [by rewrite string_app_nil_r|].
    destruct (idx =? k)%nat.
    + rewrite !textContent_text. apply substring_split.
    + done.
  - cbn [cloneBeforeNode cloneAfterNode].
    destruct (_ <=? k)%nat; [by rewrite string_app_nil_r|].
    destruct (idx <=? k)%nat; [|done].
    rewrite cloneBefore_go, cloneAfter_go, !textContent_span.
    by apply clone_list_text.
Qed.

(** The two clones of [handlePageBreak] share out the text of the block. *)
Lemma clone_text_split k off (block : list Node) :
  String.app (textContent (cloneBefore k off block 0)) (textContent (cloneAfter k off block 0))
  = textContent block.
Proof.
  apply clone_list_text. apply Forall_forall. intros n _. apply clone_node_text.
Qed.

End CloneFacts.

(** ** Termination of forward overflow *)

Section Termination.

Variable blockHeight : BlockEl -> Z.

(** A round of forward overflow that moves something moves the blocks of
    some page [p] from its split index on. *)
Lemma forwardScan_Some_inv (pre rest pages' : Pages) :
  Flow.forwardScan blockHeight (length pre) rest (pre ++ rest) = Some pages' ->
  exists p page k,
    (pre ++ rest) !! p = Some page
    /\ Flow.pageSplit blockHeight page = Some k
    /\ pages' = Flow.moveBlocksToNextPage p (S p) k
                  (Flow.getOrCreateNextPage p (pre ++ rest)).
Proof.
  revert pre. induction rest as [|page rest IH]; intros pre H; simpl in H; [done|].
  destruct (Flow.pageSplit blockHeight page) as [k|] eqn:E.
  - exists (length pre), page, k. split; [|split; [done|by inversion H]].
    by rewrite lookup_app_r, Nat.sub_diag by lia.
  - specialize (IH (pre ++ [page])).
    rewrite <- app_assoc, length_app in IH. simpl in IH.
    rewrite Nat.add_1_r in IH. by apply IH.
Qed.

Lemma pageSplit_lt (page : Page) k :
  Flow.pageSplit blockHeight page = Some k -> (k < length page)%nat.
Proof.
  unfold Flow.pageSplit. intros H.
  destruct (_ <? _); [|done]. destruct (_ <? _)%nat; [|done].
  destruct (Flow.findSplitIndex _ _ _ _ _) as [k'|]; [|done].
  destruct (k' <? length page)%nat eqn:E; [|done].
  apply Nat.ltb_lt in E. by inversion H; subst.
Qed.

Lemma forwardPass_Some_inv (pages pages' : Pages) :
  Flow.forwardPass blockHeight pages = Some pages' ->
  exists p page k,
    pages !! p = Some page
    /\ Flow.pageSplit blockHeight page = Some k
    /\ (k < length page)%nat
    /\ pages' = take p pages
                ++ [take k page ++ Spec.withoutId (drop k page);
                    Spec.withId (drop k page) ++ default [] (pages !! S p)]
                ++ drop (S (S p)) pages.
Proof.
  intros H. destruct (forwardScan_Some_inv [] pages pages' H) as (p & page & k & Hp & Hk & ->).
  simpl in Hp. exists p, page, k.
  pose proof (pageSplit_lt page k Hk) as Hlt.
  repeat split; [done..|]. simpl. by apply move_to_next.
Qed.

(** When every block carries a block id, the blocks from the split index
    on all move. *)
Lemma forwardPass_Some_identified (pages pages' : Pages) :
  Forall Spec.identified pages ->
  Flow.forwardPass blockHeight pages = Some pages' ->
  exists p page k,
    pages !! p = Some page
    /\ Flow.pageSplit blockHeight page = Some k
    /\ (k < length page)%nat
    /\ pages' = take p pages
                ++ [take k page; drop k page ++ default [] (pages !! S p)]
                ++ drop (S (S p)) pages.
Proof.
  intros Hid H.
  destruct (forwardPass_Some_inv pages pages' H) as (p & page & k & Hp & Hk & Hlt & ->).
  exists p, page, k. repeat split; [done..|].
  assert (Spec.identified (drop k page)) as Hd.
  { apply Forall_drop. by eapply Forall_lookup_1. }
  destruct (withId_identified _ Hd) as [-> ->]. by rewrite app_nil_r.
Qed.

(** When the first block of a page fits on a page, the split index is not 0. *)
Lemma pageSplit_pos (page : Page) k :
  Spec.fitsAlone blockHeight page ->
  Flow.pageSplit blockHeight page = Some k -> (0 < k)%nat.
Proof.
  unfold Flow.pageSplit. intros Hfit H.
  destruct (_ <? _); [|done]. destruct (_ <? _)%nat; [|done].
  destruct (Flow.findSplitIndex _ _ _ _ _) as [k'|] eqn:E; [|done].
  destruct (k' <? length page)%nat; [|done]. inversion H; subst k'.
  destruct page as [|b rest]; [done|]. cbn [Flow.findSplitIndex] in E.
  apply Forall_inv in Hfit.
  destruct (isPageBreak b) eqn:Eb.
  - destruct (0 <? length (b :: rest) - 1)%nat; [inversion E; lia|].
    apply findSplitIndex_lt in E; [lia|simpl; lia].
  - specialize (Hfit eq_refl).
    destruct (Flow.getPageContentMaxHeight <? 0 + blockHeight b) eqn:E1.
    + apply Z.ltb_lt in E1. lia.
    + apply findSplitIndex_lt in E; [lia|simpl; lia].
Qed.

Lemma weight_app i (l1 l2 : Pages) :
  Spec.weight i (l1 ++ l2) = (Spec.weight i l1 + Spec.weight (i + length l1) l2)%nat.
Proof.
  revert i. induction l1 as [|pg l1 IH]; intros i; simpl.
  - by rewrite Nat.add_0_r.
  - rewrite IH. replace (S i + length l1)%nat with (i + S (length l1))%nat by lia. lia.
Qed.

Lemma emptyPages_app (l1 l2 : Pages) :
  Spec.emptyPages (l1 ++ l2) = (Spec.emptyPages l1 + Spec.emptyPages l2)%nat.
Proof. induction l1 as [|pg l1 IH]; simpl; [done|]. rewrite IH. lia. Qed.

Lemma length_le_empty_plus_blocks (pages : Pages) :
  (length pages <= Spec.emptyPages pages + length (concat pages))%nat.
Proof.
  induction pages as [|pg pages IH]; simpl; [lia|].
  rewrite length_app. destruct pg; simpl; lia.
Qed.

Lemma weight_bound i (pages : Pages) :
  (Spec.weight i pages <= (i + length pages) * length (concat pages))%nat.
Proof.
  revert i. induction pages as [|pg pages IH]; intros i; simpl; [lia|].
  specialize (IH (S i)). rewrite length_app. nia.
Qed.

(** The effect of a move on the measure, on the blocks in document order and
    on the empty pages. *)
Lemma move_effect (pages : Pages) p page k :
  pages !! p = Some page -> (0 < k < length page)%nat ->
  let pages' := take p pages
                ++ [take k page; drop k page ++ default [] (pages !! S p)]
                ++ drop (S (S p)) pages in
  concat pages' = concat pages
  /\ (Spec.emptyPages pages' <= Spec.emptyPages pages)%nat
  /\ (Spec.weight 0 pages < Spec.weight 0 pages')%nat.
Proof.
  intros Hp Hk pages'.
  assert (length (take p pages) = p) as Hlen.
  { apply length_take_le. apply lookup_lt_Some in Hp. lia. }
  assert (pages = take p pages ++ page :: drop (S p) pages) as Hpages.
  { by rewrite take_drop_middle. }
  assert (drop (S p) pages = match pages !! S p with
                             | Some next => next :: drop (S (S p)) pages
                             | None => []
                             end) as Hrest.
  { destruct (pages !! S p) as [next|] eqn:Hn.
    - by apply drop_S.
    - apply drop_ge. by apply lookup_ge_None. }
  assert (drop (S (S p)) pages = [] \/ is_Some (pages !! S p)) as Hcase.
  { destruct (pages !! S p) eqn:Hn; [right; eauto|left].
    apply drop_ge. apply lookup_ge_None in Hn. lia. }
  assert (length (take k page) = k) as Hlk by (apply length_take_le; lia).
  assert (length (drop k page) = (length page - k)%nat) as Hld by apply length_drop.
  unfold pages'. clear pages'.
  remember (take p pages) as pre eqn:Hpre. clear Hpre.
  remember (drop (S (S p)) pages) as post eqn:Hpost. clear Hpost.
  rewrite Hrest in Hpages. clear Hrest.
  destruct (pages !! S p) as [next|]; simpl; rewrite Hpages; clear Hpages.
  - split; [|split].
    + rewrite !concat_app. simpl. rewrite <- !app_assoc.
      by rewrite (app_assoc (take k page)), take_drop.
    + rewrite !emptyPages_app. simpl. rewrite length_app, Hlk, Hld.
      destruct (length page =? 0)%nat eqn:E0; [apply Nat.eqb_eq in E0; lia|].
      destruct (k =? 0)%nat eqn:E1; [apply Nat.eqb_eq in E1; lia|].
      destruct (length page - k + length next =? 0)%nat eqn:E2;
        [apply Nat.eqb_eq in E2; lia|]. lia.
    + rewrite !weight_app. simpl. rewrite Hlen, length_app, Hlk, Hld. nia.
  - destruct Hcase as [->|[? ?]]; [|done].
    split; [|split].
    + rewrite !concat_app. simpl. rewrite !app_nil_r. by rewrite take_drop.
    + rewrite !emptyPages_app. simpl. rewrite app_nil_r, Hlk, Hld.
      destruct (length page =? 0)%nat eqn:E0; [apply Nat.eqb_eq in E0; lia|].
      destruct (k =? 0)%nat eqn:E1; [apply Nat.eqb_eq in E1; lia|].
      destruct (length page - k =? 0)%nat eqn:E2; [apply Nat.eqb_eq in E2; lia|]. lia.
    + rewrite !weight_app. simpl. rewrite Hlen, app_nil_r, Hlk, Hld. nia.
Qed.

(** Forward overflow stops when every real block fits on a page and every
    block carries a block id. *)
Lemma forwardLoop_terminates (pages : Pages) :
  Forall (Spec.fitsAlone blockHeight) pages ->
  Forall Spec.identified pages ->
  exists fuel pages', Flow.forwardLoop blockHeight fuel pages = Some pages'.
Proof.
  intros Hfit Hid.
  set (n := length (concat pages)).
  set (bound := ((Spec.emptyPages pages + n) * n)%nat).
  assert (forall fuel (ps : Pages),
             Forall (Spec.fitsAlone blockHeight) ps ->
             Forall Spec.identified ps ->
             length (concat ps) = n ->
             (Spec.emptyPages ps <= Spec.emptyPages pages)%nat ->
             (bound < fuel + Spec.weight 0 ps)%nat ->
             exists ps', Flow.forwardLoop blockHeight fuel ps = Some ps') as Hind.
  { induction fuel as [|fuel IH]; intros ps Hf Hi Hn He Hw.
    - pose proof (weight_bound 0 ps) as Hb.
      pose proof (length_le_empty_plus_blocks ps) as Hl.
      rewrite Hn in *. simpl in *. unfold bound in Hw. nia.
    - simpl. destruct (Flow.forwardPass blockHeight ps) as [ps1|] eqn:E; [|eauto].
      pose proof (forwardScan_Forall blockHeight _ _ _ _ _ E Hf) as Hf1.
      pose proof (forwardScan_Forall blockHeight _ _ _ _ _ E Hi) as Hi1.
      destruct (forwardPass_Some_identified ps ps1 Hi E)
        as (p & page & k & Hp & Hk & Hlt & ->).
      assert (0 < k)%nat as Hpos.
      { eapply pageSplit_pos; [|done]. exact (Forall_lookup_1 _ _ _ _ Hf Hp). }
      destruct (move_effect ps p page k Hp ltac:(lia)) as (Hc & He1 & Hw1).
      apply IH; [done|done| |lia|lia]. by rewrite Hc. }
  exists (S bound). apply Hind; [done|done|reflexivity|lia|lia].
Qed.

Lemma handleForwardOverflow_terminates (pages : Pages) :
  Forall (Spec.fitsAlone blockHeight) pages ->
  Forall Spec.identified pages ->
  exists fuel pages', Flow.handleForwardOverflow blockHeight fuel pages = Some pages'.
Proof.
  intros Hfit Hid. destruct (forwardLoop_terminates pages Hfit Hid) as (fuel & pages' & H).
  exists fuel. unfold Flow.handleForwardOverflow.
  destruct (length pages =? 0)%nat; eauto.
Qed.

End Termination.

(** ** The state after a pass *)

Section PassInvariant.

Variable blockHeight : BlockEl -> Z.
Variable Q : BlockEl -> Prop.

Lemma handleReverseCompaction_Forall start (pages : Pages) :
  Forall (Forall Q) pages ->
  Forall (Forall Q) (Flow.handleReverseCompaction blockHeight start pages).
Proof.
  intros H. unfold Flow.handleReverseCompaction.
  destruct (length pages =? 0)%nat; [done|].
  generalize (length pages - 1 - start)%nat as count. intros count.
  revert start pages H. induction count as [|count IH]; intros start pages H; simpl; [done|].
  apply IH. by apply compactPair_Forall.
Qed.

End PassInvariant.

Section Budget.

Variable blockHeight : BlockEl -> Z.

(** A page with at most one real block, which fits on a page, is within the
    budget. *)
Lemma single_block_within_budget (page : Page) :
  Spec.fitsAlone blockHeight page -> (Flow.realBlocks page <= 1)%nat ->
  Spec.withinBudget blockHeight page.
Proof.
  unfold Spec.withinBudget.
  induction 1 as [|b page Hb _ IH]; intros Hreal.
  - unfold Flow.getPageContentMaxHeight. done.
  - rewrite realBlocks_cons in Hreal. rewrite contentHeight_cons.
    destruct (isPageBreak b).
    + simpl in *. specialize (IH Hreal). lia.
    + specialize (Hb eq_refl).
      rewrite (contentHeight_no_real blockHeight page) by lia. lia.
Qed.

(** The state after a completed pass. *)
Lemma handlePageOverflow_settled fuel currentPage (pages pages' : Pages) :
  Forall (Spec.nonNegative blockHeight) pages ->
  Flow.handlePageOverflow blockHeight fuel currentPage pages = Some pages' ->
  Forall (Spec.settled blockHeight) pages'.
Proof.
  intros Hnn Hpass. unfold Flow.handlePageOverflow in Hpass.
  destruct (length pages =? 0)%nat eqn:E0.
  - inversion Hpass; subst pages'. apply Nat.eqb_eq in E0.
    destruct pages; [constructor|done].
  - unfold Flow.handleForwardOverflow in Hpass. rewrite E0 in Hpass.
    destruct (Flow.forwardLoop blockHeight fuel pages) as [pages1|] eqn:E; [|done].
    inversion Hpass; subst pages'.
    apply removeEmptyPages_Forall, handleReverseCompaction_settled.
    + by eapply (forwardLoop_Forall blockHeight).
    + eapply forwardPass_None_settled, forwardLoop_stable. done.
Qed.

Lemma handlePageOverflow_Forall (Q : BlockEl -> Prop) fuel currentPage (pages pages' : Pages) :
  Forall (Forall Q) pages ->
  Flow.handlePageOverflow blockHeight fuel currentPage pages = Some pages' ->
  Forall (Forall Q) pages'.
Proof.
  intros HQ Hpass. unfold Flow.handlePageOverflow in Hpass.
  destruct (length pages =? 0)%nat eqn:E0; [by inversion Hpass; subst|].
  unfold Flow.handleForwardOverflow in Hpass. rewrite E0 in Hpass.
  destruct (Flow.forwardLoop blockHeight fuel pages) as [pages1|] eqn:E; [|done].
  inversion Hpass; subst pages'.
  apply removeEmptyPages_Forall, handleReverseCompaction_Forall.
  by eapply (forwardLoop_Forall blockHeight).
Qed.

End Budget.


(** ** The properties of the specification, one by one *)

(** C1, as stated, fails: a page that holds one block taller than the budget
    is left over the budget by a completed flow pass. *)
Lemma flow_pass_leaves_tall_block_over_budget :
  exists pages',
    Flow.handlePageOverflow Examples.heights 1 None Examples.tallAlone = Some pages'
    /\ ~ Forall (Spec.withinBudget Examples.heights) pages'.
Proof.
  exists Examples.tallAlone. split; [reflexivity|].
  intros H. apply Forall_inv in H. vm_compute in H. by apply H.
Qed.

(** A page over the budget whose second block carries no block id: the
    split index is 1, [moveBlocksToNextPage] skips the block, and the loop
    of [handleForwardOverflow], which sets [hasChanges] all the same, never
    stops. *)
Lemma forward_overflow_spins_without_block_id fuel :
  let heights := Examples.heightTable [("a", 900); (EmptyString, 100)] in
  let page := [Examples.blk "a"; Examples.blk EmptyString] in
  Flow.pageSplit heights page = Some 1%nat
  /\ Flow.forwardPass heights [page; []] = Some [page; []]
  /\ Flow.handleForwardOverflow heights fuel [page] = None.
Proof.
  cbv zeta. split; [reflexivity|]. split; [reflexivity|].
  unfold Flow.handleForwardOverflow. cbn [length Nat.eqb].
  destruct fuel as [|fuel]; [done|]. cbn [Flow.forwardLoop].
  change (Flow.forwardPass (Examples.heightTable [("a", 900); (EmptyString, 100)])
            [[Examples.blk "a"; Examples.blk EmptyString]])
    with (Some [[Examples.blk "a"; Examples.blk EmptyString]; []]).
  induction fuel as [|fuel IH]; [done|]. cbn [Flow.forwardLoop].
  change (Flow.forwardPass (Examples.heightTable [("a", 900); (EmptyString, 100)])
            [[Examples.blk "a"; Examples.blk EmptyString]; []])
    with (Some [[Examples.blk "a"; Examples.blk EmptyString]; []]).
  exact IH.
Qed.

(** C1, amended: after a completed flow pass over blocks whose heights are
    not negative, every page that holds more than one real block is within
    the budget of 931.  When in addition every real block is at most 931
    high and every block carries a block id, the pass completes and leaves
    every page within the budget. *)
Theorem flow_pass_budget (blockHeight : BlockEl -> Z) currentPage (pages : Pages) :
  Forall (Spec.nonNegative blockHeight) pages ->
  (forall fuel pages',
      Flow.handlePageOverflow blockHeight fuel currentPage pages = Some pages' ->
      forall page, page ∈ pages' ->
        (1 < Flow.realBlocks page)%nat ->
        Flow.contentHeight blockHeight page <= 931)
  /\ (Forall (Spec.fitsAlone blockHeight) pages ->
      Forall (Forall (fun el => Flow.hasBlockId el = true)) pages ->
      exists fuel pages',
        Flow.handlePageOverflow blockHeight fuel currentPage pages = Some pages'
        /\ forall page, page ∈ pages' -> Flow.contentHeight blockHeight page <= 931).
Proof.
  intros Hnn. split.
  - intros fuel pages' Hpass page Hin.
    pose proof (handlePageOverflow_settled blockHeight fuel currentPage pages pages' Hnn Hpass)
      as Hst.
    rewrite Forall_forall in Hst. exact (Hst page Hin).
  - intros Hfit Hid.
    destruct (handleForwardOverflow_terminates blockHeight pages Hfit Hid)
      as (fuel & pages1 & Hfw).
    exists fuel.
    assert (exists pages', Flow.handlePageOverflow blockHeight fuel currentPage pages
                           = Some pages') as [pages' Hpass].
    { unfold Flow.handlePageOverflow. destruct (length pages =? 0)%nat; [eauto|].
      rewrite Hfw. eauto. }
    exists pages'. split; [done|]. intros page Hin.
    pose proof (handlePageOverflow_settled blockHeight fuel currentPage pages pages' Hnn Hpass)
      as Hst.
    pose proof (handlePageOverflow_Forall blockHeight _ fuel currentPage pages pages' Hfit Hpass)
      as Hfit'.
    rewrite Forall_forall in Hst. rewrite Forall_forall in Hfit'.
    destruct (decide (1 < Flow.realBlocks page)%nat) as [Hgt|Hle].
    + exact (Hst page Hin Hgt).
    + apply (single_block_within_budget blockHeight page); [by apply Hfit'|lia].
Qed.

(** The pass on a page of four blocks of heights 900, 20, 10 and 10. *)
Lemma flow_pass_budget_witness :
  Flow.handlePageOverflow Examples.heights 5 (Some 0%nat) Examples.fullPage
  = Some [[Examples.blk "a"; Examples.blk "b"; Examples.blk "c"]; [Examples.blk "d"]]
  /\ Flow.contentHeight Examples.heights
       [Examples.blk "a"; Examples.blk "b"; Examples.blk "c"] <= 931
  /\ exists fuel pages',
       Flow.handlePageOverflow Examples.heights fuel (Some 0%nat) Examples.fullPage = Some pages'
       /\ forall page, page ∈ pages' -> Flow.contentHeight Examples.heights page <= 931.
Proof.
  destruct (flow_pass_budget Examples.heights (Some 0%nat) Examples.fullPage) as [H1 H2].
  - repeat constructor; vm_compute; congruence.
  - split; [reflexivity|]. split.
    + apply (H1 5%nat
               [[Examples.blk "a"; Examples.blk "b"; Examples.blk "c"]; [Examples.blk "d"]]
               eq_refl).
      * apply list_elem_of_here.
      * vm_compute. lia.
    + apply H2.
      * repeat constructor; vm_compute; congruence.
      * repeat constructor.
Defined.

(** Forward overflow on a document that ends with a page of two blocks, the
    first one taller than the budget, behind [n] empty pages: every round
    pushes the two blocks one page further, and the loop never stops. *)
Lemma forwardScan_skips_empty pageIndex n (rest pages : Pages) :
  Flow.forwardScan Examples.heights pageIndex (replicate n [] ++ rest) pages
  = Flow.forwardScan Examples.heights (pageIndex + n) rest pages.
Proof.
  revert pageIndex. induction n as [|n IH]; intros pageIndex; simpl.
  - by rewrite Nat.add_0_r.
  - change (Flow.pageSplit Examples.heights []) with (@None nat).
    rewrite IH. f_equal. lia.
Qed.

Lemma forwardPass_pushes n :
  Flow.forwardPass Examples.heights
    (replicate n [] ++ [[Examples.blk "tall"; Examples.blk "d"]])
  = Some (replicate (S n) [] ++ [[Examples.blk "tall"; Examples.blk "d"]]).
Proof.
  unfold Flow.forwardPass. rewrite forwardScan_skips_empty. simpl.
  change (Flow.pageSplit Examples.heights [Examples.blk "tall"; Examples.blk "d"])
    with (Some 0%nat).
  f_equal.
  rewrite (move_to_next n 0 _ [Examples.blk "tall"; Examples.blk "d"]).
  - rewrite take_app_length' by (by rewrite length_replicate).
    rewrite lookup_ge_None_2 by (rewrite length_app, length_replicate; simpl; lia).
    rewrite (drop_ge _ (S (S n))) by (rewrite length_app, length_replicate; simpl; lia).
    simpl. clear. induction n as [|n IH]; simpl; [done|by f_equal].
  - rewrite lookup_app_r by (by rewrite length_replicate).
    by rewrite length_replicate, Nat.sub_diag.
  - simpl. lia.
Qed.

Lemma forward_overflow_diverges fuel :
  Flow.handleForwardOverflow Examples.heights fuel Examples.tallFirst = None.
Proof.
  unfold Flow.handleForwardOverflow. simpl.
  change Examples.tallFirst
    with (replicate 0 [] ++ [[Examples.blk "tall"; Examples.blk "d"]]).
  generalize 0%nat. induction fuel as [|fuel IH]; intros n; simpl; [done|].
  rewrite forwardPass_pushes. apply IH.
Qed.

(** C2 (code bug): on a page whose first block is taller than the budget and
    that holds a second real block, the split index is 0: forward overflow
    moves every block to the next page and leaves the source page without any
    block; the next round does the same one page further, and the loop of
    [handleForwardOverflow] does not stop. *)
Lemma forward_overflow_empties_source_page :
  Flow.realBlocks [Examples.blk "tall"; Examples.blk "d"] = 2%nat
  /\ Flow.pageSplit Examples.heights [Examples.blk "tall"; Examples.blk "d"] = Some 0%nat
  /\ Flow.forwardPass Examples.heights Examples.tallFirst
     = Some [[]; [Examples.blk "tall"; Examples.blk "d"]]
  /\ forall fuel, Flow.handleForwardOverflow Examples.heights fuel Examples.tallFirst = None.
Proof. repeat split; try reflexivity. apply forward_overflow_diverges. Qed.

(** C3, as stated, fails: a page over the budget that holds a single real
    block is given no split point, and nothing moves. *)
Lemma forward_overflow_keeps_single_block :
  931 < Flow.contentHeight Examples.heights [Examples.blk "tall"]
  /\ Flow.forwardPass Examples.heights Examples.tallAlone = None
  /\ Flow.handleForwardOverflow Examples.heights 1 Examples.tallAlone
     = Some Examples.tallAlone.
Proof. repeat split; reflexivity. Qed.

(** C3, amended: when page [p] is over the budget and holds more than one
    real block, and no earlier page has blocks to give away, one round of
    forward overflow splits page [p] at the split point of the specification.
    Of the blocks from there to the end of the page, those that carry a
    block id move, in their order, in front of the blocks of the next page,
    which is created when page [p] is the last page; those without a block
    id stay behind the blocks in front of the split point.  When they all
    carry a block id, the whole run moves. *)
Theorem forward_overflow_split (blockHeight : BlockEl -> Z) (pages : Pages) p page :
  pages !! p = Some page ->
  (forall q earlier, (q < p)%nat -> pages !! q = Some earlier ->
     Flow.pageSplit blockHeight earlier = None) ->
  931 < Flow.contentHeight blockHeight page ->
  (1 < Flow.realBlocks page)%nat ->
  exists k,
    Spec.splitPoint blockHeight page k
    /\ (k < length page)%nat
    /\ Flow.forwardPass blockHeight pages
       = Some (take p pages
               ++ [take k page
                   ++ filter (fun el => Flow.hasBlockId el = false) (drop k page);
                   filter (fun el => Flow.hasBlockId el = true) (drop k page)
                   ++ default [] (pages !! S p)]
               ++ drop (S (S p)) pages)
    /\ (Forall (fun el => Flow.hasBlockId el = true) (drop k page) ->
        Flow.forwardPass blockHeight pages
        = Some (take p pages
                ++ [take k page; drop k page ++ default [] (pages !! S p)]
                ++ drop (S (S p)) pages)).
Proof.
  intros Hp Hearlier Hover Hreal.
  destruct (pageSplit_over_budget blockHeight page Hover Hreal) as (k & Hk & Hlt & Hsp).
  exists k. split; [done|]. split; [done|].
  assert (Flow.forwardPass blockHeight pages
          = Some (Flow.moveBlocksToNextPage p (S p) k (Flow.getOrCreateNextPage p pages)))
    as Hpass.
  { unfold Flow.forwardPass.
    rewrite <- (take_drop_middle _ _ _ Hp) at 1.
    assert (length (take p pages) = p) as Hlen.
    { apply length_take_le. apply lookup_lt_Some in Hp. lia. }
    rewrite (forwardScan_first blockHeight _ _ _ _ k); [| |done].
    - by rewrite Hlen.
    - apply Forall_lookup. intros q earlier Hq.
      pose proof (lookup_lt_Some _ _ _ Hq) as Hqlt. rewrite Hlen in Hqlt.
      rewrite lookup_take_lt in Hq by done. by eapply Hearlier. }
  rewrite Hpass. split.
  - f_equal. by apply move_to_next.
  - intros Hid. f_equal. by apply move_to_next_identified.
Qed.

(** The split of a page of four blocks of heights 900, 20, 10 and 10. *)
Lemma forward_overflow_split_witness :
  exists k,
    Spec.splitPoint Examples.heights
      [Examples.blk "a"; Examples.blk "b"; Examples.blk "c"; Examples.blk "d"] k
    /\ (k < 4)%nat
    /\ Flow.forwardPass Examples.heights Examples.fullPage
       = Some ([] ++ [take k [Examples.blk "a"; Examples.blk "b"; Examples.blk "c"; Examples.blk "d"];
                      drop k [Examples.blk "a"; Examples.blk "b"; Examples.blk "c"; Examples.blk "d"] ++ []]
               ++ []).
Proof.
  destruct (forward_overflow_split Examples.heights Examples.fullPage 0
              [Examples.blk "a"; Examples.blk "b"; Examples.blk "c"; Examples.blk "d"])
    as (k & Hsplit & Hlt & _ & Hmove).
  - reflexivity.
  - intros q earlier Hq. lia.
  - vm_compute. reflexivity.
  - vm_compute. lia.
  - exists k. split; [exact Hsplit|]. split; [exact Hlt|].
    apply Hmove. apply Forall_drop. repeat constructor.
Defined.

(** C4 (code bug): bold is applied to the characters 2 to 5 of a block whose
    characters 2 to 5 are italic, then applied again to the same characters;
    the second call removes bold, yet the block does not come back: every
    character is left in a span of its own inside the italic span, and the
    serialized content differs from the original one. *)
Lemma bold_round_trip_changes_content :
  let once := Format.applyFormat bold Examples.selectWord Examples.italicWord in
  let twice := Format.applyFormat bold Examples.selectChars once in
  once = [TextNode "ab";
          SpanNode [italic]
            [SpanNode [bold; italic] [TextNode "c"];
             SpanNode [bold; italic] [TextNode "d"];
             SpanNode [bold; italic] [TextNode "e"]];
          TextNode "fg"]
  /\ Format.includes bold (Format.getActiveFormats Examples.selectChars once) = true
  /\ twice = [TextNode "ab";
              SpanNode [italic]
                [SpanNode [italic] [TextNode "c"];
                 SpanNode [italic] [TextNode "d"];
                 SpanNode [italic] [TextNode "e"]];
              TextNode "fg"]
  /\ Format.extractFormattedContent twice
     <> Format.extractFormattedContent Examples.italicWord
  /\ Format.runs twice <> Format.runs Examples.italicWord.
Proof. cbv zeta. repeat split; try reflexivity; vm_compute; congruence. Qed.

(** C5 (code bug): after bold is applied to the characters 2 to 5 of a plain
    block, the three characters are three neighbouring runs with the same
    format set: the run list is not canonical. *)
Lemma applyFormat_result_not_canonical :
  Format.canonical (Format.runs Examples.plainText) = true
  /\ Format.applyFormat bold Examples.selectInPlain Examples.plainText
     = [TextNode "ab"; SpanNode [bold] [TextNode "c"]; SpanNode [bold] [TextNode "d"];
        SpanNode [bold] [TextNode "e"]; TextNode "fg"]
  /\ Format.runs (Format.applyFormat bold Examples.selectInPlain Examples.plainText)
     = [("ab", []); ("c", [bold]); ("d", [bold]); ("e", [bold]); ("fg", [])]
  /\ Format.canonical
       (Format.runs (Format.applyFormat bold Examples.selectInPlain Examples.plainText))
     = false.
Proof. repeat split; reflexivity. Qed.



(** The page break of the witness, pulled up past the block without block
    id. *)
Lemma reverse_compaction_leaves_block_without_id :
  Flow.handleReverseCompaction Examples.heights 0
    [[Examples.blk "a"]; [Examples.blk EmptyString; Examples.brk "p"]; [Examples.blk "d"]]
  = [[Examples.blk "a"; Examples.brk "p"]; [Examples.blk EmptyString; Examples.blk "d"]; []].
Proof. reflexivity. Qed.

(** C7 (code bug): [removeEmptyPages] removes the last page of the document
    when it holds no real block and another page remains, although its own
    comments keep the last page ("except the last one, which should always
    exist") and [recreateDocumentFromDOM] keeps the last page of the same
    pages; and when no page holds a real block, the page that is left holds
    no block: no empty paragraph is made. *)
Lemma pruning_removes_empty_last_page :
  last Examples.trailingEmpty = Some []
  /\ Flow.removeEmptyPages Examples.trailingEmpty = [[Examples.blk "a"]]
  /\ SnapshotDOM.recreateDocumentFromDOM Examples.trailingEmpty
     = [{| Snapshot.number := 1; Snapshot.blocks := [Examples.blk "a"] |};
        {| Snapshot.number := 2; Snapshot.blocks := [] |}]
  /\ Flow.removeEmptyPages [[]; [Examples.brk "p"]] = [[]]
  /\ SnapshotDOM.recreateDocumentFromDOM (Flow.removeEmptyPages [[]; [Examples.brk "p"]])
     = [{| Snapshot.number := 1; Snapshot.blocks := [] |}].
Proof. repeat split; reflexivity. Qed.

(** At least one page is left. *)
Lemma pruning_keeps_a_page (pages : Pages) :
  pages <> [] -> Flow.removeEmptyPages pages <> [].
Proof.
  intros Hne. rewrite removeEmptyPages_pruned. unfold Spec.pruned.
  destruct (forallb Flow.hasNoRealBlock pages) eqn:E.
  - destruct pages; done.
  - apply forallb_false_Exists in E. apply Exists_exists in E as (x & Hin & Hx).
    intros Hnil.
    assert (x ∈ filter (fun page => Flow.hasNoRealBlock page = false) pages) as Hf
      by (by apply list_elem_of_filter).
    rewrite Hnil in Hf. by apply elem_of_nil in Hf.
Qed.

(** C8, as stated, fails: a second pass right after a completed pass pulls
    one more block up and removes a page. *)
Lemma second_flow_pass_changes_tree :
  exists pages1 pages2,
    Flow.handlePageOverflow Examples.heights 5 (Some 0%nat) Examples.threePages = Some pages1
    /\ Flow.handlePageOverflow Examples.heights 5 (Some 0%nat) pages1 = Some pages2
    /\ pages1 = [[Examples.blk "a"; Examples.blk "b"]; [Examples.blk "c"]]
    /\ pages2 = [[Examples.blk "a"; Examples.blk "b"; Examples.blk "c"]]
    /\ pages2 <> pages1.
Proof.
  exists [[Examples.blk "a"; Examples.blk "b"]; [Examples.blk "c"]],
         [[Examples.blk "a"; Examples.blk "b"; Examples.blk "c"]].
  repeat split; try reflexivity. congruence.
Qed.

(** C8, amended: the forward phase and the pruning phase are idempotent.
    Forward overflow run on the result of a completed forward overflow moves
    nothing, and pruning a pruned document removes nothing. *)
Theorem forward_and_pruning_idempotent (blockHeight : BlockEl -> Z) fuel
    (pages pages' : Pages) :
  Flow.handleForwardOverflow blockHeight fuel pages = Some pages' ->
  (forall fuel', Flow.handleForwardOverflow blockHeight (S fuel') pages' = Some pages')
  /\ Flow.removeEmptyPages (Flow.removeEmptyPages pages') = Flow.removeEmptyPages pages'.
Proof.
  intros H. split.
  - intros fuel'. unfold Flow.handleForwardOverflow in *.
    destruct (length pages =? 0)%nat eqn:E0.
    + inversion H; subst pages'. by rewrite E0.
    + destruct (length pages' =? 0)%nat; [done|].
      simpl. by rewrite (forwardLoop_stable blockHeight fuel pages pages').
  - rewrite !removeEmptyPages_pruned. apply pruned_idempotent.
Qed.

(** The two phases on the result of the pass over a full page. *)
Lemma forward_and_pruning_idempotent_witness :
  (forall fuel',
      Flow.handleForwardOverflow Examples.heights (S fuel')
        [[Examples.blk "a"; Examples.blk "b"; Examples.blk "c"]; [Examples.blk "d"]]
      = Some [[Examples.blk "a"; Examples.blk "b"; Examples.blk "c"]; [Examples.blk "d"]])
  /\ Flow.removeEmptyPages
       (Flow.removeEmptyPages
          [[Examples.blk "a"; Examples.blk "b"; Examples.blk "c"]; [Examples.blk "d"]])
     = Flow.removeEmptyPages
         [[Examples.blk "a"; Examples.blk "b"; Examples.blk "c"]; [Examples.blk "d"]].
Proof.
  apply (forward_and_pruning_idempotent Examples.heights 5 Examples.fullPage).
  reflexivity.
Defined.

(** C9, as stated, fails: [saveDocument] writes [updatedAt] into the
    caller's object. *)
Lemma saveDocument_changes_updatedAt :
  Storage.updatedAt <$> (Storage.heap Examples.session !! 0%nat) = Some 100
  /\ Storage.updatedAt
       <$> (Storage.heap (Storage.saveDocument 250 0%nat Examples.session) !! 0%nat)
     = Some 250.
Proof. split; reflexivity. Qed.

(** C9, amended: [saveDocument] sets [updatedAt] of the caller's object to
    the current time and leaves [id], [title], [pages] and [createdAt] as
    they were; every other object is untouched, and the record stored under
    the document's id is the updated object. *)
Theorem saveDocument_frame now doc (st : Storage.State) d :
  Storage.heap st !! doc = Some d ->
  exists d',
    Storage.heap (Storage.saveDocument now doc st) !! doc = Some d'
    /\ Storage.updatedAt d' = now
    /\ Storage.id d' = Storage.id d
    /\ Storage.title d' = Storage.title d
    /\ Storage.pages d' = Storage.pages d
    /\ Storage.createdAt d' = Storage.createdAt d
    /\ Storage.documents (Storage.saveDocument now doc st) !! Storage.id d = Some d'
    /\ (forall other, other <> doc ->
          Storage.heap (Storage.saveDocument now doc st) !! other = Storage.heap st !! other).
Proof.
  intros Hd. unfold Storage.saveDocument. rewrite Hd. simpl.
  eexists. split; [apply lookup_insert_eq|]. simpl.
  repeat split; try done.
  - apply lookup_insert_eq.
  - intros other Hne. by apply lookup_insert_ne.
Qed.

(** A document created at time 100 and saved at time 250. *)
Lemma saveDocument_frame_witness :
  exists d',
    Storage.heap (Storage.saveDocument 250 0%nat Examples.session) !! 0%nat = Some d'
    /\ Storage.updatedAt d' = 250
    /\ Storage.id d' = Storage.id Examples.draft
    /\ Storage.title d' = Storage.title Examples.draft
    /\ Storage.pages d' = Storage.pages Examples.draft
    /\ Storage.createdAt d' = Storage.createdAt Examples.draft
    /\ Storage.documents (Storage.saveDocument 250 0%nat Examples.session)
         !! Storage.id Examples.draft = Some d'
    /\ (forall other, other <> 0%nat ->
          Storage.heap (Storage.saveDocument 250 0%nat Examples.session) !! other
          = Storage.heap Examples.session !! other).
Proof.
  apply (saveDocument_frame 250 0%nat Examples.session Examples.draft).
  reflexivity.
Defined.

(** C10: when the text behind the cursor is empty or white space,
    [handlePageBreak] puts the page break behind the block and creates no
    block behind the page break: the page break is an element marked as
    page break, with the given id and without content.  The block keeps the
    content in front of the cursor, so the white space behind the cursor,
    which is the rest of the text of the block, is gone from the page; and
    when the block was the last one of its page, the page break is the last
    element of the page. *)
Theorem page_break_drops_whitespace_suffix pageBreakId newBlockId
    pageIndex blockIndex k off (pages : Pages) (page : Page) block :
  pages !! pageIndex = Some page ->
  page !! blockIndex = Some block ->
  PageBreak.allWhiteSpace
    (Format.textContent (PageBreak.cloneAfter k off (content block) 0)) = true ->
  let kept :=
    {| blockId := blockId block; isPageBreak := isPageBreak block;
       content := PageBreak.cloneBefore k off (content block) 0 |} in
  let pageBreak := {| blockId := pageBreakId; isPageBreak := true; content := [] |} in
  let page' := take blockIndex page ++ [kept; pageBreak] ++ drop (S blockIndex) page in
  PageBreak.handlePageBreak pageBreakId newBlockId pageIndex blockIndex k off pages
  = <[pageIndex := page']> pages
  /\ length page' = S (length page)
  /\ page' !! blockIndex = Some kept
  /\ page' !! S blockIndex = Some pageBreak
  /\ PageBreak.pageText page'
     = String.app (PageBreak.pageText (take blockIndex page))
         (String.app
            (Format.textContent (PageBreak.cloneBefore k off (content block) 0))
            (PageBreak.pageText (drop (S blockIndex) page)))
  /\ Format.textContent (content block)
     = String.app (Format.textContent (content kept))
         (Format.textContent (PageBreak.cloneAfter k off (content block) 0))
  /\ (S blockIndex = length page -> last page' = Some pageBreak).
Proof.
  intros Hpage Hblock Hws kept pageBreak page'.
  pose proof (lookup_lt_Some _ _ _ Hblock) as Hlt.
  assert (length (take blockIndex page) = blockIndex) as Hlen
    by (apply length_take_le; lia).
  split; [|split; [|split; [|split; [|split; [|split]]]]].
  - unfold PageBreak.handlePageBreak, PageBreak.splitBlock.
    rewrite Hpage, Hblock. rewrite (trim_whitespace _ Hws). done.
  - unfold page'. rewrite !length_app, Hlen, length_drop. simpl. lia.
  - unfold page'. rewrite lookup_app_r by lia. by rewrite Hlen, Nat.sub_diag.
  - unfold page'. rewrite lookup_app_r by lia. rewrite Hlen.
    by replace (S blockIndex - blockIndex)%nat with 1%nat by lia.
  - unfold page'. rewrite !pageText_app. f_equal. f_equal.
    unfold PageBreak.pageText. cbn [foldr].
    change (Format.textContent (content pageBreak)) with EmptyString.
    change (String.app EmptyString EmptyString) with EmptyString.
    by rewrite string_app_nil_r.
  - symmetry. apply clone_text_split.
  - intros Hlast. unfold page'.
    rewrite (drop_ge page (S blockIndex)) by lia.
    rewrite app_nil_r. by rewrite last_app.
Qed.

(** A page break at the end of the words of a block that ends in two
    spaces. *)
Lemma page_break_drops_whitespace_suffix_witness :
  PageBreak.handlePageBreak "pb" "new" 0 0 1 6 [[Examples.greeting]]
  = [[ {| blockId := "g"; isPageBreak := false;
          content := [TextNode "Hello "; SpanNode [bold] [TextNode "World!"]] |};
       {| blockId := "pb"; isPageBreak := true; content := [] |} ]]
  /\ PageBreak.pageText
       [ {| blockId := "g"; isPageBreak := false;
            content := [TextNode "Hello "; SpanNode [bold] [TextNode "World!"]] |};
         {| blockId := "pb"; isPageBreak := true; content := [] |} ]
     = "Hello World!"
  /\ Format.textContent (content Examples.greeting)
     = String.app "Hello World!" "  "
  /\ last [ {| blockId := "g"; isPageBreak := false;
               content := [TextNode "Hello "; SpanNode [bold] [TextNode "World!"]] |};
            {| blockId := "pb"; isPageBreak := true; content := [] |} ]
     = Some {| blockId := "pb"; isPageBreak := true; content := [] |}.
Proof.
  destruct (page_break_drops_whitespace_suffix "pb" "new" 0 0 1 6
              [[Examples.greeting]] [Examples.greeting] Examples.greeting
              eq_refl eq_refl eq_refl) as (H1 & _ & _ & _ & H2 & H3 & H4).
  split; [exact H1|]. split; [exact H2|]. split; [exact H3|]. apply H4. reflexivity.
Defined.

(** * More of the editor *)

(** ** The page flow engine keeps the blocks and their order *)

Section FlowOrder.

Variable blockHeight : BlockEl -> Z.

Lemma move_concat (pages : Pages) p page k :
  pages !! p = Some page ->
  concat (take p pages
          ++ [take k page; drop k page ++ default [] (pages !! S p)]
          ++ drop (S (S p)) pages)
  = concat pages.
Proof.
  intros Hp.
  rewrite <- (take_drop_middle _ _ _ Hp) at 4.
  rewrite !concat_app. f_equal. simpl.
  rewrite <- (take_drop k page) at 3. rewrite <- !app_assoc. f_equal. f_equal.
  destruct (pages !! S p) as [next|] eqn:Hn; simpl.
  - by rewrite (drop_S _ _ _ Hn).
  - apply lookup_ge_None in Hn. by rewrite !drop_ge by lia.
Qed.

Lemma move_length (pages : Pages) p page k :
  pages !! p = Some page ->
  (length pages
   <= length (take p pages
              ++ [take k page; drop k page ++ default [] (pages !! S p)]
              ++ drop (S (S p)) pages))%nat.
Proof.
  intros Hp. apply lookup_lt_Some in Hp.
  rewrite !length_app, length_take, length_drop. simpl. lia.
Qed.

(** A round of forward overflow keeps the blocks of the document and
    removes no page. *)
Lemma forwardPass_blocks (pages pages' : Pages) :
  Flow.forwardPass blockHeight pages = Some pages' ->
  concat pages' ≡ₚ concat pages /\ (length pages <= length pages')%nat.
Proof.
  intros H. destruct (forwardPass_Some_inv blockHeight pages pages' H)
    as (p & page & k & Hp & _ & _ & ->).
  split.
  - rewrite <- (move_concat pages p page k Hp).
    rewrite !concat_app. f_equiv. simpl. rewrite <- !app_assoc. f_equiv.
    rewrite !app_assoc. do 3 f_equiv. apply withoutId_withId_Permutation.
  - pose proof (move_length pages p page k Hp) as Hl.
    rewrite !length_app in *. simpl in *. lia.
Qed.

Lemma forwardLoop_blocks fuel (pages pages' : Pages) :
  Flow.forwardLoop blockHeight fuel pages = Some pages' ->
  concat pages' ≡ₚ concat pages /\ (length pages <= length pages')%nat.
Proof.
  revert pages. induction fuel as [|fuel IH]; intros pages H; simpl in H; [done|].
  destruct (Flow.forwardPass blockHeight pages) as [pages1|] eqn:E.
  - destruct (forwardPass_blocks _ _ E) as [Hc Hl].
    destruct (IH _ H) as [Hc' Hl']. split; [by etrans|lia].
  - by inversion H; subst.
Qed.

(** When every block carries a block id, the order of the blocks is kept. *)
Lemma forwardPass_concat (pages pages' : Pages) :
  Forall Spec.identified pages ->
  Flow.forwardPass blockHeight pages = Some pages' ->
  concat pages' = concat pages.
Proof.
  intros Hid H. destruct (forwardPass_Some_identified blockHeight pages pages' Hid H)
    as (p & page & k & Hp & _ & _ & ->).
  by apply move_concat.
Qed.

Lemma forwardLoop_concat fuel (pages pages' : Pages) :
  Forall Spec.identified pages ->
  Flow.forwardLoop blockHeight fuel pages = Some pages' ->
  concat pages' = concat pages.
Proof.
  revert pages. induction fuel as [|fuel IH]; intros pages Hid H; simpl in H; [done|].
  destruct (Flow.forwardPass blockHeight pages) as [pages1|] eqn:E.
  - rewrite (IH pages1); [by apply forwardPass_concat| |done].
    by eapply (forwardScan_Forall blockHeight).
  - by inversion H; subst.
Qed.

Lemma compactPair_blocks pageIndex (pages : Pages) :
  concat (Flow.compactPair blockHeight pageIndex pages) ≡ₚ concat pages.
Proof.
  destruct (compactPair_cases blockHeight pageIndex pages)
    as [->|(cur & next & n & Hcur & Hnext & _ & _ & _ & ->)]; [done|].
  destruct (insert_pair pages pageIndex cur next
              (cur ++ Spec.withId (take n next))
              (Spec.withoutId (take n next) ++ drop n next) Hcur Hnext)
    as [Hl ->].
  rewrite Hl at 3. rewrite !concat_app. f_equiv. simpl.
  rewrite <- !app_assoc. f_equiv. apply pulled_Permutation_app.
Qed.

Lemma compactPair_concat pageIndex (pages : Pages) :
  Forall Spec.identified pages ->
  concat (Flow.compactPair blockHeight pageIndex pages) = concat pages.
Proof.
  intros Hid.
  destruct (compactPair_cases_identified blockHeight pageIndex pages Hid)
    as [->|(cur & next & n & Hcur & Hnext & _ & _ & _ & ->)]; [done|].
  destruct (insert_pair pages pageIndex cur next (cur ++ take n next) (drop n next) Hcur Hnext)
    as [Hl ->].
  rewrite Hl at 3. rewrite !concat_app. f_equal. simpl.
  rewrite <- !app_assoc. f_equal. by rewrite (app_assoc (take n next)), take_drop.
Qed.

Lemma compactPair_take start pageIndex (pages : Pages) :
  (start <= pageIndex)%nat ->
  take start (Flow.compactPair blockHeight pageIndex pages) = take start pages.
Proof.
  intros Hle.
  destruct (compactPair_cases blockHeight pageIndex pages)
    as [->|(cur & next & n & _ & _ & _ & _ & _ & ->)]; [done|].
  rewrite !take_insert_ge by lia. done.
Qed.

Lemma compactFrom_blocks count start pageIndex (pages : Pages) :
  (start <= pageIndex)%nat ->
  concat (Flow.compactFrom blockHeight count pageIndex pages) ≡ₚ concat pages
  /\ take start (Flow.compactFrom blockHeight count pageIndex pages) = take start pages.
Proof.
  revert pageIndex pages. induction count as [|count IH]; intros pageIndex pages Hle; simpl;
    [done|].
  destruct (IH (S pageIndex) (Flow.compactPair blockHeight pageIndex pages) ltac:(lia))
    as [-> ->].
  split; [apply compactPair_blocks|by apply compactPair_take].
Qed.

Lemma compactFrom_concat count pageIndex (pages : Pages) :
  Forall Spec.identified pages ->
  concat (Flow.compactFrom blockHeight count pageIndex pages) = concat pages.
Proof.
  revert pageIndex pages. induction count as [|count IH]; intros pageIndex pages Hid; simpl;
    [done|].
  rewrite IH by (by apply compactPair_Forall). by apply compactPair_concat.
Qed.

(** Real blocks under pruning. *)
Lemma filter_real_no_real (page : Page) :
  Flow.hasNoRealBlock page = true ->
  filter (fun el => Flow.notPageBreak el = true) page = [].
Proof.
  unfold Flow.hasNoRealBlock. intros H%Nat.eqb_eq. by apply nil_length_inv.
Qed.

Lemma filter_concat {A} (P : A -> Prop) `{!forall x, Decision (P x)} (ls : list (list A)) :
  filter P (concat ls) = concat (map (filter P) ls).
Proof. induction ls as [|l ls IH]; [done|]. simpl. by rewrite filter_app, IH. Qed.

Lemma pruned_real_blocks (pages : Pages) :
  filter (fun el => Flow.notPageBreak el = true) (concat (Spec.pruned pages))
  = filter (fun el => Flow.notPageBreak el = true) (concat pages).
Proof.
  unfold Spec.pruned. destruct (forallb Flow.hasNoRealBlock pages) eqn:E.
  - apply forallb_true_Forall in E.
    assert (forall ps : Pages,
               Forall (fun x => Flow.hasNoRealBlock x = true) ps ->
               filter (fun el => Flow.notPageBreak el = true) (concat ps) = []) as Hnil.
    { induction 1 as [|pg ps Hpg _ IH]; [done|].
      simpl. by rewrite filter_app, IH, (filter_real_no_real pg Hpg). }
    rewrite (Hnil pages E). apply Hnil. by apply Forall_take.
  - clear E. induction pages as [|pg pages IH]; [done|].
    rewrite filter_cons. simpl. rewrite !filter_app.
    case_decide as Hreal.
    + simpl. by rewrite filter_app, IH.
    + rewrite IH. apply not_false_is_true in Hreal.
      by rewrite (filter_real_no_real pg Hreal).
Qed.

(** A page break that is not last puts the page over the budget. *)
Lemma reduceHeights_break total index len (els : Page) q pb :
  Spec.nonNegative blockHeight els ->
  els !! q = Some pb -> isPageBreak pb = true ->
  (index + q < len - 1)%nat ->
  total + Flow.getPageContentMaxHeight + 1000
  <= Flow.reduceHeights blockHeight total index len els.
Proof.
  intros Hnn. revert total index q.
  induction Hnn as [|b els Hb Hnn IH]; intros total index q Hq Hpb Hlt; [done|].
  destruct q as [|q]; simpl in Hq.
  - injection Hq as ->. simpl. rewrite Hpb.
    destruct (index <? len - 1)%nat eqn:E; [|apply Nat.ltb_ge in E; lia].
    pose proof (reduceHeights_ge blockHeight
                  (total + Flow.getPageContentMaxHeight + 1000) (S index) len els).
    pose proof (contentHeight_nonneg blockHeight els Hnn). lia.
  - simpl. etrans; [|apply (IH _ (S index) q Hq Hpb); lia].
    destruct (isPageBreak b); [destruct (index <? len - 1)%nat|];
      unfold Flow.getPageContentMaxHeight; lia.
Qed.

Lemma pageSplit_None_height (page : Page) :
  Flow.pageSplit blockHeight page = None -> (1 < Flow.realBlocks page)%nat ->
  Flow.calculatePageBlocksHeight blockHeight page <= Flow.getPageContentMaxHeight.
Proof.
  unfold Flow.pageSplit. intros H Hreal.
  destruct (Flow.getPageContentMaxHeight <? Flow.calculatePageBlocksHeight blockHeight page)
    eqn:E; [|by apply Z.ltb_ge in E].
  fold (Flow.realBlocks page) in H.
  destruct (1 <? Flow.realBlocks page)%nat eqn:E1; [|apply Nat.ltb_ge in E1; lia].
  destruct (Flow.findSplitIndex blockHeight 0 0 (length page) page) as [k|] eqn:E2.
  - pose proof (findSplitIndex_lt _ _ _ _ _ _ (Nat.add_0_l _) E2) as Hk.
    destruct (k <? length page)%nat eqn:E3; [done|]. apply Nat.ltb_ge in E3. lia.
  - apply findSplitIndex_None in E2; [done|unfold Flow.getPageContentMaxHeight; lia].
Qed.

Lemma handleForwardOverflow_blocks fuel (pages pages' : Pages) :
  Flow.handleForwardOverflow blockHeight fuel pages = Some pages' ->
  concat pages' ≡ₚ concat pages /\ (length pages <= length pages')%nat.
Proof.
  unfold Flow.handleForwardOverflow.
  destruct (length pages =? 0)%nat; [by intros [= ->]|]. apply forwardLoop_blocks.
Qed.

Lemma handleForwardOverflow_concat fuel (pages pages' : Pages) :
  Forall Spec.identified pages ->
  Flow.handleForwardOverflow blockHeight fuel pages = Some pages' ->
  concat pages' = concat pages /\ Forall Spec.identified pages'.
Proof.
  unfold Flow.handleForwardOverflow. intros Hid.
  destruct (length pages =? 0)%nat; [by intros [= ->]|]. intros H.
  split; [by eapply forwardLoop_concat|by eapply (forwardLoop_Forall blockHeight)].
Qed.

Lemma handleReverseCompaction_blocks startPageIndex (pages : Pages) :
  concat (Flow.handleReverseCompaction blockHeight startPageIndex pages) ≡ₚ concat pages
  /\ length (Flow.handleReverseCompaction blockHeight startPageIndex pages) = length pages
  /\ take startPageIndex (Flow.handleReverseCompaction blockHeight startPageIndex pages)
     = take startPageIndex pages.
Proof.
  unfold Flow.handleReverseCompaction.
  destruct (length pages =? 0)%nat; [done|].
  destruct (compactFrom_blocks (length pages - 1 - startPageIndex)
              startPageIndex startPageIndex pages (Nat.le_refl _)) as [Hc Ht].
  split; [done|]. split; [apply compactFrom_length|done].
Qed.

Lemma handleReverseCompaction_concat startPageIndex (pages : Pages) :
  Forall Spec.identified pages ->
  concat (Flow.handleReverseCompaction blockHeight startPageIndex pages) = concat pages.
Proof.
  intros Hid. unfold Flow.handleReverseCompaction.
  destruct (length pages =? 0)%nat; [done|]. by apply compactFrom_concat.
Qed.

(** After forward overflow, a page with more than one real block has its
    page breaks at the end only. *)
Lemma pageSplit_None_breaks_last (page : Page) j pb :
  Spec.nonNegative blockHeight page ->
  Flow.pageSplit blockHeight page = None -> (1 < Flow.realBlocks page)%nat ->
  page !! j = Some pb -> isPageBreak pb = true ->
  S j = length page.
Proof.
  intros Hnn Hsplit Hreal Hj Hpb.
  pose proof (pageSplit_None_height page Hsplit Hreal) as Hcalc.
  pose proof (lookup_lt_Some _ _ _ Hj) as Hlt.
  destruct (decide (S j = length page)) as [|Hne]; [done|].
  pose proof (reduceHeights_break 0 0 (length page) page j pb Hnn Hj Hpb ltac:(lia)) as Hb.
  unfold Flow.calculatePageBlocksHeight in Hcalc.
  unfold Flow.getPageContentMaxHeight in *. lia.
Qed.

End FlowOrder.

(** X1: forward overflow neither loses nor duplicates a block, and removes
    no page: when it completes, the blocks of the document are the blocks it
    had before.  When every block carries a block id, they are also in the
    order they had before, read page after page; a block without block id
    is left behind by the blocks that move. *)
Theorem forward_overflow_keeps_document_order (blockHeight : BlockEl -> Z) fuel
    (pages pages' : Pages) :
  Flow.handleForwardOverflow blockHeight fuel pages = Some pages' ->
  concat pages' ≡ₚ concat pages
  /\ (length pages <= length pages')%nat
  /\ (Forall (Forall (fun el => Flow.hasBlockId el = true)) pages ->
      concat pages' = concat pages).
Proof.
  intros H. destruct (handleForwardOverflow_blocks blockHeight fuel pages pages' H) as [Hp Hl].
  split; [done|]. split; [done|]. intros Hid.
  by destruct (handleForwardOverflow_concat blockHeight fuel pages pages' Hid H).
Qed.

Lemma forward_overflow_keeps_document_order_witness :
  concat [[Examples.blk "a"; Examples.blk "b"; Examples.blk "c"]; [Examples.blk "d"]]
  = concat Examples.fullPage
  /\ (length Examples.fullPage
      <= length [[Examples.blk "a"; Examples.blk "b"; Examples.blk "c"]; [Examples.blk "d"]])%nat.
Proof.
  destruct (forward_overflow_keeps_document_order Examples.heights 5 Examples.fullPage
              [[Examples.blk "a"; Examples.blk "b"; Examples.blk "c"]; [Examples.blk "d"]]
              eq_refl) as (_ & Hl & Hc).
  split; [|exact Hl]. apply Hc. repeat constructor.
Defined.

(** A block without block id in the run that moves stays on its page, and
    the block behind it overtakes it. *)
Lemma forward_overflow_leaves_block_without_id :
  Flow.handleForwardOverflow Examples.heights 5
    [[Examples.blk "a"; Examples.blk "b"; Examples.blk "c"; Examples.blk "d";
      Examples.blk EmptyString; Examples.blk "e"]]
  = Some [[Examples.blk "a"; Examples.blk "b"; Examples.blk "c"; Examples.blk EmptyString];
          [Examples.blk "d"; Examples.blk "e"]].
Proof. reflexivity. Qed.

(** X2: reverse compaction neither loses nor duplicates a block, keeps the
    number of pages, and leaves the pages in front of [startPageIndex] as
    they are.  When every block carries a block id, it keeps the sequence
    of the blocks of the document. *)
Theorem reverse_compaction_keeps_document_order (blockHeight : BlockEl -> Z)
    startPageIndex (pages : Pages) :
  concat (Flow.handleReverseCompaction blockHeight startPageIndex pages) ≡ₚ concat pages
  /\ length (Flow.handleReverseCompaction blockHeight startPageIndex pages) = length pages
  /\ take startPageIndex (Flow.handleReverseCompaction blockHeight startPageIndex pages)
     = take startPageIndex pages
  /\ (Forall (Forall (fun el => Flow.hasBlockId el = true)) pages ->
      concat (Flow.handleReverseCompaction blockHeight startPageIndex pages)
      = concat pages).
Proof.
  destruct (handleReverseCompaction_blocks blockHeight startPageIndex pages) as (H1 & H2 & H3).
  repeat split; try done. apply handleReverseCompaction_concat.
Qed.

(** X3: a completed flow pass keeps every real block: pruning removes
    pages, and with them page breaks only.  When every block carries a
    block id, the real blocks are also in the order they had before. *)
Theorem flow_pass_keeps_real_blocks (blockHeight : BlockEl -> Z) fuel currentPage
    (pages pages' : Pages) :
  Flow.handlePageOverflow blockHeight fuel currentPage pages = Some pages' ->
  filter (fun el => Flow.notPageBreak el = true) (concat pages')
  ≡ₚ filter (fun el => Flow.notPageBreak el = true) (concat pages)
  /\ (Forall (Forall (fun el => Flow.hasBlockId el = true)) pages ->
      filter (fun el => Flow.notPageBreak el = true) (concat pages')
      = filter (fun el => Flow.notPageBreak el = true) (concat pages)).
Proof.
  unfold Flow.handlePageOverflow.
  destruct (length pages =? 0)%nat; [by intros [= ->]|].
  destruct (Flow.handleForwardOverflow blockHeight fuel pages) as [pages1|] eqn:E; [|done].
  intros [= <-].
  rewrite removeEmptyPages_pruned, pruned_real_blocks. split.
  - destruct (handleReverseCompaction_blocks blockHeight (default 0%nat currentPage) pages1)
      as [-> _].
    by destruct (handleForwardOverflow_blocks blockHeight fuel pages pages1 E) as [-> _].
  - intros Hid.
    destruct (handleForwardOverflow_concat blockHeight fuel pages pages1 Hid E) as [<- Hid1].
    by rewrite (handleReverseCompaction_concat blockHeight _ pages1 Hid1).
Qed.

Lemma flow_pass_keeps_real_blocks_witness :
  filter (fun el => Flow.notPageBreak el = true)
    (concat [[Examples.blk "b"; Examples.brk "p"]; [Examples.blk "c"; Examples.brk "q"];
             [Examples.blk "d"]])
  = filter (fun el => Flow.notPageBreak el = true) (concat Examples.brokenPage).
Proof.
  destruct (flow_pass_keeps_real_blocks Examples.heights 5 (Some 0%nat) Examples.brokenPage
              [[Examples.blk "b"; Examples.brk "p"]; [Examples.blk "c"; Examples.brk "q"];
               [Examples.blk "d"]] eq_refl) as [_ H].
  apply H. repeat constructor.
Defined.

(** X4: when forward overflow has completed on blocks whose heights are not
    negative, a page that holds more than one real block has no page break
    except as its last element: whatever followed a page break has gone to a
    later page. *)
Theorem forward_overflow_breaks_close_pages (blockHeight : BlockEl -> Z) fuel
    (pages pages' : Pages) page j pb :
  Forall (Spec.nonNegative blockHeight) pages ->
  Flow.handleForwardOverflow blockHeight fuel pages = Some pages' ->
  page ∈ pages' -> (1 < Flow.realBlocks page)%nat ->
  page !! j = Some pb -> isPageBreak pb = true ->
  S j = length page.
Proof.
  intros Hnn Hfw Hin Hreal Hj Hpb.
  unfold Flow.handleForwardOverflow in Hfw.
  destruct (length pages =? 0)%nat eqn:E0.
  { injection Hfw as <-. apply Nat.eqb_eq in E0.
    destruct pages; [by apply elem_of_nil in Hin|done]. }
  pose proof (forwardLoop_Forall blockHeight _ fuel pages pages' Hfw Hnn) as Hnn'.
  pose proof (forwardLoop_stable blockHeight fuel pages pages' Hfw) as Hstable.
  apply forwardScan_None in Hstable.
  rewrite Forall_forall in Hnn'. rewrite Forall_forall in Hstable.
  by apply (pageSplit_None_breaks_last blockHeight page j pb (Hnn' _ Hin) (Hstable _ Hin)).
Qed.

Lemma forward_overflow_breaks_close_pages_witness :
  Flow.handleForwardOverflow Examples.heights 5
    [[Examples.blk "b"; Examples.blk "c"; Examples.brk "p"; Examples.blk "d"]]
  = Some [[Examples.blk "b"; Examples.blk "c"; Examples.brk "p"]; [Examples.blk "d"]]
  /\ 3%nat = length [Examples.blk "b"; Examples.blk "c"; Examples.brk "p"].
Proof.
  split; [reflexivity|].
  apply (forward_overflow_breaks_close_pages Examples.heights 5
           [[Examples.blk "b"; Examples.blk "c"; Examples.brk "p"; Examples.blk "d"]]
           [[Examples.blk "b"; Examples.blk "c"; Examples.brk "p"]; [Examples.blk "d"]]
           [Examples.blk "b"; Examples.blk "c"; Examples.brk "p"] 2 (Examples.brk "p")).
  - repeat constructor; vm_compute; congruence.
  - reflexivity.
  - apply list_elem_of_here.
  - vm_compute. lia.
  - reflexivity.
  - reflexivity.
Defined.

(** X5: pruning only removes pages.  The pages it keeps are pages of the
    document in their order, the real blocks of the document are all kept,
    a document with a page keeps at least one, and either a single page is
    left or every page that is left holds a real block. *)
Theorem pruning_only_removes_blockless_pages (pages : Pages) :
  Flow.removeEmptyPages pages `sublist_of` pages
  /\ filter (fun el => Flow.notPageBreak el = true) (concat (Flow.removeEmptyPages pages))
     = filter (fun el => Flow.notPageBreak el = true) (concat pages)
  /\ (pages <> [] -> Flow.removeEmptyPages pages <> [])
  /\ ((length (Flow.removeEmptyPages pages) <= 1)%nat
     \/ Forall (fun page => Flow.hasNoRealBlock page = false) (Flow.removeEmptyPages pages)).
Proof.
  rewrite removeEmptyPages_pruned. split; [|split; [|split]].
  - unfold Spec.pruned. destruct (forallb Flow.hasNoRealBlock pages).
    + apply sublist_take.
    + apply sublist_filter.
  - apply pruned_real_blocks.
  - intros Hne. unfold Spec.pruned.
    destruct (forallb Flow.hasNoRealBlock pages) eqn:E; [by destruct pages|].
    apply forallb_false_Exists in E. apply Exists_exists in E as (x & Hin & Hx).
    intros Hnil.
    assert (x ∈ filter (fun page => Flow.hasNoRealBlock page = false) pages) as Hf
      by (by apply list_elem_of_filter).
    rewrite Hnil in Hf. by apply elem_of_nil in Hf.
  - unfold Spec.pruned. destruct (forallb Flow.hasNoRealBlock pages).
    + left. rewrite length_take. lia.
    + right. apply Forall_forall. intros x Hx. by apply list_elem_of_filter in Hx as [Hx _].
Qed.

Lemma pruning_only_removes_blockless_pages_witness :
  Flow.removeEmptyPages Examples.trailingEmpty `sublist_of` Examples.trailingEmpty
  /\ Flow.removeEmptyPages Examples.trailingEmpty <> [].
Proof.
  destruct (pruning_only_removes_blockless_pages Examples.trailingEmpty) as (H1 & _ & H3 & _).
  split; [exact H1|]. apply H3. discriminate.
Defined.

(** X6: [getOrCreateNextPage] changes no existing page: it leaves the list
    of pages as it is or appends one empty page.  For a valid page index the
    next page exists afterwards, and a second call changes nothing. *)
Theorem getOrCreateNextPage_appends (currentPageIndex : nat) (pages : Pages) :
  (Flow.getOrCreateNextPage currentPageIndex pages = pages
   \/ Flow.getOrCreateNextPage currentPageIndex pages = pages ++ [[]])
  /\ ((currentPageIndex < length pages)%nat ->
      is_Some (Flow.getOrCreateNextPage currentPageIndex pages !! S currentPageIndex)
      /\ Flow.getOrCreateNextPage currentPageIndex
           (Flow.getOrCreateNextPage currentPageIndex pages)
         = Flow.getOrCreateNextPage currentPageIndex pages).
Proof.
  unfold Flow.getOrCreateNextPage, Flow.splice_insert.
  destruct (pages !! S currentPageIndex) as [next|] eqn:E.
  - split; [by left|]. intros _. rewrite E. eauto.
  - apply lookup_ge_None in E.
    rewrite take_ge, drop_ge by lia.
    split; [by right|]. intros Hlt.
    assert ((pages ++ [[]]) !! S currentPageIndex = Some ([] : Page)) as Hl.
    { rewrite lookup_app_r by lia.
      by replace (S currentPageIndex - length pages)%nat with 0%nat by lia. }
    rewrite Hl. eauto.
Qed.

Lemma getOrCreateNextPage_appends_witness :
  is_Some (Flow.getOrCreateNextPage 0 Examples.tallAlone !! 1%nat)
  /\ Flow.getOrCreateNextPage 0 (Flow.getOrCreateNextPage 0 Examples.tallAlone)
     = Flow.getOrCreateNextPage 0 Examples.tallAlone.
Proof.
  destruct (getOrCreateNextPage_appends 0 Examples.tallAlone) as [_ H].
  apply H. simpl. lia.
Defined.

(** ** The snapshot of the pages *)

Section SnapshotFacts.

Import Snapshot.

Lemma renumber_number index (ps : list SnapshotPage) :
  map number (renumber index ps) = seq (index + 1) (length ps).
Proof.
  revert index. induction ps as [|p ps IH]; intros index; [done|].
  simpl. rewrite IH. by replace (S index + 1)%nat with (S (index + 1)) by lia.
Qed.

Lemma renumber_blocks index (ps : list SnapshotPage) :
  map blocks (renumber index ps) = map blocks ps.
Proof. revert index. induction ps as [|p ps IH]; intros index; [done|]. simpl. by rewrite IH. Qed.

Lemma renumber_length index (ps : list SnapshotPage) :
  length (renumber index ps) = length ps.
Proof. revert index. induction ps as [|p ps IH]; intros index; [done|]. simpl. by rewrite IH. Qed.

Lemma keepFilled_blocks index len (ps : list SnapshotPage) :
  (index + length ps = len)%nat ->
  map blocks (keepFilled index len ps)
  = filter (fun p : Page => p <> []) (take (length ps - 1) (map blocks ps))
    ++ match last ps with Some p => [blocks p] | None => [] end.
Proof.
  revert index. induction ps as [|p ps IH]; intros index Hlen; [done|].
  cbn [keepFilled]. cbn [length] in Hlen.
  destruct (nil_or_length_pos ps) as [->|Hpos].
  - simpl in *. replace (index =? len - 1)%nat with true by (symmetry; apply Nat.eqb_eq; lia).
    by rewrite orb_true_r.
  - replace (index =? len - 1)%nat with false by (symmetry; apply Nat.eqb_neq; lia).
    rewrite orb_false_r.
    replace (length (p :: ps) - 1)%nat with (S (length ps - 1)) by (simpl; lia).
    rewrite map_cons, firstn_cons, filter_cons, last_cons.
    specialize (IH (S index) ltac:(lia)).
    destruct (last ps) as [lp|] eqn:El;
      [|apply last_None in El; subst ps; simpl in Hpos; lia].
    destruct (length (blocks p) =? 0)%nat eqn:E; simpl negb; cbv iota.
    + apply Nat.eqb_eq, nil_length_inv in E. rewrite E.
      case_decide; [done|]. exact IH.
    + apply Nat.eqb_neq in E.
      case_decide as Hne.
      * rewrite map_cons, IH. done.
      * exfalso. rewrite Hne in E. by apply E.
Qed.

Lemma imap_blocks (f : nat -> nat) (pages : Pages) :
  map blocks (imap (fun pageIndex els => {| number := f pageIndex; blocks := els |}) pages)
  = pages.
Proof.
  revert f. induction pages as [|pg pages IH]; intros f; [done|].
  simpl. f_equal. apply (IH (f ∘ S)).
Qed.

Lemma recreatePages_blocks (pageRefs : Pages) :
  map blocks (recreatePages pageRefs)
  = filter (fun p : Page => p <> []) (take (length pageRefs - 1) pageRefs)
    ++ [default [] (last pageRefs)].
Proof.
  unfold recreatePages.
  set (mapped := imap _ pageRefs).
  assert (map blocks mapped = pageRefs) as Hm by apply (imap_blocks (fun i => i + 1)%nat).
  assert (length mapped = length pageRefs) as Hl by apply length_imap.
  assert (map blocks (renumber 0 (keepFilled 0 (length mapped) mapped))
          = filter (fun p : Page => p <> []) (take (length pageRefs - 1) pageRefs)
            ++ match last mapped with Some p => [blocks p] | None => [] end) as Hk.
  { rewrite renumber_blocks, keepFilled_blocks by done. by rewrite Hm, Hl. }
  assert (last pageRefs = blocks <$> last mapped) as Hlast.
  { rewrite <- Hm. by rewrite <- fmap_last. }
  rewrite Hlast.
  destruct (renumber 0 (keepFilled 0 (length mapped) mapped)) as [|r rs] eqn:E.
  - destruct (last mapped) as [p|] eqn:El.
    + destruct (filter _ _); discriminate Hk.
    + simpl. apply last_None in El. rewrite El in Hl. symmetry in Hl.
      apply nil_length_inv in Hl. by rewrite Hl.
  - rewrite Hk. f_equal. destruct (last mapped) as [p|] eqn:El; [done|].
    apply last_None in El. rewrite El in E. discriminate E.
Qed.

Lemma recreatePages_numbers (pageRefs : Pages) :
  map number (recreatePages pageRefs) = seq 1 (length (recreatePages pageRefs)).
Proof.
  unfold recreatePages.
  destruct (renumber 0 _) as [|r rs] eqn:E; [done|].
  rewrite <- E. rewrite renumber_number, renumber_length. done.
Qed.

Lemma concat_filter_nonempty {A} (ls : list (list A)) :
  concat (filter (fun l : list A => l <> []) ls) = concat ls.
Proof.
  induction ls as [|l ls IH]; [done|].
  destruct l as [|x l].
  - rewrite filter_cons. case_decide as H; [congruence|]. exact IH.
  - rewrite filter_cons. case_decide as H; [|discriminate H].
    simpl. by rewrite IH.
Qed.

Lemma readBlocks_concat (pageRefs : Pages) :
  concat (map SnapshotDOM.readBlocks pageRefs)
  = List.filter SnapshotDOM.hasBlockId (concat pageRefs).
Proof.
  induction pageRefs as [|p ps IH]; [done|].
  simpl. by rewrite List.filter_app, IH.
Qed.

End SnapshotFacts.

(** X7: the pages of a snapshot are never empty and are numbered 1, 2, ...,
    N without a gap. *)
Theorem snapshot_pages_numbered (pageRefs : Pages) :
  SnapshotDOM.recreateDocumentFromDOM pageRefs <> []
  /\ map Snapshot.number (SnapshotDOM.recreateDocumentFromDOM pageRefs)
     = seq 1 (length (SnapshotDOM.recreateDocumentFromDOM pageRefs)).
Proof.
  unfold SnapshotDOM.recreateDocumentFromDOM.
  split; [|apply recreatePages_numbers].
  intros H. pose proof (recreatePages_blocks (map SnapshotDOM.readBlocks pageRefs)) as Hb.
  rewrite H in Hb. destruct (filter _ _); discriminate Hb.
Qed.

(** X8: the snapshot drops the pages that hold no block with a block id,
    except the last page, and nothing else: its pages are the non-empty
    pages in front of the last page, then the last page.  Every element that
    has a block id is kept, page breaks included, in the order of the
    document. *)
Theorem snapshot_keeps_blocks (pageRefs : Pages) :
  let read := map SnapshotDOM.readBlocks pageRefs in
  map Snapshot.blocks (SnapshotDOM.recreateDocumentFromDOM pageRefs)
  = filter (fun p : Page => p <> []) (take (length read - 1) read)
    ++ [default [] (last read)]
  /\ concat (map Snapshot.blocks (SnapshotDOM.recreateDocumentFromDOM pageRefs))
     = List.filter SnapshotDOM.hasBlockId (concat pageRefs).
Proof.
  intros read. unfold SnapshotDOM.recreateDocumentFromDOM. fold read.
  split; [apply recreatePages_blocks|].
  rewrite recreatePages_blocks, concat_app, concat_filter_nonempty. simpl.
  rewrite app_nil_r, <- readBlocks_concat. fold read.
  destruct (last read) as [lp|] eqn:E.
  - simpl. apply last_Some in E as [l' ->].
    rewrite length_app. simpl. replace (length l' + 1 - 1)%nat with (length l') by lia.
    rewrite take_app_length, concat_app. simpl. by rewrite app_nil_r.
  - apply last_None in E. by rewrite E.
Qed.

(** ** A page break in the middle of a block *)

Section PageBreakSplit.

Import PageBreak.

Lemma allWhiteSpace_app s t :
  allWhiteSpace (String.app s t) = allWhiteSpace s && allWhiteSpace t.
Proof.
  induction s as [|c s IH]; [done|].
  change (isWhiteSpace c && allWhiteSpace (String.app s t)
          = isWhiteSpace c && allWhiteSpace s && allWhiteSpace t).
  by rewrite IH, andb_assoc.
Qed.

Lemma allWhiteSpace_rev_app s t :
  allWhiteSpace (String.rev_app s t) = allWhiteSpace s && allWhiteSpace t.
Proof.
  revert t. induction s as [|c s IH]; intros t; [done|].
  simpl. rewrite IH. simpl. destruct (isWhiteSpace c), (allWhiteSpace s); done.
Qed.

Lemma allWhiteSpace_rev s : allWhiteSpace (String.rev s) = allWhiteSpace s.
Proof. unfold String.rev. rewrite allWhiteSpace_rev_app. simpl. apply andb_true_r. Qed.

Lemma allWhiteSpace_trimStart s : allWhiteSpace (trimStart s) = allWhiteSpace s.
Proof.
  induction s as [|c s IH]; [done|].
  simpl. destruct (isWhiteSpace c) eqn:E; [done|]. simpl. by rewrite E.
Qed.

Lemma allWhiteSpace_trim s : allWhiteSpace (trim s) = allWhiteSpace s.
Proof.
  unfold trim, trimEnd.
  by rewrite allWhiteSpace_rev, allWhiteSpace_trimStart, allWhiteSpace_rev,
    allWhiteSpace_trimStart.
Qed.

(** A string with a character that is not white space has a truthy trim. *)
Lemma trim_truthy s : allWhiteSpace s = false -> truthy (trim s) = true.
Proof.
  intros H. rewrite <- allWhiteSpace_trim in H.
  unfold truthy. by destruct (trim s).
Qed.

Lemma pageText_cons b (p : Page) :
  pageText (b :: p) = String.app (Format.textContent (content b)) (pageText p).
Proof. done. Qed.

End PageBreakSplit.

Section BreakAndFlow.

Variable blockHeight : BlockEl -> Z.


End BreakAndFlow.

(** X9: a page break in front of text that is not all white space splits
    the block in three: the block with the content in front of the cursor,
    the page break (an element marked as page break, with the given id and
    without content), and a new paragraph with the content behind the
    cursor.  The page has two elements more and its text is what it was. *)
Theorem page_break_splits_block pageBreakId newBlockId
    pageIndex blockIndex k off (pages : Pages) (page : Page) block :
  pages !! pageIndex = Some page ->
  page !! blockIndex = Some block ->
  PageBreak.allWhiteSpace
    (Format.textContent (PageBreak.cloneAfter k off (content block) 0)) = false ->
  let kept :=
    {| blockId := blockId block; isPageBreak := isPageBreak block;
       content := PageBreak.cloneBefore k off (content block) 0 |} in
  let pageBreak := {| blockId := pageBreakId; isPageBreak := true; content := [] |} in
  let new :=
    {| blockId := newBlockId; isPageBreak := false;
       content := PageBreak.cloneAfter k off (content block) 0 |} in
  let page' :=
    take blockIndex page ++ [kept; pageBreak; new] ++ drop (S blockIndex) page in
  PageBreak.handlePageBreak pageBreakId newBlockId pageIndex blockIndex k off pages
  = <[pageIndex := page']> pages
  /\ page' !! blockIndex = Some kept
  /\ page' !! S blockIndex = Some pageBreak
  /\ page' !! S (S blockIndex) = Some new
  /\ PageBreak.pageText page' = PageBreak.pageText page
  /\ length page' = (length page + 2)%nat.
Proof.
  intros Hpage Hblock Hws kept pageBreak new page'.
  pose proof (lookup_lt_Some _ _ _ Hblock) as Hlt.
  assert (length (take blockIndex page) = blockIndex) as Hlen
    by (apply length_take_le; lia).
  split; [|split; [|split; [|split; [|split]]]].
  - unfold PageBreak.handlePageBreak, PageBreak.splitBlock.
    rewrite Hpage, Hblock. by rewrite (trim_truthy _ Hws).
  - unfold page'. rewrite lookup_app_r by lia. by rewrite Hlen, Nat.sub_diag.
  - unfold page'. rewrite lookup_app_r by lia. rewrite Hlen.
    by replace (S blockIndex - blockIndex)%nat with 1%nat by lia.
  - unfold page'. rewrite lookup_app_r by lia. rewrite Hlen.
    by replace (S (S blockIndex) - blockIndex)%nat with 2%nat by lia.
  - unfold page'. rewrite <- (take_drop_middle _ _ _ Hblock) at 3.
    rewrite !pageText_app. f_equal.
    rewrite (pageText_cons block). f_equal.
    rewrite <- (clone_text_split k off (content block)).
    unfold PageBreak.pageText. cbn [foldr content kept new pageBreak].
    change (Format.textContent []) with EmptyString.
    change (String.app EmptyString ?s) with s.
    by rewrite string_app_nil_r.
  - unfold page'. rewrite <- (take_drop_middle _ _ _ Hblock) at 3.
    rewrite !length_app. simpl. lia.
Qed.

Lemma page_break_splits_block_witness :
  PageBreak.handlePageBreak "pb" "n" 0 0 0 2
    [[ {| blockId := "b"; isPageBreak := false; content := Examples.plainText |} ]]
  = [[ {| blockId := "b"; isPageBreak := false; content := [TextNode "ab"] |};
       {| blockId := "pb"; isPageBreak := true; content := [] |};
       {| blockId := "n"; isPageBreak := false; content := [TextNode "cdefg"] |} ]].
Proof.
  pose proof (page_break_splits_block "pb" "n" 0 0 0 2
                [[ {| blockId := "b"; isPageBreak := false; content := Examples.plainText |} ]]
                [ {| blockId := "b"; isPageBreak := false; content := Examples.plainText |} ]
                {| blockId := "b"; isPageBreak := false; content := Examples.plainText |}
                eq_refl eq_refl eq_refl) as [H _].
  exact H.
Defined.

(** X10: [handlePageBreak] changes one block of one page.  The number of
    pages and all the other pages stay as they are; on the page of the
    cursor the blocks in front of the block of the cursor and the blocks
    behind it stay as they are, the block keeps its id and its mark, and
    right behind it comes the page break: an element marked as page break,
    with the given id and without content.  Behind the page break comes at
    most one new block, which is no page break and has the other id.  When
    the indices name no block, nothing changes. *)
Theorem page_break_frame pageBreakId newBlockId pageIndex blockIndex k off (pages : Pages) :
  let pages' :=
    PageBreak.handlePageBreak pageBreakId newBlockId pageIndex blockIndex k off pages in
  length pages' = length pages
  /\ (forall i, i <> pageIndex -> pages' !! i = pages !! i)
  /\ (forall page block,
        pages !! pageIndex = Some page -> page !! blockIndex = Some block ->
        exists page' kept,
          pages' !! pageIndex = Some page'
          /\ take blockIndex page' = take blockIndex page
          /\ page' !! blockIndex = Some kept
          /\ blockId kept = blockId block /\ isPageBreak kept = isPageBreak block
          /\ page' !! S blockIndex
             = Some {| blockId := pageBreakId; isPageBreak := true; content := [] |}
          /\ (drop (blockIndex + 2) page' = drop (S blockIndex) page
              \/ exists new,
                   page' !! (blockIndex + 2)%nat = Some new
                   /\ blockId new = newBlockId /\ isPageBreak new = false
                   /\ drop (blockIndex + 3) page' = drop (S blockIndex) page))
  /\ ((forall page, pages !! pageIndex = Some page -> page !! blockIndex = None) ->
      pages' = pages).
Proof.
  intros pages'. unfold pages', PageBreak.handlePageBreak.
  split; [|split; [|split]].
  - destruct (pages !! pageIndex) as [page|]; [|done].
    destruct (page !! blockIndex); [|done]. apply length_insert.
  - intros i Hi.
    destruct (pages !! pageIndex) as [page|]; [|done].
    destruct (page !! blockIndex); [|done]. by apply list_lookup_insert_ne.
  - intros page block Hpage Hblock. rewrite Hpage, Hblock.
    pose proof (lookup_lt_Some _ _ _ Hpage) as Hp.
    pose proof (lookup_lt_Some _ _ _ Hblock) as Hb.
    eexists _, _. split; [by apply list_lookup_insert_eq|].
    assert (length (take blockIndex page) = blockIndex) as Hlen
      by (rewrite length_take; lia).
    split; [by rewrite take_app_length'|].
    unfold PageBreak.splitBlock.
    destruct (PageBreak.truthy _).
    + split; [by rewrite lookup_app_r, Hlen, Nat.sub_diag by lia|].
      split; [done|]. split; [done|].
      split; [rewrite lookup_app_r by lia; rewrite Hlen;
              by replace (S blockIndex - blockIndex)%nat with 1%nat by lia|].
      right. eexists. split.
      { rewrite lookup_app_r by lia. rewrite Hlen.
        by replace (blockIndex + 2 - blockIndex)%nat with 2%nat by lia. }
      split; [done|]. split; [done|].
      rewrite drop_app_ge by lia. rewrite Hlen.
      by replace (blockIndex + 3 - blockIndex)%nat with 3%nat by lia.
    + split; [by rewrite lookup_app_r, Hlen, Nat.sub_diag by lia|].
      split; [done|]. split; [done|].
      split; [rewrite lookup_app_r by lia; rewrite Hlen;
              by replace (S blockIndex - blockIndex)%nat with 1%nat by lia|].
      left. rewrite drop_app_ge by lia. rewrite Hlen.
      by replace (blockIndex + 2 - blockIndex)%nat with 2%nat by lia.
  - intros Hnone. destruct (pages !! pageIndex) as [page|]; [|done].
    by rewrite (Hnone page eq_refl).
Qed.

Lemma page_break_frame_witness :
  length (PageBreak.handlePageBreak "pb" "n" 0 0 1 2 [[Examples.greeting]; [Examples.blk "d"]])
  = 2%nat
  /\ PageBreak.handlePageBreak "pb" "n" 0 0 1 2 [[Examples.greeting]; [Examples.blk "d"]]
       !! 1%nat = Some [Examples.blk "d"]
  /\ (exists page' kept,
        PageBreak.handlePageBreak "pb" "n" 0 0 1 2 [[Examples.greeting]; [Examples.blk "d"]]
          !! 0%nat = Some page'
        /\ page' !! 0%nat = Some kept
        /\ blockId kept = "g"
        /\ page' !! 1%nat = Some {| blockId := "pb"; isPageBreak := true; content := [] |})
  /\ PageBreak.handlePageBreak "pb" "n" 0 3 1 2 [[Examples.greeting]; [Examples.blk "d"]]
     = [[Examples.greeting]; [Examples.blk "d"]].
Proof.
  pose proof (page_break_frame "pb" "n" 0 0 1 2 [[Examples.greeting]; [Examples.blk "d"]])
    as (Hlen & Hother & Hpage & _).
  pose proof (page_break_frame "pb" "n" 0 3 1 2 [[Examples.greeting]; [Examples.blk "d"]])
    as (_ & _ & _ & Hnone).
  split; [exact Hlen|]. split; [apply (Hother 1%nat); lia|]. split.
  - destruct (Hpage [Examples.greeting] Examples.greeting eq_refl eq_refl)
      as (page' & kept & H1 & _ & H2 & H3 & _ & H4 & _).
    exists page', kept. split; [exact H1|]. split; [exact H2|]. split; [exact H3|exact H4].
  - apply Hnone. intros page Hpage'. injection Hpage' as <-. reflexivity.
Defined.



(** ** Inline formatting keeps the text *)

Section FormatText.

Import Format.

Lemma textContent_nil : textContent [] = EmptyString.
Proof. done. Qed.

Lemma textContent_cons n (cs : list Node) :
  textContent (n :: cs) = String.app (textContent [n]) (textContent cs).
Proof. apply (textContent_app [n] cs). Qed.

Lemma substring_nil n m : String.substring n m EmptyString = EmptyString.
Proof. by destruct n, m. Qed.

Lemma substring_0_0 s : String.substring 0 0 s = EmptyString.
Proof. by destruct s. Qed.

(** The three parts that [breakSelectionIntoCharacterNodes] cuts a text
    into make up the text. *)
Lemma substring_three a b s :
  (a <= b)%nat ->
  String.app (String.substring 0 a s)
    (String.app (String.substring a (b - a) s)
       (String.substring b (String.length s - b) s)) = s.
Proof.
  revert a b. induction s as [|c s IH]; intros a b Hab.
  - by rewrite !substring_nil.
  - destruct a as [|a].
    + rewrite substring_0_0. change (String.app EmptyString ?x) with x.
      rewrite Nat.sub_0_r. apply substring_split.
    + destruct b as [|b]; [lia|].
      cbn [String.substring String.length].
      change (String c (String.app (String.substring 0 a s)
                (String.app (String.substring a (b - a) s)
                   (String.substring b (String.length s - b) s))) = String c s).
      f_equal. apply IH. lia.
Qed.

Lemma chars_text (wrap : string -> Node) s :
  (forall char, textContent [wrap char] = char) ->
  textContent (map wrap (chars s)) = s.
Proof.
  intros Hwrap. induction s as [|c s IH]; [done|].
  cbn [chars map]. rewrite textContent_cons, Hwrap, IH. done.
Qed.

Lemma breakTextNode_text start stop existingFormats k text :
  textContent (breakTextNode start stop existingFormats k text) = text.
Proof.
  unfold breakTextNode.
  set (startOffset :=
         match start with Some (c, o) => if (c =? k)%nat then o else 0%nat | None => 0%nat end).
  set (endOffset :=
         match stop with
         | Some (c, o) => if (c =? k)%nat then o else String.length text
         | None => String.length text
         end).
  destruct (_ && _ && (startOffset <? endOffset)%nat && _) eqn:E;
    [|apply textContent_text].
  apply andb_true_iff in E as [E _]. apply andb_true_iff in E as [_ E].
  apply Nat.ltb_lt in E.
  rewrite !textContent_app.
  rewrite (chars_text _ (String.substring startOffset (endOffset - startOffset) text)).
  2:{ intros char. destruct existingFormats; [apply textContent_text|].
      rewrite textContent_span. apply textContent_text. }
  assert (forall s, textContent (if (String.length s =? 0)%nat then [] else [TextNode s]) = s)
    as Hopt.
  { intros s. destruct s; [done|]. apply textContent_text. }
  rewrite !Hopt. apply substring_three. lia.
Qed.

Lemma breakNode_text start stop n :
  forall ancestors k,
    textContent (breakNode start stop ancestors n k).1 = textContent [n].
Proof.
  induction n as [data|f children IH] using Node_children_ind; intros ancestors k.
  - cbn [breakNode fst]. rewrite breakTextNode_text. symmetry. apply textContent_text.
  - cbn [breakNode].
    match goal with
    | |- context [let '(_, _) := ?go children k in _] =>
        assert (forall k, textContent (go children k).1 = textContent children) as Hgo
    end.
    { clear k. induction IH as [|c rest Hc _ IHrest]; intros k; [done|].
      specialize (Hc (f :: ancestors) k).
      destruct (breakNode start stop (f :: ancestors) c k) as [c' k1].
      specialize (IHrest k1).
      match goal with
      | H : textContent (?g rest k1).1 = _ |- _ => destruct (g rest k1) as [rest' k2]
      end.
      cbn [fst] in *. rewrite textContent_app, Hc, IHrest.
      symmetry. apply textContent_cons. }
    specialize (Hgo k).
    match goal with
    | H : textContent (?g children k).1 = _ |- _ => destruct (g children k) as [children' k']
    end.
    cbn [fst] in *. by rewrite !textContent_span.
Qed.

Lemma breakNodes_text start stop cs k :
  textContent (breakNodes start stop cs k).1 = textContent cs.
Proof.
  revert k. induction cs as [|c rest IH]; intros k; [done|].
  cbn [breakNodes].
  pose proof (breakNode_text start stop c [] k) as Hc.
  destruct (breakNode start stop [] c k) as [c' k1].
  specialize (IH k1). destruct (breakNodes start stop rest k1) as [rest' k2].
  cbn [fst] in *. rewrite textContent_app, Hc, IH. symmetry. apply textContent_cons.
Qed.

Lemma updateNode_text shouldRemove format a b n :
  forall inSpan pos,
    textContent (updateNode shouldRemove format a b inSpan n pos).1.1 = textContent [n].
Proof.
  induction n as [data|f children IH] using Node_children_ind; intros inSpan pos.
  - cbn [updateNode]. destruct (_ && _ && _); cbn [fst]; [|done].
    by rewrite textContent_span.
  - cbn [updateNode].
    match goal with
    | |- context [match ?go children pos with (_, _) => _ end] =>
        assert (forall pos, textContent (go children pos).1.1 = textContent children) as Hgo
    end.
    { clear pos. induction IH as [|c rest Hc _ IHrest]; intros pos; [done|].
      specialize (Hc true pos).
      destruct (updateNode shouldRemove format a b true c pos) as [[c' p1] h1].
      specialize (IHrest p1).
      match goal with
      | H : textContent (?g rest p1).1.1 = _ |- _ => destruct (g rest p1) as [[rest' p2] h2]
      end.
      cbn [fst] in *. rewrite textContent_app, Hc, IHrest.
      symmetry. apply textContent_cons. }
    specialize (Hgo pos).
    match goal with
    | H : textContent (?g children pos).1.1 = _ |- _ =>
        destruct (g children pos) as [[children' pos'] hit]
    end.
    cbn [fst] in *. rewrite (textContent_span f children).
    destruct hit; [|by cbn [fst]; rewrite textContent_span].
    destruct (updatedFormats shouldRemove format f); cbn [fst]; [done|].
    by rewrite textContent_span.
Qed.

Lemma updateNodes_text shouldRemove format a b cs pos :
  textContent (updateNodes shouldRemove format a b cs pos) = textContent cs.
Proof.
  revert pos. induction cs as [|c rest IH]; intros pos; [done|].
  cbn [updateNodes].
  pose proof (updateNode_text shouldRemove format a b c false pos) as Hc.
  destruct (updateNode shouldRemove format a b false c pos) as [[c' p1] h1].
  cbn [fst] in Hc. rewrite textContent_app, Hc, IH. symmetry. apply textContent_cons.
Qed.

End FormatText.

(** X12: [applyFormat] never changes the text of the block: whatever the
    format and the selection, the text content afterwards is the text
    content before. *)
Theorem applyFormat_keeps_text format r (block : list Node) :
  Format.textContent (Format.applyFormat format r block) = Format.textContent block.
Proof.
  unfold Format.applyFormat. destruct (Format.collapsed r); [done|].
  rewrite updateNodes_text. apply breakNodes_text.
Qed.

(** ** Formatting a selection inside a plain text node *)

Section PlainText.

Import Format.

Lemma length_substring a n s :
  (a + n <= String.length s)%nat -> String.length (String.substring a n s) = n.
Proof.
  revert a n. induction s as [|c s IH]; intros a n H; simpl in H.
  - assert (a = 0 /\ n = 0)%nat as [-> ->] by lia. done.
  - destruct a as [|a]; simpl.
    + destruct n as [|n]; [done|]. simpl. f_equal.
      apply (IH 0%nat n). lia.
    + apply IH. lia.
Qed.

Lemma length_chars s : length (chars s) = String.length s.
Proof. induction s as [|c s IH]; [done|]. simpl. by rewrite IH. Qed.

Lemma chars_single s : String.length s = 1%nat -> chars s = [s].
Proof. destruct s as [|c [|d s]]; done. Qed.

Lemma updateNodes_chars format a b t (rest : list Node) p :
  (a <= p)%nat -> (p + String.length t <= b)%nat ->
  updateNodes false format a b (map TextNode (chars t) ++ rest) p
  = map (fun char => SpanNode [format] [TextNode char]) (chars t)
    ++ updateNodes false format a b rest (p + String.length t).
Proof.
  revert p. induction t as [|c t IH]; intros p Hap Hpb.
  - simpl. by rewrite Nat.add_0_r.
  - cbn [chars map app updateNodes updateNode String.length] in *.
    unfold toUpdate. cbn [String.length].
    replace (p <? b)%nat with true by (symmetry; apply Nat.ltb_lt; lia).
    replace (a <? p + 1)%nat with true by (symmetry; apply Nat.ltb_lt; lia).
    replace (a <=? p)%nat with true by (symmetry; apply Nat.leb_le; lia).
    cbn [andb negb Nat.eqb app]. f_equal.
    rewrite IH by lia. do 2 f_equal. lia.
Qed.

Lemma updateNodes_outside format a b s (rest : list Node) p :
  (p + String.length s <= a \/ b <= p)%nat ->
  updateNodes false format a b (optText s ++ rest) p
  = optText s ++ updateNodes false format a b rest (p + String.length s).
Proof.
  intros H. unfold optText. destruct (String.length s =? 0)%nat eqn:E.
  - apply Nat.eqb_eq in E. rewrite E, Nat.add_0_r. done.
  - cbn [app updateNodes updateNode]. unfold toUpdate.
    destruct H as [H|H].
    + replace (a <? p + String.length s)%nat with false
        by (symmetry; apply Nat.ltb_ge; lia).
      by rewrite andb_false_r.
    + replace (p <? b)%nat with false by (symmetry; apply Nat.ltb_ge; lia).
      done.
Qed.

End PlainText.

(** The result of [applyFormat] on a selection inside a plain text node. *)
Lemma applyFormat_plain_text_shape format a b s :
  (a < b)%nat -> (b <= String.length s)%nat ->
  Format.applyFormat format (Format.mkRange 0 a 0 b) [TextNode s]
  = optText (String.substring 0 a s)
    ++ map (fun char => SpanNode [format] [TextNode char])
         (Format.chars (String.substring a (b - a) s))
    ++ optText (String.substring b (String.length s - b) s).
Proof.
  intros Hab Hb.
  unfold Format.applyFormat, Format.collapsed. cbn [Format.startContainer
    Format.endContainer Format.startOffset Format.endOffset].
  replace (a =? b)%nat with false by (symmetry; apply Nat.eqb_neq; lia).
  cbn [Nat.eqb andb].
  unfold Format.getActiveFormats, Format.charIndex, Format.walkText.
  cbn [Format.startContainer Format.endContainer Nat.eqb flat_map Format.textNodesOf
       app lookup list_lookup map fst Format.charsBefore Format.includes].
  unfold Format.includes. rewrite bool_decide_eq_false_2 by apply not_elem_of_nil.
  cbn [Nat.add Format.findBoundary].
  replace (a <=? String.length s)%nat with true by (symmetry; apply Nat.leb_le; lia).
  replace (b <=? String.length s)%nat with true by (symmetry; apply Nat.leb_le; lia).
  rewrite !Nat.sub_0_r, !Nat.max_0_l, !Nat.min_l by lia.
  unfold Format.breakSelectionIntoCharacterNodes.
  cbn [Format.breakNodes Format.breakNode fst app].
  unfold Format.breakTextNode. cbn [concat Format.sortFormats].
  rewrite !Nat.leb_refl, !Nat.eqb_refl.
  replace (a <? b)%nat with true by (symmetry; apply Nat.ltb_lt; lia).
  cbn [andb].
  destruct (String.length s =? 1)%nat eqn:E1; cbn [negb].
  - apply Nat.eqb_eq in E1. assert (a = 0 /\ b = 1)%nat as [-> ->] by lia.
    rewrite <- E1 at 2. rewrite Nat.sub_0_r, substring_all, E1, (chars_single s E1).
    destruct s as [|c [|d s]]; try done.
  - rewrite app_nil_r.
    fold (optText (String.substring 0 a s)).
    fold (optText (String.substring b (String.length s - b) s)).
    rewrite (updateNodes_outside format a b _ _ 0%nat)
      by (left; rewrite length_substring; lia).
    rewrite length_substring by lia. f_equal.
    change (Format.sortFormats []) with (@nil FormatType). cbv iota.
    rewrite (updateNodes_chars format a b) by (rewrite ?length_substring; lia).
    f_equal. rewrite length_substring by lia.
    rewrite <- (app_nil_r (optText _)) at 1.
    rewrite (updateNodes_outside format a b _ [] (0 + a + (b - a))%nat) by (right; lia).
    simpl. by rewrite app_nil_r.
Qed.

(** X13: formatting the characters [a] to [b] of a plain text node leaves
    one span per selected character: the text in front of the selection (if
    any), then for every selected character a span with the format that
    holds this character alone, then the text behind the selection (if
    any).  The spans are never merged. *)
Theorem applyFormat_plain_text_one_span_per_character format a b s :
  (a < b)%nat -> (b <= String.length s)%nat ->
  Format.applyFormat format (Format.mkRange 0 a 0 b) [TextNode s]
  = optText (String.substring 0 a s)
    ++ map (fun char => SpanNode [format] [TextNode char])
         (Format.chars (String.substring a (b - a) s))
    ++ optText (String.substring b (String.length s - b) s)
  /\ length (Format.chars (String.substring a (b - a) s)) = (b - a)%nat.
Proof.
  intros Hab Hb. split; [by apply applyFormat_plain_text_shape|].
  by rewrite length_chars, length_substring by lia.
Qed.

Lemma applyFormat_plain_text_one_span_per_character_witness :
  Format.applyFormat bold (Format.mkRange 0 2 0 5) [TextNode "abcdefg"]
  = [TextNode "ab"; SpanNode [bold] [TextNode "c"]; SpanNode [bold] [TextNode "d"];
     SpanNode [bold] [TextNode "e"]; TextNode "fg"].
Proof.
  pose proof (applyFormat_plain_text_one_span_per_character bold 2 5 "abcdefg"
                ltac:(lia) ltac:(simpl; lia)) as [H _].
  exact H.
Defined.

(** ** Merging neighbours with the same format *)

Section MergeFacts.

Import Format Merge.

Lemma length_string_app s t :
  String.length (String.app s t) = (String.length s + String.length t)%nat.
Proof.
  induction s as [|c s IH]; [done|].
  change (S (String.length (String.app s t)) = S (String.length s + String.length t)).
  by rewrite IH.
Qed.

Lemma mergeSpans_text currentFormat currentChildren rest :
  String.app (textContent (mergeSpans currentFormat currentChildren rest).1)
    (textContent (mergeSpans currentFormat currentChildren rest).2)
  = String.app (textContent currentChildren) (textContent rest).
Proof.
  revert currentChildren. induction rest as [|n rest IH]; intros currentChildren; [done|].
  destruct n as [t|f cs]; [done|]. cbn [mergeSpans].
  destruct (sameFormat _ _); [|done].
  rewrite IH, textContent_app, (textContent_cons (SpanNode f cs)), textContent_span.
  by rewrite string_app_assoc.
Qed.

Lemma mergeSpans_length currentFormat currentChildren rest :
  (length (mergeSpans currentFormat currentChildren rest).2 <= length rest)%nat.
Proof.
  revert currentChildren. induction rest as [|n rest IH]; intros currentChildren; [done|].
  destruct n as [t|f cs]; [done|]. cbn [mergeSpans].
  destruct (sameFormat _ _); [|done]. specialize (IH (currentChildren ++ cs)).
  simpl. lia.
Qed.

(** Induction over a list two elements at a time. *)
Lemma list_pair_ind {A} (P : list A -> Prop) :
  P [] -> (forall x, P [x]) -> (forall x y l, P l -> P (x :: y :: l)) ->
  forall l, P l.
Proof.
  intros Hnil Hone Hstep l.
  assert (P l /\ forall x, P (x :: l)) as [H _]; [|done].
  induction l as [|y l [IH1 IH2]]; [by split|].
  split; [apply IH2|]. intros x. by apply Hstep.
Qed.

Lemma mergeTexts_cases currentText rest :
  (mergeTexts currentText rest = (currentText, rest)
   /\ match rest with TextNode _ :: _ => False | _ => True end)
  \/ exists nextText rest',
       rest = TextNode nextText :: rest'
       /\ ((rest' = []
            /\ mergeTexts currentText rest = (String.app currentText nextText, []))
           \/ exists skipped rest'',
                rest' = skipped :: rest''
                /\ mergeTexts currentText rest
                   = ((mergeTexts (String.app currentText nextText) rest'').1,
                      skipped :: (mergeTexts (String.app currentText nextText) rest'').2)).
Proof.
  destruct rest as [|[t|f cs] rest']; [by left|right|by left].
  exists t, rest'. split; [done|].
  destruct rest' as [|skipped rest'']; [by left|right].
  exists skipped, rest''. split; [done|].
  cbn [mergeTexts]. by destruct (mergeTexts (String.app currentText t) rest'').
Qed.

Lemma mergeTexts_length_text currentText rest :
  (String.length (mergeTexts currentText rest).1
   + String.length (textContent (mergeTexts currentText rest).2)
   = String.length currentText + String.length (textContent rest))%nat
  /\ (length (mergeTexts currentText rest).2 <= length rest)%nat.
Proof.
  revert currentText. induction rest as [| x | x y rest IH] using list_pair_ind;
    intros currentText.
  - done.
  - destruct x as [t|f cs]; [|done]. cbn [mergeTexts fst snd]. split; [|simpl; lia].
    rewrite length_string_app, textContent_text. simpl. lia.
  - destruct x as [t|f cs]; [|done].
    cbn [mergeTexts]. specialize (IH (String.app currentText t)).
    destruct (mergeTexts (String.app currentText t) rest) as [text remaining].
    cbn [fst snd] in *. destruct IH as [IH1 IH2]. split; [|simpl; lia].
    rewrite (textContent_cons y), (textContent_cons (TextNode t)),
      (textContent_cons y rest), !length_string_app, textContent_text in *. lia.
Qed.

Lemma mergeLoop_text_length fuel children :
  (length children <= fuel)%nat ->
  String.length (textContent (mergeLoop fuel children))
  = String.length (textContent children).
Proof.
  revert children. induction fuel as [|fuel IH]; intros children Hfuel.
  - by destruct children.
  - destruct children as [|[t|f cs] rest]; [done| |]; cbn [mergeLoop].
    + pose proof (mergeTexts_length_text t rest) as [H1 H2].
      destruct (mergeTexts t rest) as [text remaining]. cbn [fst snd] in *.
      rewrite textContent_cons, length_string_app, IH by (simpl in Hfuel; lia).
      rewrite (textContent_cons (TextNode t)), length_string_app, !textContent_text. lia.
    + pose proof (mergeSpans_text (normalizeFormat f) cs rest) as H1.
      pose proof (mergeSpans_length (normalizeFormat f) cs rest) as H2.
      destruct (mergeSpans (normalizeFormat f) cs rest) as [cs' rest']. cbn [fst snd] in *.
      rewrite textContent_cons, length_string_app, IH by (simpl in Hfuel; lia).
      rewrite (textContent_cons (SpanNode f cs)), length_string_app, !textContent_span.
      rewrite <- !length_string_app. by rewrite H1.
Qed.

(** Unwrapping nested spans yields text nodes only and keeps the text. *)
Lemma unwrapNode_spec n :
  forall parentFormat,
    Forall (fun c => exists t, c = TextNode t) (unwrapNode parentFormat n).2
    /\ textContent (unwrapNode parentFormat n).2 = textContent [n].
Proof.
  induction n as [t|f children IH] using Node_children_ind; intros parentFormat.
  - split; [|done]. repeat constructor. by exists t.
  - cbn [unwrapNode]. rewrite textContent_span.
    generalize (mergedFormat parentFormat f). clear parentFormat.
    induction IH as [|c rest Hc _ IHrest]; intros pf; [by split|].
    destruct (Hc pf) as [Hc1 Hc2].
    destruct (unwrapNode pf c) as [pf1 c']. cbn [snd] in *.
    destruct (IHrest pf1) as [Hr1 Hr2].
    match goal with
    | H : Forall _ (?g pf1 rest).2 |- _ => destruct (g pf1 rest) as [pf2 rest']
    end.
    cbn [snd] in *. split; [by apply Forall_app|].
    by rewrite textContent_app, Hc2, Hr2, <- textContent_cons.
Qed.

Lemma unwrapChildren_spec cs :
  forall parentFormat,
    Forall (fun c => exists t, c = TextNode t) (unwrapChildren parentFormat cs).2
    /\ textContent (unwrapChildren parentFormat cs).2 = textContent cs.
Proof.
  induction cs as [|c rest IH]; intros pf; [by split|].
  cbn [unwrapChildren].
  destruct (unwrapNode_spec c pf) as [Hc1 Hc2].
  destruct (unwrapNode pf c) as [pf1 c']. cbn [snd] in *.
  destruct (IH pf1) as [Hr1 Hr2].
  destruct (unwrapChildren pf1 rest) as [pf2 rest']. cbn [snd] in *.
  split; [by apply Forall_app|].
  by rewrite textContent_app, Hc2, Hr2, <- textContent_cons.
Qed.

Lemma unwrapNested_text n : textContent [unwrapNested n] = textContent [n].
Proof.
  destruct n as [t|f cs]; [done|]. unfold unwrapNested.
  destruct (unwrapChildren_spec cs f) as [_ H].
  destruct (unwrapChildren f cs) as [f' cs']. cbn [snd] in H.
  by rewrite !textContent_span.
Qed.

Lemma map_unwrapNested_text cs : textContent (map unwrapNested cs) = textContent cs.
Proof.
  induction cs as [|c cs IH]; [done|].
  cbn [map]. by rewrite textContent_cons, unwrapNested_text, IH, <- textContent_cons.
Qed.

Lemma unwrapChildren_texts parentFormat ts :
  unwrapChildren parentFormat (map TextNode ts) = (parentFormat, map TextNode ts).
Proof.
  induction ts as [|t ts IH]; [done|]. cbn [map unwrapChildren unwrapNode]. by rewrite IH.
Qed.

End MergeFacts.

Section MergeOrder.

Import Format Merge.

Lemma mergeSpans_suffix currentFormat currentChildren rest :
  exists k, (mergeSpans currentFormat currentChildren rest).2 = drop k rest.
Proof.
  revert currentChildren. induction rest as [|n rest IH]; intros currentChildren.
  - by exists 0%nat.
  - destruct n as [t|f cs]; [by exists 0%nat|]. cbn [mergeSpans].
    destruct (sameFormat _ _); [|by exists 0%nat].
    destruct (IH (currentChildren ++ cs)) as [k Hk]. exists (S k). by rewrite Hk.
Qed.

Lemma mergeLoop_text fuel children :
  (length children <= fuel)%nat ->
  (forall i t u, children !! i = Some (TextNode t) ->
                 children !! S i = Some (TextNode u) -> False) ->
  textContent (mergeLoop fuel children) = textContent children.
Proof.
  revert children. induction fuel as [|fuel IH]; intros children Hfuel Hadj.
  - by destruct children.
  - destruct children as [|[t|f cs] rest]; [done| |]; cbn [mergeLoop].
    + assert (mergeTexts t rest = (t, rest)) as ->.
      { destruct rest as [|[u|g ds] rest']; [done| |done].
        destruct (Hadj 0%nat t u eq_refl eq_refl). }
      rewrite textContent_cons, IH, <- textContent_cons; [done|simpl in Hfuel; lia|].
      intros i t' u Hi Hsi. exact (Hadj (S i) t' u Hi Hsi).
    + pose proof (mergeSpans_text (normalizeFormat f) cs rest) as H1.
      pose proof (mergeSpans_length (normalizeFormat f) cs rest) as H2.
      destruct (mergeSpans_suffix (normalizeFormat f) cs rest) as [k Hk].
      destruct (mergeSpans (normalizeFormat f) cs rest) as [cs' rest']. cbn [fst snd] in *.
      rewrite textContent_cons, IH; [|simpl in Hfuel; lia|].
      * by rewrite textContent_span, H1, (textContent_cons (SpanNode f cs)), textContent_span.
      * subst rest'. intros i t u Hi Hsi. rewrite lookup_drop in Hi, Hsi.
        apply (Hadj (S (k + i)) t u Hi). by rewrite <- Nat.add_succ_r.
Qed.

Lemma normalizeFormat_single format : normalizeFormat [format] = [format].
Proof. by destruct format. Qed.

Lemma mergeSpans_chars format acc ts (rest : list Node) :
  match rest with SpanNode _ _ :: _ => False | _ => True end ->
  mergeSpans [format] acc
    (map (fun char => SpanNode [format] [TextNode char]) ts ++ rest)
  = (acc ++ map TextNode ts, rest).
Proof.
  intros Hrest. revert acc. induction ts as [|t ts IH]; intros acc.
  - simpl. rewrite app_nil_r. by destruct rest as [|[u|g ds] rest'].
  - cbn [map app mergeSpans]. rewrite normalizeFormat_single.
    unfold sameFormat. rewrite bool_decide_eq_true_2 by done. cbn [length Nat.eqb negb andb].
    rewrite IH, <- app_assoc. done.
Qed.

Lemma mergeLoop_text_span fuel t f cs (rest : list Node) :
  mergeLoop (S fuel) (TextNode t :: SpanNode f cs :: rest)
  = TextNode t :: mergeLoop fuel (SpanNode f cs :: rest).
Proof. done. Qed.

Lemma mergeLoop_optText fuel s :
  mergeLoop fuel (optText s) = optText s.
Proof.
  unfold optText. destruct (String.length s =? 0)%nat; [by destruct fuel|].
  destruct fuel as [|[|fuel]]; done.
Qed.

End MergeOrder.

(** X14: [mergeAdjacentNodesWithSameFormatting] neither loses nor adds a
    character: the text of the block has the length it had before.  When no
    two neighbours among the children of the block are text nodes, the text
    itself is what it was. *)
Theorem merge_keeps_characters (block : list Node) :
  String.length (Format.textContent (Merge.mergeAdjacentNodesWithSameFormatting block))
  = String.length (Format.textContent block)
  /\ ((forall i t u, block !! i = Some (TextNode t) ->
                     block !! S i = Some (TextNode u) -> False) ->
      Format.textContent (Merge.mergeAdjacentNodesWithSameFormatting block)
      = Format.textContent block).
Proof.
  unfold Merge.mergeAdjacentNodesWithSameFormatting. rewrite map_unwrapNested_text.
  split; [by apply mergeLoop_text_length|]. intros Hadj. by apply mergeLoop_text.
Qed.

Lemma merge_keeps_characters_witness :
  Format.textContent (Merge.mergeAdjacentNodesWithSameFormatting Examples.italicWord)
  = Format.textContent Examples.italicWord.
Proof.
  apply (merge_keeps_characters Examples.italicWord).
  intros [|[|[|i]]] t u Hi Hsi; discriminate.
Defined.

(** X15: a text node that follows a merged text node is stepped over, and
    so is a span: the text behind the span is joined to the text in front of
    it, and the text of the block changes its order.  Of four text nodes in
    a row the third one is left out of the first. *)
Theorem merge_text_jumps_over_neighbour a b c d f (cs : list Node) :
  Merge.mergeAdjacentNodesWithSameFormatting
    [TextNode a; TextNode b; SpanNode f cs; TextNode c]
  = [TextNode (String.app (String.app a b) c); Merge.unwrapNested (SpanNode f cs)]
  /\ Format.textContent
       (Merge.mergeAdjacentNodesWithSameFormatting
          [TextNode a; TextNode b; SpanNode f cs; TextNode c])
     = String.app (String.app (String.app a b) c) (Format.textContent cs)
  /\ Merge.mergeAdjacentNodesWithSameFormatting
       [TextNode a; TextNode b; TextNode c; TextNode d]
     = [TextNode (String.app (String.app a b) d); TextNode c].
Proof.
  split; [done|]. split; [|done].
  change (Merge.mergeAdjacentNodesWithSameFormatting
            [TextNode a; TextNode b; SpanNode f cs; TextNode c])
    with [TextNode (String.app (String.app a b) c); Merge.unwrapNested (SpanNode f cs)].
  rewrite textContent_cons, textContent_text, unwrapNested_text.
  by rewrite textContent_span.
Qed.

(** X16: had step 3 of [applyFormat] been left in, the one character spans
    of a formatted selection inside a plain text node would have become one
    span: the text in front of the selection, one span with the format that
    holds the selected characters, the text behind the selection. *)
Theorem merge_after_applyFormat_plain_text format a b s :
  (a < b)%nat -> (b <= String.length s)%nat ->
  Merge.mergeAdjacentNodesWithSameFormatting
    (Format.applyFormat format (Format.mkRange 0 a 0 b) [TextNode s])
  = optText (String.substring 0 a s)
    ++ [SpanNode [format] (map TextNode (Format.chars (String.substring a (b - a) s)))]
    ++ optText (String.substring b (String.length s - b) s).
Proof.
  intros Hab Hb. rewrite applyFormat_plain_text_shape by done.
  assert (exists c ts, Format.chars (String.substring a (b - a) s) = c :: ts) as (c & ts & ->).
  { pose proof (length_chars (String.substring a (b - a) s)) as Hl.
    rewrite length_substring in Hl by lia.
    destruct (Format.chars _) as [|c ts]; [simpl in Hl; lia|eauto]. }
  unfold Merge.mergeAdjacentNodesWithSameFormatting.
  set (before := String.substring 0 a s).
  set (after := String.substring b (String.length s - b) s).
  set (spans := map (fun char => SpanNode [format] [TextNode char]) ts).
  assert (forall fuel,
             (S (length spans + length (optText after)) <= fuel)%nat ->
             Merge.mergeLoop fuel
               (SpanNode [format] [TextNode c] :: spans ++ optText after)
             = SpanNode [format] (map TextNode (c :: ts)) :: optText after) as Hspans.
  { intros [|fuel] Hfuel; [lia|]. cbn [Merge.mergeLoop].
    rewrite normalizeFormat_single.
    unfold spans. rewrite mergeSpans_chars
      by (unfold optText; by destruct (String.length after =? 0)%nat).
    by rewrite mergeLoop_optText. }
  assert (map Merge.unwrapNested (optText before) = optText before) as Hb1.
  { unfold optText. by destruct (String.length before =? 0)%nat. }
  assert (map Merge.unwrapNested (optText after) = optText after) as Ha1.
  { unfold optText. by destruct (String.length after =? 0)%nat. }
  cbn [map app]. fold spans.
  assert (optText before = [] \/ optText before = [TextNode before]) as [-> | ->].
  { unfold optText. destruct (String.length before =? 0)%nat; auto. }
  - cbn [app length]. rewrite Hspans by (rewrite length_app; lia).
    rewrite (map_cons Merge.unwrapNested). unfold Merge.unwrapNested at 1.
    rewrite unwrapChildren_texts, Ha1. done.
  - cbn [app length]. rewrite mergeLoop_text_span.
    rewrite Hspans by (rewrite length_app; lia).
    rewrite !(map_cons Merge.unwrapNested). unfold Merge.unwrapNested at 1 2.
    rewrite unwrapChildren_texts, Ha1. done.
Qed.

Lemma merge_after_applyFormat_plain_text_witness :
  Merge.mergeAdjacentNodesWithSameFormatting
    (Format.applyFormat bold (Format.mkRange 0 2 0 5) [TextNode "abcdefg"])
  = [TextNode "ab"; SpanNode [bold] [TextNode "c"; TextNode "d"; TextNode "e"];
     TextNode "fg"].
Proof.
  apply (merge_after_applyFormat_plain_text bold 2 5 "abcdefg"); simpl; lia.
Defined.

(** X17: [mergeAdjacentNodesWithSameFormatting] leaves no span inside a
    span: every child of the block is then a text node or a span that holds
    text nodes only. *)
Theorem merge_leaves_no_nested_span (block : list Node) :
  Forall (fun n =>
            match n with
            | TextNode _ => True
            | SpanNode _ children => Forall (fun c => exists t, c = TextNode t) children
            end)
         (Merge.mergeAdjacentNodesWithSameFormatting block).
Proof.
  unfold Merge.mergeAdjacentNodesWithSameFormatting.
  apply Forall_forall. intros n Hn. apply list_elem_of_fmap in Hn as (m & -> & _).
  destruct m as [t|f cs]; [done|]. unfold Merge.unwrapNested.
  destruct (unwrapChildren_spec cs f) as [H _].
  by destruct (Merge.unwrapChildren f cs).
Qed.
(** ** The flow engine that moves one block at a time *)

Section LegacyFacts.

Variable blockHeight : BlockEl -> Z.

Abbreviation legacyHeight := (Legacy.calculatePageBlocksHeight blockHeight).
Abbreviation legacyMax := Legacy.getPageContentMaxHeight.

Lemma legacy_foldl total (page : Page) :
  foldl (fun total blockElement => total + blockHeight blockElement) total page
  = total + legacyHeight page.
Proof.
  unfold Legacy.calculatePageBlocksHeight. revert total.
  induction page as [|b page IH]; intros total; simpl; [lia|].
  rewrite IH, (IH (0 + blockHeight b)). lia.
Qed.

Lemma legacyHeight_cons b (page : Page) :
  legacyHeight (b :: page) = blockHeight b + legacyHeight page.
Proof.
  unfold Legacy.calculatePageBlocksHeight at 1. simpl. rewrite legacy_foldl. lia.
Qed.

Lemma legacyHeight_app (p q : Page) :
  legacyHeight (p ++ q) = legacyHeight p + legacyHeight q.
Proof.
  induction p as [|b p IH]; [unfold Legacy.calculatePageBlocksHeight at 2; simpl; lia|].
  simpl. rewrite !legacyHeight_cons, IH. lia.
Qed.

Lemma legacyHeight_nonneg (p : Page) :
  Spec.nonNegative blockHeight p -> 0 <= legacyHeight p.
Proof.
  induction 1 as [|b p Hb _ IH]; [done|]. rewrite legacyHeight_cons. lia.
Qed.

Lemma legacyHeight_drop_le k (p : Page) :
  Spec.nonNegative blockHeight p -> legacyHeight (drop k p) <= legacyHeight p.
Proof.
  intros H. rewrite <- (take_drop k p) at 2. rewrite legacyHeight_app.
  pose proof (legacyHeight_nonneg (take k p) (Forall_take _ _ _ H)). lia.
Qed.

(** *** Forward overflow *)

Lemma getOrCreateNextPage_lookup p (pages : Pages) page :
  pages !! p = Some page ->
  Flow.getOrCreateNextPage p pages !! p = Some page
  /\ is_Some (Flow.getOrCreateNextPage p pages !! S p).
Proof.
  intros Hp. unfold Flow.getOrCreateNextPage.
  destruct (pages !! S p) as [next|] eqn:Hn; [by rewrite Hn; eauto|].
  apply lookup_ge_None in Hn. pose proof (lookup_lt_Some _ _ _ Hp) as Hlt.
  unfold Flow.splice_insert. assert (S p = length pages) as Heq by lia.
  rewrite Heq, take_ge, drop_ge by lia. split.
  - by rewrite lookup_app_l by lia.
  - rewrite lookup_app_r by lia. rewrite Nat.sub_diag. eauto.
Qed.

Lemma getOrCreateNextPage_again p (pages : Pages) page :
  pages !! p = Some page ->
  Flow.getOrCreateNextPage p (Flow.getOrCreateNextPage p pages)
  = Flow.getOrCreateNextPage p pages.
Proof.
  intros Hp. destruct (getOrCreateNextPage_lookup p pages page Hp) as [_ [next Hn]].
  unfold Flow.getOrCreateNextPage at 1. by rewrite Hn.
Qed.

(** A last block with a block id moves: the blocks from the last index on
    go to the next page. *)
Lemma moveLastBlock_as_split p (pages : Pages) page lastBlock :
  pages !! p = Some page -> is_Some (pages !! S p) ->
  last page = Some lastBlock -> Flow.hasBlockId lastBlock = true ->
  Legacy.moveLastBlockToNextPage p (S p) pages
  = <[S p := lastBlock :: default [] (pages !! S p)]>
      (<[p := take (length page - 1) page]> pages).
Proof.
  intros Hp [next Hn] Hl Hid.
  unfold Legacy.moveLastBlockToNextPage. rewrite Hp, Hn, Hl, Hid. cbn [negb].
  rewrite list_lookup_insert_ne by lia. by rewrite Hn.
Qed.

(** A last block without block id stays, and nothing changes. *)
Lemma moveLastBlock_skipped p (pages : Pages) page lastBlock :
  pages !! p = Some page ->
  last page = Some lastBlock -> Flow.hasBlockId lastBlock = false ->
  Legacy.moveLastBlockToNextPage p (S p) pages = pages.
Proof.
  intros Hp Hl Hid. unfold Legacy.moveLastBlockToNextPage. rewrite Hp, Hl, Hid.
  by destruct (pages !! S p).
Qed.

(** The page that the scan picks is the same when pages are put behind the
    document. *)
Lemma legacy_forwardScan_Some pageIndex (rest pages pages' : Pages) :
  Legacy.forwardScan blockHeight pageIndex rest pages = Some pages' ->
  exists p page,
    rest !! (p - pageIndex)%nat = Some page /\ (pageIndex <= p)%nat
    /\ legacyMax < legacyHeight page /\ (1 < length page)%nat
    /\ pages' = Legacy.moveLastBlockToNextPage p (S p) (Flow.getOrCreateNextPage p pages)
    /\ forall (extra others : Pages),
         Legacy.forwardScan blockHeight pageIndex (rest ++ extra) others
         = Some (Legacy.moveLastBlockToNextPage p (S p)
                   (Flow.getOrCreateNextPage p others)).
Proof.
  revert pageIndex. induction rest as [|page rest IH]; intros pageIndex H; simpl in H;
    [done|].
  destruct ((legacyMax <? legacyHeight page) && (1 <? length page)%nat) eqn:E.
  - apply andb_true_iff in E as [E1 E2]. apply Z.ltb_lt in E1. apply Nat.ltb_lt in E2.
    injection H as <-. exists pageIndex, page. rewrite Nat.sub_diag.
    repeat split; try done; try lia.
    intros extra others. simpl.
    replace (legacyMax <? legacyHeight page) with true by (symmetry; by apply Z.ltb_lt).
    replace (1 <? length page)%nat with true by (symmetry; by apply Nat.ltb_lt).
    done.
  - destruct (IH _ H) as (p & page' & Hp & Hle & Hover & Hlen & -> & Hext).
    exists p, page'. split.
    { replace (p - pageIndex)%nat with (S (p - S pageIndex)) by lia. done. }
    repeat split; try done; try lia.
    intros extra others. simpl. rewrite E. apply Hext.
Qed.

(** A round of the loop: the last block of a page over the height of a
    page goes to the next page, or it carries no block id, and then the
    round leaves a document on which every round does the same again. *)
Lemma legacy_forwardPass_cases (pages pages' : Pages) :
  Legacy.forwardPass blockHeight pages = Some pages' ->
  exists p page,
    pages !! p = Some page
    /\ legacyMax < legacyHeight page
    /\ (1 < length page)%nat
    /\ ((exists lastBlock,
           last page = Some lastBlock /\ Flow.hasBlockId lastBlock = true
           /\ pages' = take p pages
                       ++ [take (length page - 1) page;
                           drop (length page - 1) page ++ default [] (pages !! S p)]
                       ++ drop (S (S p)) pages)
        \/ ((exists lastBlock,
               last page = Some lastBlock /\ Flow.hasBlockId lastBlock = false)
            /\ Legacy.forwardPass blockHeight pages' = Some pages')).
Proof.
  intros H. unfold Legacy.forwardPass in H.
  destruct (legacy_forwardScan_Some 0 pages pages pages' H)
    as (p & page & Hp & _ & Hover & Hlen & -> & Hext).
  rewrite Nat.sub_0_r in Hp.
  exists p, page. split; [done|]. split; [done|]. split; [done|].
  destruct (getOrCreateNextPage_lookup p pages page Hp) as [Hp' Hn'].
  destruct (last page) as [lastBlock|] eqn:Hl;
    [|apply last_None in Hl; subst; simpl in Hlen; lia].
  destruct (Flow.hasBlockId lastBlock) eqn:Hid.
  - left. exists lastBlock. split; [done|]. split; [done|].
    assert (Spec.identified (drop (length page - 1) page)) as Hdrop.
    { apply last_Some in Hl as [front ->]. rewrite length_app. simpl.
      replace (length front + 1 - 1)%nat with (length front) by lia.
      rewrite drop_app_length. by repeat constructor. }
    rewrite <- (move_to_next_identified p (length page - 1) pages page Hp ltac:(lia) Hdrop).
    rewrite (moveLastBlock_as_split p _ page lastBlock Hp' Hn' Hl Hid).
    unfold Flow.moveBlocksToNextPage. rewrite Hp'. destruct Hn' as [next Hn']. rewrite Hn'.
    replace (length page <=? length page - 1)%nat with false
      by (symmetry; apply Nat.leb_gt; lia).
    rewrite insertAtTop_rev. destruct (withId_identified _ Hdrop) as [-> ->].
    rewrite app_nil_r. rewrite list_lookup_insert_ne by lia. rewrite Hn'.
    apply last_Some in Hl as [front ->]. rewrite length_app. simpl.
    replace (length front + 1 - 1)%nat with (length front) by lia.
    by rewrite drop_app_length.
  - right. split; [by exists lastBlock|].
    rewrite (moveLastBlock_skipped p _ page lastBlock Hp' Hl Hid).
    unfold Legacy.forwardPass.
    assert (exists extra, Flow.getOrCreateNextPage p pages = pages ++ extra) as [extra Hx].
    { unfold Flow.getOrCreateNextPage, Flow.splice_insert.
      destruct (pages !! S p) eqn:E; [exists []; by rewrite app_nil_r|].
      apply lookup_ge_None in E. exists [[]]. by rewrite take_ge, drop_ge by lia. }
    rewrite Hx at 1. rewrite Hext. rewrite (getOrCreateNextPage_again p pages page Hp).
    by rewrite (moveLastBlock_skipped p _ page lastBlock Hp' Hl Hid).
Qed.

(** A document that a round leaves as it is keeps the loop going for
    ever. *)
Lemma legacy_forwardLoop_stuck fuel (pages : Pages) :
  Legacy.forwardPass blockHeight pages = Some pages ->
  Legacy.forwardLoop blockHeight fuel pages = None.
Proof.
  intros H. induction fuel as [|fuel IH]; [done|]. simpl. by rewrite H.
Qed.

Lemma legacy_forwardScan_None pageIndex (rest pages : Pages) :
  Legacy.forwardScan blockHeight pageIndex rest pages = None ->
  Forall (fun page => (1 < length page)%nat -> legacyHeight page <= legacyMax) rest.
Proof.
  revert pageIndex. induction rest as [|page rest IH]; intros pageIndex H; simpl in *.
  - constructor.
  - destruct (legacyMax <? legacyHeight page) eqn:E; simpl in H.
    + destruct (1 <? length page)%nat eqn:E1; [done|].
      apply Nat.ltb_ge in E1. constructor; [lia|by eapply IH].
    + apply Z.ltb_ge in E. constructor; [done|by eapply IH].
Qed.

(** What a completed run of the loop leaves: every round of it has moved a
    block. *)
Lemma legacy_forwardLoop_result fuel (pages pages' : Pages) :
  Legacy.forwardLoop blockHeight fuel pages = Some pages' ->
  concat pages' = concat pages
  /\ (length pages <= length pages')%nat
  /\ (Spec.emptyPages pages' <= Spec.emptyPages pages)%nat
  /\ Forall (fun page => (1 < length page)%nat -> legacyHeight page <= legacyMax) pages'.
Proof.
  revert pages. induction fuel as [|fuel IH]; intros pages H; simpl in H; [done|].
  destruct (Legacy.forwardPass blockHeight pages) as [pages1|] eqn:E.
  - destruct (legacy_forwardPass_cases pages pages1 E)
      as (p & page & Hp & _ & Hlen & [(lastBlock & _ & _ & ->)|[_ Hstuck]]).
    + destruct (move_effect pages p page (length page - 1) Hp ltac:(lia)) as (Hc & He & _).
      pose proof (move_length pages p page (length page - 1) Hp) as Hl.
      destruct (IH _ H) as (Hc' & Hl' & He' & Hs). cbn [app] in *.
      split; [by rewrite Hc'|]. split; [lia|]. split; [lia|done].
    + by rewrite (legacy_forwardLoop_stuck fuel pages1 Hstuck) in H.
  - injection H as <-. split; [done|]. split; [done|]. split; [done|].
    by apply (legacy_forwardScan_None 0 pages pages).
Qed.

(** A round keeps what holds of every block. *)
Lemma legacy_forwardPass_Forall (Q : BlockEl -> Prop) (pages pages' : Pages) :
  Legacy.forwardPass blockHeight pages = Some pages' ->
  Forall (Forall Q) pages -> Forall (Forall Q) pages'.
Proof.
  intros H HQ.
  destruct (legacy_forwardScan_Some 0 pages pages pages' H)
    as (p & page & Hp & _ & _ & _ & -> & _).
  pose proof (getOrCreateNextPage_Forall Q p pages HQ) as HG.
  unfold Legacy.moveLastBlockToNextPage.
  destruct (Flow.getOrCreateNextPage p pages !! p) as [fromPage|] eqn:Hfrom; [|done].
  destruct (Flow.getOrCreateNextPage p pages !! S p) as [toPage0|] eqn:Hto; [|done].
  destruct (last fromPage) as [lastBlock|] eqn:Hl; [|done].
  destruct (negb (Flow.hasBlockId lastBlock)); [done|].
  pose proof (Forall_lookup_1 _ _ _ _ HG Hfrom) as HQfrom.
  assert (Forall (Forall Q)
            (<[p := take (length fromPage - 1) fromPage]>
               (Flow.getOrCreateNextPage p pages))) as H1.
  { apply Forall_insert; [done|by apply Forall_take]. }
  destruct (<[p := take (length fromPage - 1) fromPage]>
              (Flow.getOrCreateNextPage p pages) !! S p) as [toPage|] eqn:Hto'; [|done].
  apply Forall_insert; [done|]. constructor.
  - apply last_Some in Hl as [front ->]. apply Forall_app in HQfrom as [_ HQl].
    by apply Forall_inv in HQl.
  - by eapply Forall_lookup_1.
Qed.

(** The loop of the one-block engine stops, whatever the heights, when
    every block carries a block id. *)
Lemma legacy_forwardLoop_terminates (pages : Pages) :
  Forall Spec.identified pages ->
  exists fuel pages', Legacy.forwardLoop blockHeight fuel pages = Some pages'.
Proof.
  intros Hid.
  set (n := length (concat pages)).
  set (bound := ((Spec.emptyPages pages + n) * n)%nat).
  assert (forall fuel (ps : Pages),
             Forall Spec.identified ps ->
             length (concat ps) = n ->
             (Spec.emptyPages ps <= Spec.emptyPages pages)%nat ->
             (bound < fuel + Spec.weight 0 ps)%nat ->
             exists ps', Legacy.forwardLoop blockHeight fuel ps = Some ps') as Hind.
  { induction fuel as [|fuel IH]; intros ps Hi Hn He Hw.
    - pose proof (weight_bound 0 ps) as Hb.
      pose proof (length_le_empty_plus_blocks ps) as Hl.
      rewrite Hn in *. simpl in *. unfold bound in Hw. nia.
    - simpl. destruct (Legacy.forwardPass blockHeight ps) as [ps1|] eqn:E; [|eauto].
      pose proof (legacy_forwardPass_Forall _ ps ps1 E Hi) as Hi1.
      destruct (legacy_forwardPass_cases ps ps1 E)
        as (p & page & Hp & _ & Hlen & [(lastBlock & _ & _ & Heq)|[(lastBlock & Hl & Hno) _]]).
      + subst ps1.
        destruct (move_effect ps p page (length page - 1) Hp ltac:(lia)) as (Hc & He1 & Hw1).
        cbn [app] in *. apply IH; [done|by rewrite Hc|lia|lia].
      + pose proof (Forall_lookup_1 _ _ _ _ Hi Hp) as Hpage.
        apply last_Some in Hl as [front ->]. apply Forall_app in Hpage as [_ Hpage].
        apply Forall_inv in Hpage. congruence. }
  exists (S bound). apply Hind; [done|reflexivity|lia|lia].
Qed.

(** More fuel gives the same result. *)
Lemma legacy_forwardLoop_more fuel fuel' (pages pages' : Pages) :
  (fuel <= fuel')%nat ->
  Legacy.forwardLoop blockHeight fuel pages = Some pages' ->
  Legacy.forwardLoop blockHeight fuel' pages = Some pages'.
Proof.
  revert fuel' pages. induction fuel as [|fuel IH]; intros fuel' pages Hle H; [done|].
  destruct fuel' as [|fuel']; [lia|]. simpl in *.
  destruct (Legacy.forwardPass blockHeight pages); [|done]. apply IH; [lia|done].
Qed.

End LegacyFacts.

(** X18: forward overflow of the one-block engine.  What a completed run
    leaves has the blocks of the document in their order, no fewer pages
    and no more pages without a block than before, and every page that
    holds more than one block within the height of a page.  The loop stops,
    whatever the heights of the blocks, when every block carries a block
    id; it does not stop on a page over the height of a page whose last
    block carries none. *)
Theorem legacy_forward_overflow_terminates (blockHeight : BlockEl -> Z) (pages : Pages) :
  (forall fuel pages',
      Legacy.handleForwardOverflow blockHeight fuel pages = Some pages' ->
      concat pages' = concat pages
      /\ (length pages <= length pages')%nat
      /\ (Spec.emptyPages pages' <= Spec.emptyPages pages)%nat
      /\ Forall (fun page =>
                   (1 < length page)%nat ->
                   Legacy.calculatePageBlocksHeight blockHeight page
                   <= Legacy.getPageContentMaxHeight) pages')
  /\ (Forall (Forall (fun el => Flow.hasBlockId el = true)) pages ->
      exists fuel pages', Legacy.handleForwardOverflow blockHeight fuel pages = Some pages')
  /\ (forall page front lastBlock,
        pages = [page] -> page = front ++ [lastBlock] -> (0 < length front)%nat ->
        Legacy.getPageContentMaxHeight < Legacy.calculatePageBlocksHeight blockHeight page ->
        Flow.hasBlockId lastBlock = false ->
        forall fuel, Legacy.handleForwardOverflow blockHeight fuel pages = None).
Proof.
  unfold Legacy.handleForwardOverflow. split; [|split].
  - intros fuel pages' H. destruct (length pages =? 0)%nat eqn:E.
    + injection H as <-. apply Nat.eqb_eq in E. destruct pages; [|done].
      split; [done|]. split; [done|]. split; [done|constructor].
    + by apply (legacy_forwardLoop_result blockHeight fuel).
  - intros Hid.
    destruct (legacy_forwardLoop_terminates blockHeight pages Hid) as (fuel & pages' & H).
    exists fuel. destruct (length pages =? 0)%nat; eauto.
  - intros page front lastBlock -> -> Hfront Hover Hno fuel. cbn [length Nat.eqb].
    destruct (Legacy.forwardLoop blockHeight fuel [front ++ [lastBlock]]) as [pages'|] eqn:E;
      [|done].
    exfalso. destruct fuel as [|fuel]; [done|]. simpl in E.
    destruct (Legacy.forwardPass blockHeight [front ++ [lastBlock]]) as [pages1|] eqn:E1.
    + destruct (legacy_forwardPass_cases blockHeight _ pages1 E1)
        as (p & page & Hp & _ & _ & [(lb & Hl & Hid & _)|[_ Hstuck]]).
      * destruct p as [|p]; [|by destruct p]. injection Hp as <-.
        rewrite last_snoc in Hl. congruence.
      * by rewrite (legacy_forwardLoop_stuck blockHeight fuel pages1 Hstuck) in E.
    + apply (legacy_forwardScan_None blockHeight 0) in E1. apply Forall_inv in E1.
      rewrite length_app in E1. simpl in E1. specialize (E1 ltac:(lia)). lia.
Qed.

Lemma legacy_forward_overflow_terminates_witness :
  Legacy.handleForwardOverflow Examples.heights 3 Examples.tallFirst
  = Some [[Examples.blk "tall"]; [Examples.blk "d"]]
  /\ concat [[Examples.blk "tall"]; [Examples.blk "d"]] = concat Examples.tallFirst
  /\ (exists fuel pages',
        Legacy.handleForwardOverflow Examples.heights fuel Examples.tallFirst = Some pages')
  /\ (forall fuel,
        Legacy.handleForwardOverflow Examples.heights fuel
          [[Examples.blk "tall"; Examples.blk EmptyString]] = None).
Proof.
  split; [reflexivity|].
  destruct (legacy_forward_overflow_terminates Examples.heights Examples.tallFirst)
    as (H & Hstop & _).
  destruct (H 3%nat [[Examples.blk "tall"]; [Examples.blk "d"]] eq_refl) as [Hc _].
  split; [exact Hc|]. split; [apply Hstop; repeat constructor|].
  destruct (legacy_forward_overflow_terminates Examples.heights
              [[Examples.blk "tall"; Examples.blk EmptyString]]) as (_ & _ & Hspin).
  apply (Hspin [Examples.blk "tall"; Examples.blk EmptyString] [Examples.blk "tall"]
           (Examples.blk EmptyString)); try reflexivity.
  simpl. lia.
Defined.
(** *** Reverse compaction *)

Section LegacyReverse.

Variable blockHeight : BlockEl -> Z.

Abbreviation height := (Legacy.calculatePageBlocksHeight blockHeight).
Abbreviation maxHeight := Legacy.getPageContentMaxHeight.

Lemma legacy_pull_one (pre : Pages) cur b (next : Page) (post : Pages) :
  Flow.hasBlockId b = true ->
  Legacy.moveFirstBlockToPreviousPage (S (length pre)) (length pre)
    (pre ++ cur :: (b :: next) :: post)
  = pre ++ (cur ++ [b]) :: next :: post.
Proof.
  intros Hid. unfold Legacy.moveFirstBlockToPreviousPage.
  rewrite !lookup_app_r by lia.
  replace (S (length pre) - length pre)%nat with 1%nat by lia.
  rewrite Nat.sub_diag. cbn [lookup list_lookup]. rewrite Hid. cbn [negb].
  rewrite insert_app_r_alt by lia.
  replace (S (length pre) - length pre)%nat with 1%nat by lia.
  cbn [insert list_insert].
  rewrite lookup_app_r by lia. rewrite Nat.sub_diag. cbn [lookup list_lookup].
  rewrite insert_app_r_alt by lia. rewrite Nat.sub_diag. done.
Qed.

Lemma legacy_pull_skipped (pre : Pages) cur b (next : Page) (post : Pages) :
  Flow.hasBlockId b = false ->
  Legacy.moveFirstBlockToPreviousPage (S (length pre)) (length pre)
    (pre ++ cur :: (b :: next) :: post)
  = pre ++ cur :: (b :: next) :: post.
Proof.
  intros Hid. unfold Legacy.moveFirstBlockToPreviousPage.
  rewrite !lookup_app_r by lia.
  replace (S (length pre) - length pre)%nat with 1%nat by lia.
  rewrite Nat.sub_diag. cbn [lookup list_lookup]. by rewrite Hid.
Qed.

(** The state after a completed loop of a pair: the next page has given
    its first [k] blocks to the current page, and these carry a block id. *)
Lemma pullLoop_spec fuel (pre : Pages) (cur next : Page) (post pages' : Pages) :
  Legacy.pullLoop blockHeight fuel (length pre) (pre ++ cur :: next :: post) = Some pages' ->
  exists k,
    (k <= length next)%nat
    /\ pages' = pre ++ (cur ++ take k next) :: drop k next :: post
    /\ ((0 < k)%nat -> height (cur ++ take k next) <= maxHeight)
    /\ (k = length next
        \/ exists b, next !! k = Some b
                     /\ maxHeight < height (cur ++ take k next) + blockHeight b)
    /\ Spec.identified (take k next).
Proof.
  revert cur next. induction fuel as [|fuel IH]; intros cur next H; [done|].
  cbn [Legacy.pullLoop] in H.
  rewrite !lookup_app_r in H by lia.
  replace (S (length pre) - length pre)%nat with 1%nat in H by lia.
  rewrite Nat.sub_diag in H. cbn [lookup list_lookup] in H.
  destruct next as [|b next].
  { injection H as <-. exists 0%nat. split; [done|]. split; [by rewrite app_nil_r|].
    split; [lia|]. split; [by left|constructor]. }
  unfold Legacy.calculatePageHeightWithBlock in H.
  destruct (height cur + blockHeight b <=? maxHeight) eqn:E.
  - apply Z.leb_le in E. destruct (Flow.hasBlockId b) eqn:Hid.
    + rewrite legacy_pull_one in H by done.
      destruct (IH (cur ++ [b]) next H) as (k & Hk & Heq & Hfit & Hstop & Hids).
      exists (S k). split; [simpl; lia|]. cbn [take drop].
      replace (cur ++ b :: take k next) with ((cur ++ [b]) ++ take k next)
        by (by rewrite <- app_assoc).
      split; [done|]. split; [|split].
      * intros _. destruct k as [|k]; [|apply Hfit; lia].
        rewrite take_0, app_nil_r, legacyHeight_app, legacyHeight_cons.
        change (height []) with 0. lia.
      * destruct Hstop as [->|Hstop]; [by left|by right].
      * by constructor.
    + rewrite legacy_pull_skipped in H by done. by apply IH.
  - apply Z.leb_gt in E. injection H as <-. exists 0%nat. split; [lia|].
    split; [by rewrite app_nil_r|]. split; [lia|]. split; [|constructor].
    right. exists b. split; [done|]. rewrite take_0, app_nil_r. lia.
Qed.

(** The loop of a pair ends when the blocks of the next page carry a block
    id and there is more fuel than blocks. *)
Lemma pullLoop_terminates fuel (pre : Pages) (cur next : Page) (post : Pages) :
  Spec.identified next -> (length next < fuel)%nat ->
  is_Some (Legacy.pullLoop blockHeight fuel (length pre) (pre ++ cur :: next :: post)).
Proof.
  intros Hid. revert fuel cur.
  induction Hid as [|b next Hb Hid IH]; intros fuel cur Hfuel;
    (destruct fuel as [|fuel]; [simpl in Hfuel; lia|]);
    cbn [Legacy.pullLoop]; rewrite !lookup_app_r by lia;
    replace (S (length pre) - length pre)%nat with 1%nat by lia;
    rewrite Nat.sub_diag; cbn [lookup list_lookup]; [eauto|].
  destruct (_ <=? _); [|eauto].
  rewrite legacy_pull_one by done. apply IH. simpl in Hfuel. lia.
Qed.

(** A first block without block id that fits keeps the loop going for
    ever. *)
Lemma pullLoop_stuck fuel (pre : Pages) (cur : Page) b (next : Page) (post : Pages) :
  Flow.hasBlockId b = false ->
  Legacy.calculatePageHeightWithBlock blockHeight cur b <= maxHeight ->
  Legacy.pullLoop blockHeight fuel (length pre) (pre ++ cur :: (b :: next) :: post) = None.
Proof.
  intros Hid Hfit. induction fuel as [|fuel IH]; [done|].
  cbn [Legacy.pullLoop]. rewrite !lookup_app_r by lia.
  replace (S (length pre) - length pre)%nat with 1%nat by lia.
  rewrite Nat.sub_diag. cbn [lookup list_lookup].
  replace (_ <=? _) with true by (symmetry; by apply Z.leb_le).
  by rewrite legacy_pull_skipped.
Qed.

Lemma legacy_pair_split p (pages : Pages) cur next :
  pages !! p = Some cur -> pages !! S p = Some next ->
  pages = take p pages ++ cur :: next :: drop (S (S p)) pages
  /\ length (take p pages) = p.
Proof.
  intros Hc Hn. split.
  - rewrite <- (take_drop_middle _ _ _ Hc) at 1. f_equal. f_equal. by apply drop_S.
  - apply length_take_le. apply lookup_lt_Some in Hc. lia.
Qed.

Lemma legacy_compactPair_cases fuel p (pages pages' : Pages) :
  Legacy.compactPair blockHeight fuel p pages = Some pages' ->
  pages' = pages
  \/ exists pre cur next post k,
       pages = pre ++ cur :: next :: post /\ length pre = p
       /\ (k <= length next)%nat
       /\ pages' = pre ++ (cur ++ take k next) :: drop k next :: post
       /\ ((0 < k)%nat -> height (cur ++ take k next) <= maxHeight)
       /\ (k = length next
           \/ exists b, next !! k = Some b
                        /\ maxHeight < height (cur ++ take k next) + blockHeight b).
Proof.
  unfold Legacy.compactPair. intros H.
  destruct (pages !! p) as [cur|] eqn:Hc; [|left; congruence].
  destruct (pages !! S p) as [next|] eqn:Hn; [|left; congruence].
  right. destruct (legacy_pair_split p pages cur next Hc Hn) as [Hsplit Hlen].
  remember (take p pages) as pre eqn:Hpre.
  remember (drop (S (S p)) pages) as post eqn:Hpost.
  clear Hpre Hpost. subst p pages.
  destruct (pullLoop_spec _ _ _ _ _ _ H) as (k & Hk & Heq & Hfit & Hstop & _).
  exists pre, cur, next, post, k. done.
Qed.

Lemma legacy_compactPair_order fuel p (pages pages' : Pages) start :
  (start <= p)%nat ->
  Legacy.compactPair blockHeight fuel p pages = Some pages' ->
  concat pages' = concat pages
  /\ length pages' = length pages
  /\ take start pages' = take start pages.
Proof.
  intros Hs H.
  destruct (legacy_compactPair_cases fuel p pages pages' H)
    as [->|(pre & cur & next & post & k & -> & Hp & _ & -> & _)]; [done|].
  split; [|split].
  - rewrite !concat_app. simpl. rewrite <- !app_assoc. do 2 f_equal.
    by rewrite (app_assoc (take k next)), take_drop.
  - by rewrite !length_app.
  - by rewrite !take_app_le by lia.
Qed.

Lemma legacy_compactFrom_order fuel count p (pages pages' : Pages) start :
  (start <= p)%nat ->
  Legacy.compactFrom blockHeight fuel count p pages = Some pages' ->
  concat pages' = concat pages
  /\ length pages' = length pages
  /\ take start pages' = take start pages.
Proof.
  revert p pages. induction count as [|count IH]; intros p pages Hs H; simpl in H.
  { by injection H as <-. }
  destruct (Legacy.compactPair blockHeight fuel p pages) as [pages1|] eqn:E; [|done].
  destruct (IH (S p) pages1 ltac:(lia) H) as (H1 & H2 & H3).
  destruct (legacy_compactPair_order fuel p pages pages1 start Hs E) as (H4 & H5 & H6).
  split; [congruence|]. split; congruence.
Qed.

Lemma legacy_compactPair_Forall (Q : BlockEl -> Prop) fuel p (pages pages' : Pages) :
  Legacy.compactPair blockHeight fuel p pages = Some pages' ->
  Forall (Forall Q) pages -> Forall (Forall Q) pages'.
Proof.
  intros H HQ.
  destruct (legacy_compactPair_cases fuel p pages pages' H)
    as [->|(pre & cur & next & post & k & -> & Hp & Hk & -> & _)]; [done|].
  apply Forall_app in HQ as [H1 H2].
  apply Forall_cons in H2 as [Hc H2]. apply Forall_cons in H2 as [Hx H2].
  apply Forall_app. split; [done|]. constructor.
  - apply Forall_app. split; [done|by apply Forall_take].
  - constructor; [by apply Forall_drop|done].
Qed.

Lemma legacy_compactPair_budget fuel p (pages pages' : Pages) :
  Legacy.compactPair blockHeight fuel p pages = Some pages' ->
  Forall (Spec.nonNegative blockHeight) pages ->
  Forall (fun page => height page <= maxHeight) pages ->
  Forall (fun page => height page <= maxHeight) pages'.
Proof.
  intros H Hnn Hb.
  destruct (legacy_compactPair_cases fuel p pages pages' H)
    as [->|(pre & cur & next & post & k & -> & Hp & Hk & -> & Hfit & _)]; [done|].
  apply Forall_app in Hnn as [Hnn1 Hnn2].
  apply Forall_cons in Hnn2 as [Hnc Hnn2]. apply Forall_cons in Hnn2 as [Hnx Hnn2].
  apply Forall_app in Hb as [Hb1 Hb2].
  apply Forall_cons in Hb2 as [Hbc Hb2]. apply Forall_cons in Hb2 as [Hbx Hb2].
  apply Forall_app. split; [done|]. constructor.
  - destruct k as [|k]; [by rewrite take_0, app_nil_r|apply Hfit; lia].
  - constructor; [|done].
    pose proof (legacyHeight_drop_le blockHeight k next Hnx). lia.
Qed.

Lemma legacy_compactFrom_budget fuel count p (pages pages' : Pages) :
  Legacy.compactFrom blockHeight fuel count p pages = Some pages' ->
  Forall (Spec.nonNegative blockHeight) pages ->
  Forall (fun page => height page <= maxHeight) pages ->
  Forall (fun page => height page <= maxHeight) pages'.
Proof.
  revert p pages. induction count as [|count IH]; intros p pages H Hnn Hb; simpl in H.
  { by injection H as <-. }
  destruct (Legacy.compactPair blockHeight fuel p pages) as [pages1|] eqn:E; [|done].
  apply (IH (S p) pages1 H).
  - by apply (legacy_compactPair_Forall _ fuel p pages pages1 E).
  - by apply (legacy_compactPair_budget fuel p pages pages1 E).
Qed.

Lemma length_le_concat (pages : Pages) i page :
  pages !! i = Some page -> (length page <= length (concat pages))%nat.
Proof.
  intros H. rewrite <- (take_drop_middle _ _ _ H), concat_app. simpl.
  rewrite !length_app. lia.
Qed.

Lemma legacy_compactPair_terminates fuel p (pages : Pages) :
  Forall Spec.identified pages -> (length (concat pages) < fuel)%nat ->
  is_Some (Legacy.compactPair blockHeight fuel p pages).
Proof.
  intros Hid Hfuel. unfold Legacy.compactPair.
  destruct (pages !! p) as [cur|] eqn:Hc; [|eauto].
  destruct (pages !! S p) as [next|] eqn:Hn; [|eauto].
  destruct (legacy_pair_split p pages cur next Hc Hn) as [Hsplit Hlen].
  assert (Spec.identified next) as Hnext by (by eapply Forall_lookup_1).
  pose proof (length_le_concat pages _ next Hn) as Hle.
  remember (take p pages) as pre eqn:Hpre.
  remember (drop (S (S p)) pages) as post eqn:Hpost.
  clear Hpre Hpost. subst p. rewrite Hsplit. apply pullLoop_terminates; [done|lia].
Qed.

Lemma legacy_compactFrom_terminates fuel count p (pages : Pages) :
  Forall Spec.identified pages -> (length (concat pages) < fuel)%nat ->
  is_Some (Legacy.compactFrom blockHeight fuel count p pages).
Proof.
  revert p pages. induction count as [|count IH]; intros p pages Hid Hfuel; simpl; [eauto|].
  destruct (legacy_compactPair_terminates fuel p pages Hid Hfuel) as [pages1 E].
  rewrite E. apply IH.
  - by apply (legacy_compactPair_Forall _ fuel p pages pages1 E).
  - destruct (legacy_compactPair_order fuel p pages pages1 p (Nat.le_refl _) E) as [-> _].
    done.
Qed.

End LegacyReverse.

(** X19: reverse compaction of the one-block engine, on every run that
    returns, keeps the blocks of the document in their order, the number of
    pages, and the pages in front of [startPageIndex]; with heights that are
    not negative it never fills a page beyond the height of a page: when
    every page was within that height, every page still is.  It returns when
    every block carries a block id, with more fuel than blocks. *)
Theorem legacy_reverse_compaction_keeps_budget (blockHeight : BlockEl -> Z)
    startPageIndex (pages : Pages) :
  (forall fuel pages',
      Legacy.handleReverseCompaction blockHeight fuel startPageIndex pages = Some pages' ->
      concat pages' = concat pages
      /\ length pages' = length pages
      /\ take startPageIndex pages' = take startPageIndex pages
      /\ (Forall (Spec.nonNegative blockHeight) pages ->
          Forall (fun page => Legacy.calculatePageBlocksHeight blockHeight page
                              <= Legacy.getPageContentMaxHeight) pages ->
          Forall (fun page => Legacy.calculatePageBlocksHeight blockHeight page
                              <= Legacy.getPageContentMaxHeight) pages'))
  /\ (Forall (Forall (fun el => Flow.hasBlockId el = true)) pages ->
      forall fuel, (length (concat pages) < fuel)%nat ->
        is_Some (Legacy.handleReverseCompaction blockHeight fuel startPageIndex pages)).
Proof.
  unfold Legacy.handleReverseCompaction. split.
  - intros fuel pages' H. destruct (length pages =? 0)%nat.
    { by injection H as <-. }
    destruct (legacy_compactFrom_order blockHeight fuel
                (length pages - 1 - startPageIndex) startPageIndex pages pages'
                startPageIndex ltac:(lia) H) as (H1 & H2 & H3).
    repeat split; try done. intros Hnn Hb.
    by eapply legacy_compactFrom_budget.
  - intros Hid fuel Hfuel. destruct (length pages =? 0)%nat; [eauto|].
    by apply legacy_compactFrom_terminates.
Qed.

Lemma legacy_reverse_compaction_keeps_budget_witness :
  Legacy.handleReverseCompaction Examples.heights 4 0 Examples.threePages
  = Some [[Examples.blk "a"; Examples.blk "b"]; [Examples.blk "c"]; []]
  /\ Forall (fun page => Legacy.calculatePageBlocksHeight Examples.heights page
                         <= Legacy.getPageContentMaxHeight)
       [[Examples.blk "a"; Examples.blk "b"]; [Examples.blk "c"]; []]
  /\ is_Some (Legacy.handleReverseCompaction Examples.heights 4 0 Examples.threePages).
Proof.
  destruct (legacy_reverse_compaction_keeps_budget Examples.heights 0 Examples.threePages)
    as [H Hstop].
  split; [reflexivity|]. split.
  - destruct (H 4%nat [[Examples.blk "a"; Examples.blk "b"]; [Examples.blk "c"]; []]
                eq_refl) as (_ & _ & _ & Hb).
    apply Hb; repeat constructor; vm_compute; congruence.
  - apply Hstop; [repeat constructor|]. simpl. lia.
Defined.

(** X20: the pull loop of the one-block engine is greedy.  On a run that
    returns it has moved a prefix of the next page, of blocks that carry a
    block id, to the end of the current page, and it has stopped only when
    the next page was empty or its first block did not fit on the current
    page any more; a current page that has pulled a block is within the
    height of a page.  The loop returns when every block of the next page
    carries a block id, with more fuel than the page has blocks; it never
    returns when the first block of the next page fits and carries no
    block id. *)
Theorem legacy_pull_is_greedy (blockHeight : BlockEl -> Z) pageIndex (pages : Pages)
    (currentPage nextPage : Page) :
  pages !! pageIndex = Some currentPage ->
  pages !! S pageIndex = Some nextPage ->
  (forall fuel pages',
      Legacy.compactPair blockHeight fuel pageIndex pages = Some pages' ->
      exists k,
        (k <= length nextPage)%nat
        /\ pages' = <[S pageIndex := drop k nextPage]>
                      (<[pageIndex := currentPage ++ take k nextPage]> pages)
        /\ ((0 < k)%nat ->
            Legacy.calculatePageBlocksHeight blockHeight (currentPage ++ take k nextPage)
            <= Legacy.getPageContentMaxHeight)
        /\ (k = length nextPage
            \/ exists b,
                 nextPage !! k = Some b
                 /\ Legacy.getPageContentMaxHeight
                    < Legacy.calculatePageHeightWithBlock blockHeight
                        (currentPage ++ take k nextPage) b)
        /\ Forall (fun el => Flow.hasBlockId el = true) (take k nextPage))
  /\ (Forall (fun el => Flow.hasBlockId el = true) nextPage ->
      forall fuel, (length nextPage < fuel)%nat ->
        is_Some (Legacy.compactPair blockHeight fuel pageIndex pages))
  /\ (forall b rest,
        nextPage = b :: rest -> Flow.hasBlockId b = false ->
        Legacy.calculatePageHeightWithBlock blockHeight currentPage b
        <= Legacy.getPageContentMaxHeight ->
        forall fuel, Legacy.compactPair blockHeight fuel pageIndex pages = None).
Proof.
  intros Hc Hn.
  destruct (legacy_pair_split pageIndex pages currentPage nextPage Hc Hn) as [Hsplit Hlen].
  unfold Legacy.compactPair. rewrite Hc, Hn.
  remember (take pageIndex pages) as pre eqn:Hpre.
  remember (drop (S (S pageIndex)) pages) as post eqn:Hpost.
  clear Hpre Hpost Hc Hn. subst pageIndex pages. split; [|split].
  - intros fuel pages' H.
    destruct (pullLoop_spec blockHeight _ _ _ _ _ _ H) as (k & Hk & Heq & Hfit & Hstop & Hids).
    exists k. split; [done|]. split; [|done].
    rewrite Heq.
    rewrite insert_app_r_alt by lia. rewrite Nat.sub_diag. cbn [insert list_insert].
    rewrite insert_app_r_alt by lia.
    by replace (S (length pre) - length pre)%nat with 1%nat by lia.
  - intros Hid fuel Hfuel. by apply pullLoop_terminates.
  - intros b rest -> Hid Hfit fuel. by apply pullLoop_stuck.
Qed.

Lemma legacy_pull_is_greedy_witness :
  (exists k,
     (k <= 1)%nat
     /\ [[Examples.blk "a"]; [Examples.blk "b"; Examples.blk "c"]; []]
        = <[2%nat := drop k [Examples.blk "c"]]>
            (<[1%nat := [Examples.blk "b"] ++ take k [Examples.blk "c"]]> Examples.threePages))
  /\ is_Some (Legacy.compactPair Examples.heights 2 1 Examples.threePages)
  /\ (forall fuel,
        Legacy.compactPair Examples.heights fuel 0
          [[Examples.blk "a"]; [Examples.blk EmptyString]] = None).
Proof.
  destruct (legacy_pull_is_greedy Examples.heights 1 Examples.threePages
              [Examples.blk "b"] [Examples.blk "c"] eq_refl eq_refl)
    as (Hpull & Hstop & _).
  split; [|split].
  - destruct (Hpull 2%nat [[Examples.blk "a"]; [Examples.blk "b"; Examples.blk "c"]; []]
                eq_refl) as (k & Hk & Heq & _).
    exists k. split; [exact Hk|exact Heq].
  - apply Hstop; [repeat constructor|simpl; lia].
  - destruct (legacy_pull_is_greedy Examples.heights 0
                [[Examples.blk "a"]; [Examples.blk EmptyString]]
                [Examples.blk "a"] [Examples.blk EmptyString] eq_refl eq_refl)
      as (_ & _ & Hspin).
    apply (Hspin (Examples.blk EmptyString) []); [reflexivity|reflexivity|].
    vm_compute. congruence.
Defined.

(** *** Pruning and the whole pass *)

Section LegacyPrune.

Abbreviation filled := (fun page : Page => (length page =? 0)%nat = false).

Lemma legacy_removeFrom_concat n (pages : Pages) :
  concat (Legacy.removeFrom n pages) = concat pages.
Proof.
  revert pages. induction n as [|n IH]; intros pages; simpl; [done|].
  destruct (pages !! n) as [page|] eqn:Hpage; [|by apply IH].
  destruct (length page =? 0)%nat eqn:E; simpl; [|by apply IH].
  destruct (1 <? length pages)%nat; [|by apply IH].
  rewrite IH. apply Nat.eqb_eq, nil_length_inv in E. subst page.
  unfold Flow.splice_remove. rewrite <- (take_drop_middle _ _ _ Hpage) at 3.
  by rewrite !concat_app.
Qed.

(** While some page holds a block, the loop removes exactly the visited
    pages that hold none. *)
Lemma legacy_removeFrom_some_filled n (pages : Pages) :
  Exists filled pages -> (n <= length pages)%nat ->
  Legacy.removeFrom n pages = filter filled (take n pages) ++ drop n pages.
Proof.
  revert pages. induction n as [|n IH]; intros pages Hex Hn; simpl; [done|].
  destruct (lookup_lt_is_Some_2 pages n ltac:(lia)) as [page Hpage].
  rewrite Hpage.
  pose proof (take_drop_middle _ _ _ Hpage) as Hsplit.
  rewrite (take_S_r _ _ _ Hpage), filter_app.
  destruct (length page =? 0)%nat eqn:E; simpl.
  - assert (Exists filled (Flow.splice_remove n pages)) as Hex'.
    { unfold Flow.splice_remove. rewrite <- Hsplit in Hex.
      apply Exists_app in Hex as [H|H]; apply Exists_app; [by left|].
      apply Exists_cons in H as [H|H]; [congruence|by right]. }
    assert (length (Flow.splice_remove n pages) = (length pages - 1)%nat) as Hlen.
    { unfold Flow.splice_remove. rewrite length_app, length_take, length_drop. lia. }
    assert (0 < length (Flow.splice_remove n pages))%nat as Hpos.
    { destruct (Flow.splice_remove n pages); [by apply Exists_nil in Hex'|simpl; lia]. }
    destruct (1 <? length pages)%nat eqn:E1; [|apply Nat.ltb_ge in E1; lia].
    rewrite IH by (done || lia).
    unfold Flow.splice_remove.
    rewrite take_app_length' by (rewrite length_take; lia).
    rewrite drop_app_length' by (rewrite length_take; lia).
    rewrite filter_cons. case_decide; [congruence|]. by rewrite filter_nil, app_nil_r.
  - rewrite IH by (done || lia).
    rewrite (drop_S _ _ _ Hpage).
    rewrite filter_cons. case_decide; [|congruence].
    by rewrite filter_nil, <- app_assoc.
Qed.

Lemma legacy_removeFrom_length n (pages : Pages) :
  (0 < length pages)%nat -> (0 < length (Legacy.removeFrom n pages))%nat.
Proof.
  revert pages. induction n as [|n IH]; intros pages Hpos; simpl; [done|].
  destruct (pages !! n) as [page|] eqn:Hpage; [|by apply IH].
  destruct ((length page =? 0)%nat && (1 <? length pages)%nat) eqn:E; [|by apply IH].
  apply andb_true_iff in E as [_ E]. apply Nat.ltb_lt in E.
  apply IH. unfold Flow.splice_remove. rewrite length_app, length_take, length_drop.
  apply lookup_lt_Some in Hpage. lia.
Qed.

(** When no page holds a block, one page is left. *)
Lemma legacy_removeFrom_none_filled n (pages : Pages) :
  Forall (fun page => (length page =? 0)%nat = true) pages ->
  length pages = n ->
  (length (Legacy.removeFrom n pages) <= 1)%nat.
Proof.
  revert pages. induction n as [|n IH]; intros pages Hall Hlen; [simpl; lia|].
  simpl. destruct (lookup_lt_is_Some_2 pages n ltac:(lia)) as [page Hpage].
  rewrite Hpage. rewrite Forall_lookup in Hall. rewrite (Hall _ _ Hpage). simpl.
  destruct (1 <? length pages)%nat eqn:E1.
  - apply Nat.ltb_lt in E1. apply IH.
    + apply splice_remove_Forall. by apply Forall_lookup.
    + unfold Flow.splice_remove. rewrite length_app, length_take, length_drop. lia.
  - apply Nat.ltb_ge in E1. assert (n = 0)%nat as -> by lia. simpl. lia.
Qed.

Lemma legacy_removeEmptyPages_spec (pages : Pages) :
  concat (Legacy.removeEmptyPages pages) = concat pages
  /\ (pages <> [] -> Legacy.removeEmptyPages pages <> [])
  /\ ((length (Legacy.removeEmptyPages pages) <= 1)%nat
      \/ Forall (fun page => page <> []) (Legacy.removeEmptyPages pages)).
Proof.
  unfold Legacy.removeEmptyPages.
  destruct (length pages =? 0)%nat eqn:E0.
  - apply Nat.eqb_eq in E0. split; [done|]. split; [done|left; lia].
  - apply Nat.eqb_neq in E0. split; [apply legacy_removeFrom_concat|]. split.
    + intros _ H. pose proof (legacy_removeFrom_length (length pages) pages ltac:(lia)) as Hl.
      rewrite H in Hl. simpl in Hl. lia.
    + destruct (forallb (fun page : Page => (length page =? 0)%nat) pages) eqn:E.
      * left. apply legacy_removeFrom_none_filled; [|done].
        by apply forallb_true_Forall.
      * right. rewrite legacy_removeFrom_some_filled;
          [|by apply (forallb_false_Exists (fun page : Page => (length page =? 0)%nat))|lia].
        rewrite take_ge, drop_all, app_nil_r by lia.
        apply Forall_forall. intros page Hin.
        apply list_elem_of_filter in Hin as [Hf _]. intros ->. simpl in Hf. done.
Qed.

End LegacyPrune.

Section LegacyPass.

Variable blockHeight : BlockEl -> Z.

Lemma legacy_forwardLoop_Forall (Q : BlockEl -> Prop) fuel (pages pages' : Pages) :
  Legacy.forwardLoop blockHeight fuel pages = Some pages' ->
  Forall (Forall Q) pages -> Forall (Forall Q) pages'.
Proof.
  revert pages. induction fuel as [|fuel IH]; intros pages H HQ; simpl in H; [done|].
  destruct (Legacy.forwardPass blockHeight pages) as [pages1|] eqn:E.
  - apply (IH pages1 H). by eapply legacy_forwardPass_Forall.
  - by injection H as <-.
Qed.

(** What a completed pass leaves. *)
Lemma legacy_handlePageOverflow_result fuel currentPage (pages pages' : Pages) :
  Legacy.handlePageOverflow blockHeight fuel currentPage pages = Some pages' ->
  concat pages' = concat pages
  /\ (pages <> [] -> pages' <> [])
  /\ ((length pages' <= 1)%nat \/ Forall (fun page => page <> []) pages').
Proof.
  unfold Legacy.handlePageOverflow. intros H.
  destruct (length pages =? 0)%nat eqn:E0.
  { injection H as <-. apply Nat.eqb_eq in E0. split; [done|]. split; [done|left; lia]. }
  unfold Legacy.handleForwardOverflow in H. rewrite E0 in H.
  destruct (Legacy.forwardLoop blockHeight fuel pages) as [pages1|] eqn:E; [|done].
  destruct (Legacy.handleReverseCompaction blockHeight fuel (default 0%nat currentPage) pages1)
    as [pages2|] eqn:E2; [|done].
  injection H as <-.
  destruct (legacy_forwardLoop_result blockHeight fuel pages pages1 E) as (Hc & Hl & _ & _).
  assert (concat pages2 = concat pages1 /\ length pages2 = length pages1) as [Hc2 Hl2].
  { unfold Legacy.handleReverseCompaction in E2.
    destruct (length pages1 =? 0)%nat; [by injection E2 as <-|].
    destruct (legacy_compactFrom_order blockHeight fuel _ _ pages1 pages2
                (default 0%nat currentPage) (Nat.le_refl _) E2) as (H1 & H2 & _).
    done. }
  destruct (legacy_removeEmptyPages_spec pages2) as (Hc3 & Hne & Hshape).
  split; [congruence|]. split; [|done].
  intros _. apply Hne. intros Heq. subst pages2. simpl in Hl2.
  apply Nat.eqb_neq in E0. lia.
Qed.

(** A pass completes when every block carries a block id. *)
Lemma legacy_handlePageOverflow_terminates currentPage (pages : Pages) :
  Forall Spec.identified pages ->
  exists fuel pages', Legacy.handlePageOverflow blockHeight fuel currentPage pages = Some pages'.
Proof.
  intros Hid. unfold Legacy.handlePageOverflow, Legacy.handleForwardOverflow.
  destruct (length pages =? 0)%nat eqn:E0; [by exists 0%nat, pages|].
  destruct (legacy_forwardLoop_terminates blockHeight pages Hid) as (fuel1 & pages1 & H1).
  pose proof (legacy_forwardLoop_Forall _ fuel1 pages pages1 H1 Hid) as Hid1.
  set (fuel := Nat.max fuel1 (S (length (concat pages1)))).
  exists fuel.
  rewrite (legacy_forwardLoop_more blockHeight fuel1 fuel pages pages1 ltac:(lia) H1).
  assert (is_Some (Legacy.handleReverseCompaction blockHeight fuel
                     (default 0%nat currentPage) pages1)) as [pages2 H2].
  { unfold Legacy.handleReverseCompaction. destruct (length pages1 =? 0)%nat; [eauto|].
    apply legacy_compactFrom_terminates; [done|lia]. }
  rewrite H2. eauto.
Qed.

End LegacyPass.

(** X21: a flow pass of the one-block engine.  A pass that completes
    keeps every block of the document in its order; a document with a page
    keeps a page, and afterwards either at most one page is left or no page
    is without a block.  The pass completes, whatever the heights, when
    every block carries a block id. *)
Theorem legacy_flow_pass_keeps_blocks (blockHeight : BlockEl -> Z) currentPage
    (pages : Pages) :
  (forall fuel pages',
      Legacy.handlePageOverflow blockHeight fuel currentPage pages = Some pages' ->
      concat pages' = concat pages
      /\ (pages <> [] -> pages' <> [])
      /\ ((length pages' <= 1)%nat \/ Forall (fun page => page <> []) pages'))
  /\ (Forall (Forall (fun el => Flow.hasBlockId el = true)) pages ->
      exists fuel pages',
        Legacy.handlePageOverflow blockHeight fuel currentPage pages = Some pages').
Proof.
  split.
  - intros fuel pages'. apply legacy_handlePageOverflow_result.
  - apply legacy_handlePageOverflow_terminates.
Qed.

Lemma legacy_flow_pass_keeps_blocks_witness :
  Legacy.handlePageOverflow Examples.heights 5 None Examples.fullPage
  = Some [[Examples.blk "a"; Examples.blk "b"; Examples.blk "c"]; [Examples.blk "d"]]
  /\ concat [[Examples.blk "a"; Examples.blk "b"; Examples.blk "c"]; [Examples.blk "d"]]
     = concat Examples.fullPage
  /\ exists fuel pages',
       Legacy.handlePageOverflow Examples.heights fuel None Examples.fullPage = Some pages'.
Proof.
  split; [reflexivity|].
  destruct (legacy_flow_pass_keeps_blocks Examples.heights None Examples.fullPage)
    as [H Hstop].
  destruct (H 5%nat [[Examples.blk "a"; Examples.blk "b"; Examples.blk "c"];
                     [Examples.blk "d"]] eq_refl) as [Hc _].
  split; [exact Hc|]. apply Hstop. repeat constructor.
Defined.

(** ** The document store *)

Section StoreFacts.

Import Store.

Lemma insertSorted_Permutation {A} (before : A -> A -> bool) x (l : list A) :
  insertSorted before x l ≡ₚ x :: l.
Proof.
  induction l as [|y l IH]; [done|]. simpl.
  destruct (before x y); [done|]. rewrite IH. apply Permutation_swap.
Qed.

Lemma stableSort_Permutation {A} (before : A -> A -> bool) (l : list A) :
  stableSort before l ≡ₚ l.
Proof.
  induction l as [|x l IH]; [done|]. simpl.
  rewrite insertSorted_Permutation. by rewrite IH.
Qed.

Lemma insertSorted_sorted {A} (before : A -> A -> bool) x (l : list A) :
  (forall a b, before a b = true \/ before b a = true) ->
  (forall a b c, before a b = true -> before b c = true -> before a c = true) ->
  StronglySorted (fun a b => before a b = true) l ->
  StronglySorted (fun a b => before a b = true) (insertSorted before x l).
Proof.
  intros Htotal Htrans. induction 1 as [|y l Hs IH Hy]; simpl.
  - repeat constructor.
  - destruct (before x y) eqn:E.
    + constructor; [by constructor|]. constructor; [done|].
      eapply Forall_impl; [exact Hy|]. intros z Hz. by eapply Htrans.
    + constructor; [done|].
      rewrite insertSorted_Permutation. constructor; [|done].
      destruct (Htotal x y); congruence.
Qed.

Lemma stableSort_sorted {A} (before : A -> A -> bool) (l : list A) :
  (forall a b, before a b = true \/ before b a = true) ->
  (forall a b c, before a b = true -> before b c = true -> before a c = true) ->
  StronglySorted (fun a b => before a b = true) (stableSort before l).
Proof.
  intros Htotal Htrans. induction l as [|x l IH]; simpl; [constructor|].
  by apply insertSorted_sorted.
Qed.

Lemma StronglySorted_impl {A} (R R' : A -> A -> Prop) (l : list A) :
  (forall a b, R a b -> R' a b) -> StronglySorted R l -> StronglySorted R' l.
Proof.
  intros Himpl. induction 1 as [|x l Hs IH Hx]; constructor; [done|].
  eapply Forall_impl; [exact Hx|]. intros y. apply Himpl.
Qed.

Lemma slice0_prefix {A} limit (l : list A) : exists n, slice0 limit l = take n l.
Proof. unfold slice0. destruct (limit <? 0); eauto. Qed.

(** The documents of the store, newest first. *)
Lemma newestFirst_spec (st : Storage.State) :
  let sorted :=
    stableSort newerFirst
      (map snd (stableSort indexBefore (map_to_list (Storage.documents st)))) in
  StronglySorted (fun a b => Storage.updatedAt b <= Storage.updatedAt a) sorted
  /\ length sorted = size (Storage.documents st)
  /\ (forall d, d ∈ sorted <-> exists key, Storage.documents st !! key = Some d).
Proof.
  intros sorted. split; [|split].
  - apply (StronglySorted_impl (fun a b => newerFirst a b = true)).
    + intros a b H. by apply Z.leb_le in H.
    + apply stableSort_sorted.
      * intros a b. unfold newerFirst. rewrite !Z.leb_le. lia.
      * intros a b c. unfold newerFirst. rewrite !Z.leb_le. lia.
  - unfold sorted. rewrite stableSort_Permutation, length_map, stableSort_Permutation.
    apply length_map_to_list.
  - intros d. unfold sorted. rewrite stableSort_Permutation.
    rewrite list_elem_of_fmap. setoid_rewrite stableSort_Permutation. split.
    + intros ([key d'] & -> & Hin). exists key. by apply elem_of_map_to_list in Hin.
    + intros [key Hkey]. exists (key, d). split; [done|]. by apply elem_of_map_to_list.
Qed.

Lemma recent_documents_sorted_from_store limit (st : Storage.State) d :
  d ∈ getRecentDocuments limit st -> exists key, Storage.documents st !! key = Some d.
Proof.
  unfold getRecentDocuments. intros Hd.
  destruct (newestFirst_spec st) as (_ & _ & Hin).
  destruct (slice0_prefix limit
              (stableSort newerFirst
                 (map snd (stableSort indexBefore (map_to_list (Storage.documents st))))))
    as [n Hn].
  rewrite Hn in Hd. apply Hin.
  rewrite <- (take_drop n (stableSort newerFirst _)). apply elem_of_app. by left.
Qed.

End StoreFacts.

(** X22: [getRecentDocuments] lists documents of the store, the newest
    first; with a limit that is not negative it lists as many as the limit
    allows, and every document it leaves out is at most as new as every
    document it lists. *)
Theorem recent_documents_newest_first limit (st : Storage.State) :
  let recent := Store.getRecentDocuments limit st in
  StronglySorted (fun a b => Storage.updatedAt b <= Storage.updatedAt a) recent
  /\ (forall d, d ∈ recent -> exists key, Storage.documents st !! key = Some d)
  /\ (0 <= limit ->
      length recent = Nat.min (Z.to_nat limit) (size (Storage.documents st)))
  /\ (forall d key d',
        d ∈ recent -> Storage.documents st !! key = Some d' -> d' ∉ recent ->
        Storage.updatedAt d' <= Storage.updatedAt d).
Proof.
  intros recent. unfold recent, Store.getRecentDocuments.
  destruct (newestFirst_spec st) as (Hsorted & Hlen & Hin).
  set (sorted := Store.stableSort Store.newerFirst _) in *.
  destruct (slice0_prefix limit sorted) as [n Hn].
  split; [|split; [|split]].
  - rewrite Hn. rewrite <- (take_drop n sorted) in Hsorted.
    by apply StronglySorted_app_1_l in Hsorted.
  - intros d Hd. apply Hin. rewrite Hn in Hd.
    rewrite <- (take_drop n sorted). apply elem_of_app. by left.
  - intros Hlimit. unfold Store.slice0.
    replace (limit <? 0) with false by (symmetry; apply Z.ltb_ge; lia).
    by rewrite length_take, Hlen.
  - intros d key d' Hd Hkey Hout. rewrite Hn in Hd, Hout.
    assert (d' ∈ sorted) as Hd' by (apply Hin; eauto).
    rewrite <- (take_drop n sorted) in Hd', Hsorted.
    apply elem_of_app in Hd' as [Hd'|Hd']; [done|].
    exact (StronglySorted_app_1_elem_of _ _ _ _ _ Hsorted Hd Hd').
Qed.

Lemma recent_documents_newest_first_witness :
  length (Store.getRecentDocuments Store.defaultLimit
            (Storage.saveDocument 250 0%nat Examples.session))
  = Nat.min (Z.to_nat Store.defaultLimit)
      (size (Storage.documents (Storage.saveDocument 250 0%nat Examples.session))).
Proof.
  apply (recent_documents_newest_first Store.defaultLimit
           (Storage.saveDocument 250 0%nat Examples.session)).
  unfold Store.defaultLimit. lia.
Defined.

(** X23: a document that has just been saved leads the list of the recent
    documents, when the time of saving is later than the time stamp of
    every other document of the store. *)
Theorem saved_document_is_most_recent now doc (st : Storage.State) d limit :
  Storage.heap st !! doc = Some d ->
  (forall key d', key <> Storage.id d -> Storage.documents st !! key = Some d' ->
                  Storage.updatedAt d' < now) ->
  0 < limit ->
  head (Store.getRecentDocuments limit (Storage.saveDocument now doc st))
  = Some {| Storage.id := Storage.id d; Storage.title := Storage.title d;
            Storage.pages := Storage.pages d; Storage.createdAt := Storage.createdAt d;
            Storage.updatedAt := now |}.
Proof.
  intros Hd Hold Hlimit.
  set (d1 := {| Storage.id := Storage.id d; Storage.title := Storage.title d;
                Storage.pages := Storage.pages d; Storage.createdAt := Storage.createdAt d;
                Storage.updatedAt := now |}).
  set (st' := Storage.saveDocument now doc st).
  assert (Storage.documents st' = <[Storage.id d := d1]> (Storage.documents st)) as Hdocs.
  { unfold st', Storage.saveDocument. by rewrite Hd. }
  unfold Store.getRecentDocuments.
  destruct (newestFirst_spec st') as (Hsorted & Hlen & Hin).
  set (sorted := Store.stableSort Store.newerFirst _) in *.
  assert (d1 ∈ sorted) as Hd1.
  { apply Hin. exists (Storage.id d). rewrite Hdocs. apply lookup_insert_eq. }
  unfold Store.slice0.
  replace (limit <? 0) with false by (symmetry; apply Z.ltb_ge; lia).
  destruct sorted as [|h tl] eqn:Es; [by apply elem_of_nil in Hd1|].
  destruct (Z.to_nat limit) as [|n] eqn:En; [lia|]. cbn [take head]. f_equal.
  assert (h ∈ h :: tl) as Hh by apply list_elem_of_here.
  apply Hin in Hh as [key Hkey]. rewrite Hdocs in Hkey.
  destruct (decide (key = Storage.id d)) as [->|Hne].
  - rewrite lookup_insert_eq in Hkey. by injection Hkey.
  - rewrite lookup_insert_ne in Hkey by done.
    pose proof (Hold key h Hne Hkey) as Hlt.
    apply elem_of_cons in Hd1 as [Heq|Htl]; [done|].
    apply StronglySorted_inv in Hsorted as [_ Hall].
    rewrite Forall_forall in Hall. specialize (Hall d1 Htl). simpl in Hall. lia.
Qed.

Lemma saved_document_is_most_recent_witness :
  head (Store.getRecentDocuments 10 (Storage.saveDocument 250 0%nat Examples.session))
  = Some {| Storage.id := "doc-1"; Storage.title := "Untitled Document";
            Storage.pages := []; Storage.createdAt := 100; Storage.updatedAt := 250 |}.
Proof.
  apply (saved_document_is_most_recent 250 0%nat Examples.session Examples.draft 10).
  - reflexivity.
  - intros key d' _ H. unfold Examples.session in H. simpl in H.
    by rewrite lookup_empty in H.
  - lia.
Defined.

(** X24: [deleteDocument] removes the record of the given id and nothing
    else: the document can no longer be loaded nor listed, every other
    record and every object of the program stay as they are, and deleting
    an id that is not in the store changes nothing. *)
Theorem deleteDocument_removes_one_record docId (st : Storage.State) :
  let st' := Store.deleteDocument docId st in
  Store.getDocument docId st' = None
  /\ (forall other, other <> docId -> Store.getDocument other st' = Store.getDocument other st)
  /\ Storage.heap st' = Storage.heap st
  /\ (forall limit d, d ∈ Store.getRecentDocuments limit st' ->
        exists key, key <> docId /\ Storage.documents st !! key = Some d)
  /\ (Store.getDocument docId st = None -> st' = st).
Proof.
  intros st'. unfold st', Store.getDocument, Store.deleteDocument. simpl.
  split; [apply lookup_delete_eq|]. split; [intros other Hne; by apply lookup_delete_ne|].
  split; [done|]. split.
  - intros limit d Hd.
    destruct (recent_documents_sorted_from_store limit st' d) as [key Hkey];
      [exact Hd|].
    unfold st', Store.deleteDocument in Hkey. simpl in Hkey.
    destruct (decide (key = docId)) as [->|Hne].
    + by rewrite lookup_delete_eq in Hkey.
    + rewrite lookup_delete_ne in Hkey by done. eauto.
  - intros Hnone. destruct st as [heap documents]. simpl in *. f_equal.
    by apply delete_id.
Qed.

(** X25: the document that the home page creates can be loaded under its
    id: it has the title [Untitled Document] and one page, numbered 1, with
    one empty paragraph; it was created at the time of its creation and
    updated at the time of saving.  Every other record and every object
    that existed stay as they are. *)
Theorem new_document_loads docId blockId now saveTime (st : Storage.State) :
  let st' := Store.handleCreateNewDocument docId blockId now saveTime st in
  Store.getDocument docId st'
  = Some {| Storage.id := docId; Storage.title := "Untitled Document";
            Storage.pages :=
              [ {| Storage.number := 1;
                   Storage.blocks :=
                     [ {| Storage.blockId := blockId; Storage.type := Storage.paragraph;
                          Storage.content := EmptyString;
                          Storage.metadata := None |} ] |} ];
            Storage.createdAt := now; Storage.updatedAt := saveTime |}
  /\ (forall other, other <> docId ->
        Store.getDocument other st' = Store.getDocument other st)
  /\ (forall ref d, Storage.heap st !! ref = Some d -> Storage.heap st' !! ref = Some d).
Proof.
  intros st'. unfold st', Store.handleCreateNewDocument, Storage.saveDocument,
    Store.getDocument.
  cbn [Storage.heap Storage.documents]. rewrite lookup_insert_eq.
  cbn [Storage.heap Storage.documents Storage.id Store.createEmptyDocument].
  split; [apply lookup_insert_eq|]. split.
  - intros other Hne. by apply lookup_insert_ne.
  - intros ref d Href. rewrite insert_insert_eq.
    rewrite lookup_insert_ne; [done|]. intros <-.
    apply (is_fresh (dom (Storage.heap st))). apply elem_of_dom. eauto.
Qed.

Section TitleFacts.

Import PageBreak.

Lemma trimStart_head_not_white s c rest :
  trimStart s = String c rest -> isWhiteSpace c = false.
Proof.
  induction s as [|c' s IH]; simpl; [done|].
  destruct (isWhiteSpace c') eqn:E; [done|]. intros H. by injection H as <- _.
Qed.

(** A trimmed string that is not empty holds a character that is not white
    space. *)
Lemma trim_truthy_not_white s :
  truthy (trim s) = true -> allWhiteSpace (trim s) = false.
Proof.
  unfold truthy, trim, trimEnd. intros H.
  rewrite allWhiteSpace_rev.
  destruct (trimStart (String.rev (trimStart s))) as [|c rest] eqn:E; [done|].
  simpl. by rewrite (trimStart_head_not_white _ _ _ E).
Qed.

End TitleFacts.

(** X26: [handleTitleSave] never leaves a title that is empty or white
    space: the title becomes the trimmed input, or [Untitled Document] when
    the input is empty or white space.  The id, the pages and the time of
    creation are kept; the document is replaced, and its time stamp set to
    the current time, only when the title changes; saving the same input
    again changes nothing. *)
Theorem title_save_never_blank now titleValue (document : Storage.Document) :
  let document' := Store.handleTitleSave now titleValue document in
  Storage.title document'
  = (if PageBreak.allWhiteSpace titleValue then "Untitled Document"
     else PageBreak.trim titleValue)
  /\ PageBreak.allWhiteSpace (Storage.title document') = false
  /\ Storage.id document' = Storage.id document
  /\ Storage.pages document' = Storage.pages document
  /\ Storage.createdAt document' = Storage.createdAt document
  /\ Storage.updatedAt document'
     = (if bool_decide (Storage.title document' = Storage.title document)
        then Storage.updatedAt document else now)
  /\ (Storage.title document' = Storage.title document -> document' = document)
  /\ Store.handleTitleSave now titleValue document' = document'.
Proof.
  intros document'. unfold document', Store.handleTitleSave. cbv zeta.
  set (trimmedTitle := if PageBreak.truthy (PageBreak.trim titleValue)
                       then PageBreak.trim titleValue else "Untitled Document").
  assert (trimmedTitle
          = (if PageBreak.allWhiteSpace titleValue then "Untitled Document"
             else PageBreak.trim titleValue)) as Htrimmed.
  { unfold trimmedTitle. destruct (PageBreak.allWhiteSpace titleValue) eqn:E.
    - by rewrite (trim_whitespace _ E).
    - by rewrite (trim_truthy _ E). }
  assert (PageBreak.allWhiteSpace trimmedTitle = false) as Hnw.
  { unfold trimmedTitle. destruct (PageBreak.truthy _) eqn:E; [|done].
    by apply trim_truthy_not_white. }
  destruct (bool_decide (trimmedTitle = Storage.title document)) eqn:Heq.
  - apply bool_decide_eq_true in Heq.
    split; [by rewrite <- Heq|]. split; [by rewrite <- Heq|].
    split; [done|]. split; [done|]. split; [done|].
    split; [by rewrite bool_decide_eq_true_2|]. split; [done|].
    by rewrite bool_decide_eq_true_2.
  - apply bool_decide_eq_false in Heq.
    cbn [Storage.id Storage.pages Storage.createdAt Storage.title Storage.updatedAt].
    split; [done|]. split; [done|]. split; [done|]. split; [done|]. split; [done|].
    split; [by rewrite bool_decide_eq_false_2|]. split; [by intros Hsame|].
    by rewrite bool_decide_eq_true_2.
Qed.

(** A new title with white space around it, typed at time 300. *)
Lemma title_save_never_blank_witness :
  Storage.title (Store.handleTitleSave 300 "  My notes " Examples.draft) = "My notes"
  /\ Storage.updatedAt (Store.handleTitleSave 300 "  My notes " Examples.draft) = 300
  /\ Storage.title (Store.handleTitleSave 300 "   " Examples.draft) = "Untitled Document".
Proof.
  pose proof (title_save_never_blank 300 "  My notes " Examples.draft)
    as (Htitle & _ & _ & _ & _ & Htime & _).
  pose proof (title_save_never_blank 300 "   " Examples.draft) as (Hblank & _).
  split; [exact Htitle|]. split; [exact Htime|exact Hblank].
Defined.

(** ** Block elements *)

Section ElementFacts.

Import Elements.

Variable exponentNotation : Z -> string.

Abbreviation numberToString := (Elements.numberToString exponentNotation).

Lemma parseDigits_uint_acc d acc :
  parseDigits (Z.pos acc) (DecimalString.NilEmpty.string_of_uint d)
  = Z.pos (Pos.of_uint_acc d acc).
Proof.
  revert acc. induction d as [|d IH|d IH|d IH|d IH|d IH|d IH|d IH|d IH|d IH|d IH];
    intros acc; [done|..];
    cbn [DecimalString.NilEmpty.string_of_uint parseDigits Pos.of_uint_acc];
    match goal with
    | |- context [digitValue ?c] =>
        let v := eval vm_compute in (digitValue c) in change (digitValue c) with v
    end; cbv iota; rewrite <- IH; f_equal; lia.
Qed.

Lemma parseDigits_uint d :
  parseDigits 0 (DecimalString.NilEmpty.string_of_uint d) = Z.of_N (Pos.of_uint d).
Proof.
  induction d as [|d IH|d IH|d IH|d IH|d IH|d IH|d IH|d IH|d IH|d IH]; [done|exact IH|..];
    cbn [DecimalString.NilEmpty.string_of_uint parseDigits Pos.of_uint];
    match goal with
    | |- context [digitValue ?c] =>
        let v := eval vm_compute in (digitValue c) in change (digitValue c) with v
    end; cbv iota; cbn [Z.of_N]; rewrite <- parseDigits_uint_acc; f_equal.
Qed.

(** The decimal string of a positive number starts with a digit. *)
Lemma string_of_uint_head d :
  d <> Decimal.Nil ->
  DecimalString.NilZero.string_of_uint d = DecimalString.NilEmpty.string_of_uint d
  /\ exists c rest,
       DecimalString.NilEmpty.string_of_uint d = String c rest
       /\ is_Some (digitValue c)
       /\ PageBreak.isWhiteSpace c = false
       /\ Ascii.eqb c "-"%char = false /\ Ascii.eqb c "+"%char = false.
Proof.
  intros Hd. destruct d; [done|..]; (split; [done|]);
    eexists _, _; (split; [reflexivity|]); repeat split; vm_compute; eauto.
Qed.

(** The string of a safe integer reads back as the integer. *)
Lemma parseInt_numberToString z :
  Z.abs z < 2 ^ 53 -> parseInt (numberToString (Int z)) = Int z.
Proof.
  intros Hz. unfold Elements.numberToString.
  replace (Z.abs z <? 2 ^ 53) with true by (symmetry; by apply Z.ltb_lt).
  destruct z as [|p|p]; [done| |].
  - assert (Pos.to_uint p <> Decimal.Nil) as Hd.
    { intros H. pose proof (DecimalPos.Unsigned.of_to p) as Ho. by rewrite H in Ho. }
    destruct (string_of_uint_head _ Hd) as (Heq & c & rest & Hs & Hdig & Hws & Hm & Hp).
    unfold parseInt. cbn [Z.to_int DecimalString.NilZero.string_of_int].
    rewrite Heq, Hs. cbn [PageBreak.trimStart]. rewrite Hws, Hm, Hp.
    unfold startsWithDigit. rewrite bool_decide_eq_true_2 by done.
    rewrite <- Hs, parseDigits_uint, DecimalPos.Unsigned.of_to. done.
  - assert (Pos.to_uint p <> Decimal.Nil) as Hd.
    { intros H. pose proof (DecimalPos.Unsigned.of_to p) as Ho. by rewrite H in Ho. }
    destruct (string_of_uint_head _ Hd) as (Heq & c & rest & Hs & Hdig & Hws & Hm & Hp).
    unfold parseInt. cbn [Z.to_int DecimalString.NilZero.string_of_int].
    rewrite Heq. cbn [PageBreak.trimStart].
    change (PageBreak.isWhiteSpace "-") with false. cbv iota.
    change (Ascii.eqb "-" "-") with true. cbv iota.
    rewrite Hs. unfold startsWithDigit. rewrite bool_decide_eq_true_2 by done.
    rewrite <- Hs, parseDigits_uint, DecimalPos.Unsigned.of_to. done.
Qed.

Lemma numberToString_nonempty z :
  Z.abs z < 2 ^ 53 -> exists c rest, numberToString (Int z) = String c rest.
Proof.
  intros Hz. unfold Elements.numberToString.
  replace (Z.abs z <? 2 ^ 53) with true by (symmetry; by apply Z.ltb_lt).
  destruct z as [|p|p]; [by eexists _, _| |].
  - assert (Pos.to_uint p <> Decimal.Nil) as Hd.
    { intros H. pose proof (DecimalPos.Unsigned.of_to p) as Ho. by rewrite H in Ho. }
    destruct (string_of_uint_head _ Hd) as (Heq & c & rest & Hs & _).
    exists c, rest. cbn [Z.to_int DecimalString.NilZero.string_of_int].
    by rewrite Heq.
  - by eexists _, _.
Qed.

(** The tag of a heading, for a level between 1 and 6. *)
Lemma heading_tag n :
  1 <= n <= 6 ->
  String.append "h" (numberToString (Int n))
    ∈ ["h1"; "h2"; "h3"; "h4"; "h5"; "h6"]
  /\ tagLevel (String.append "h" (numberToString (Int n))) = Some (Int n).
Proof.
  intros Hn.
  assert (n = 1 \/ n = 2 \/ n = 3 \/ n = 4 \/ n = 5 \/ n = 6) as Hcases by lia.
  clear Hn. destruct Hcases as [H|[H|[H|[H|[H|H]]]]]; subst n; (split; [|reflexivity]);
    vm_compute; repeat (first [apply list_elem_of_here | apply list_elem_of_further]).
Qed.

End ElementFacts.

(** X27: the tag of a block element is [div], [p], [li] or one of [h1] to
    [h6], whatever the metadata: the level of a heading is brought into the
    range from 1 to 6, a level that is missing, 0 or not a number counts as
    1, and the level read off the tag is that level. *)
Theorem getBlockTag_is_a_block_tag (exponentNotation : Z -> string)
    (block : Elements.Block) :
  Elements.getBlockTag exponentNotation block
    ∈ ["div"; "p"; "li"; "h1"; "h2"; "h3"; "h4"; "h5"; "h6"]
  /\ (Elements.metaIsPageBreak block = false ->
      Elements.type block = Storage.heading ->
      exists n,
        1 <= n <= 6
        /\ Elements.getBlockTag exponentNotation block
           = String.append "h" (Elements.numberToString exponentNotation (Elements.Int n))
        /\ Elements.tagLevel (Elements.getBlockTag exponentNotation block)
           = Some (Elements.Int n)
        /\ (forall z, Elements.metaLevel block = Some (Elements.Int z) ->
                      (1 <= z <= 6 -> n = z) /\ (6 < z -> n = 6) /\ (z < 1 -> n = 1))
        /\ (Elements.metaLevel block = None -> n = 1)).
Proof.
  unfold Elements.getBlockTag.
  set (n := Z.min (Z.max (Elements.levelOrOne (Elements.metaLevel block)) 1) 6).
  assert (1 <= n <= 6) as Hn by (unfold n; lia).
  destruct (heading_tag exponentNotation n Hn) as [Hin Hlevel].
  split.
  - destruct (Elements.metaIsPageBreak block); [apply list_elem_of_here|].
    destruct (Elements.type block).
    + apply list_elem_of_further, list_elem_of_here.
    + do 3 apply list_elem_of_further. exact Hin.
    + do 2 apply list_elem_of_further. apply list_elem_of_here.
  - intros -> ->. exists n. split; [done|]. split; [done|]. split; [done|]. split.
    + intros z Hz. unfold n. rewrite Hz. cbn [Elements.levelOrOne].
      destruct (z =? 0) eqn:E; [apply Z.eqb_eq in E|apply Z.eqb_neq in E]; lia.
    + intros Hnone. unfold n. by rewrite Hnone.
Qed.

Lemma getBlockTag_is_a_block_tag_witness :
  exists n,
    1 <= n <= 6
    /\ Elements.getBlockTag (fun _ => "1e+21")
         {| Elements.id := "b"; Elements.type := Storage.heading;
            Elements.content := EmptyString;
            Elements.metadata :=
              Some {| Elements.alignment := None;
                      Elements.level := Some (Elements.Int 9);
                      Elements.styles := None; Elements.isPageBreak := false |} |}
       = String.append "h" (Elements.numberToString (fun _ => "1e+21") (Elements.Int n))
    /\ n = 6.
Proof.
  destruct (getBlockTag_is_a_block_tag (fun _ => "1e+21")
              {| Elements.id := "b"; Elements.type := Storage.heading;
                 Elements.content := EmptyString;
                 Elements.metadata :=
                   Some {| Elements.alignment := None;
                           Elements.level := Some (Elements.Int 9);
                           Elements.styles := None; Elements.isPageBreak := false |} |})
    as [_ H].
  destruct (H eq_refl eq_refl) as (n & Hn & Htag & _ & Hz & _).
  exists n. split; [exact Hn|]. split; [exact Htag|].
  destruct (Hz 9 eq_refl) as (_ & H6 & _). apply H6. lia.
Defined.

(** X28: a block survives the way through its element.  Read back from
    the element that [createBlockElement] makes, a block has its id; a page
    break comes back as a paragraph marked as page break; any other block
    has its type, its alignment and its content as the element serializes
    it; the level of a block that is no heading and the styles are gone.  A
    heading has its level when that is a safe integer (below 2^53 in
    absolute value), or level 1 when it had none; the level that comes back
    for a larger one is what [parseInt] reads of the way [String] writes
    it. *)
Theorem block_survives_its_element (exponentNotation : Z -> string)
    (parseHTML : string -> list Node) (block : Elements.Block) :
  Elements.id block <> EmptyString ->
  exists block',
    Elements.readBlock (Elements.createBlockElement exponentNotation parseHTML block)
    = Some block'
    /\ Elements.id block' = Elements.id block
    /\ Elements.metaIsPageBreak block' = Elements.metaIsPageBreak block
    /\ Elements.metadata block' ≫= Elements.styles = None
    /\ (Elements.metaIsPageBreak block = true ->
        Elements.type block' = Storage.paragraph
        /\ Elements.content block' = EmptyString
        /\ Elements.metaAlignment block' = None /\ Elements.metaLevel block' = None)
    /\ (Elements.metaIsPageBreak block = false ->
        Elements.type block' = Elements.type block
        /\ Elements.content block'
           = Format.extractFormattedContent (parseHTML (Elements.content block))
        /\ Elements.metaAlignment block' = Elements.metaAlignment block
        /\ (Elements.type block <> Storage.heading -> Elements.metaLevel block' = None)
        /\ (Elements.type block = Storage.heading ->
            (forall z, Elements.metaLevel block = Some (Elements.Int z) ->
                       Z.abs z < 2 ^ 53) ->
            Elements.metaLevel block'
            = Some (match Elements.metaLevel block with
                    | Some l => if Elements.truthyNum l then l else Elements.Int 1
                    | None => Elements.Int 1
                    end))
        /\ (forall z c rest,
              Elements.type block = Storage.heading ->
              Elements.metaLevel block = Some (Elements.Int z) ->
              2 ^ 53 <= Z.abs z ->
              exponentNotation z = String c rest ->
              Elements.metaLevel block'
              = Some (Elements.parseInt (exponentNotation z)))).
Proof.
  intros Hid. unfold Elements.readBlock, Elements.createBlockElement.
  destruct (Elements.id block) as [|c rest] eqn:Eid; [done|].
  destruct (Elements.metaIsPageBreak block) eqn:Epb.
  - cbn [Elements.dataBlockId]. eexists. split; [reflexivity|].
    repeat split; try done.
  - cbn [Elements.dataBlockId]. eexists. split; [reflexivity|].
    cbn [Elements.id Elements.type Elements.content Elements.metadata Elements.dataPageBreak
         Elements.childNodes].
    assert (Elements.alignmentOf
              match Elements.metaAlignment block with
              | Some a => Elements.alignmentName a
              | None => EmptyString
              end = Elements.metaAlignment block) as Halign.
    { destruct (Elements.metaAlignment block) as [[]|]; reflexivity. }
    unfold Elements.getBlockTypeFromElement, Elements.getBlockMetadataFromElement.
    cbn [Elements.dataPageBreak Elements.className Elements.textAlign Elements.dataLevel
         Elements.tagName].
    rewrite Halign.
    destruct (Elements.type block) eqn:Etype.
    + (* paragraph *)
      change (Elements.includesString "heading" _) with false.
      change (Elements.includesString "list" _) with false. cbv iota.
      destruct (Elements.metaAlignment block) as [a|] eqn:Ea;
        unfold Elements.metaIsPageBreak, Elements.metaAlignment, Elements.metaLevel;
        cbn; repeat split; done.
    + (* heading *)
      change (Elements.includesString "heading" _) with true. cbv iota.
      set (level' :=
             match
               match Elements.metaLevel block with
               | Some l =>
                   if Elements.truthyNum l
                   then Some (Elements.numberToString exponentNotation l)
                   else None
               | None => None
               end
             with
             | Some (String c0 rest0) => Some (Elements.parseInt (String c0 rest0))
             | _ => Elements.tagLevel (Elements.getBlockTag exponentNotation block)
             end).
      assert ((forall z, Elements.metaLevel block = Some (Elements.Int z) ->
                         Z.abs z < 2 ^ 53) ->
              level' = Some (match Elements.metaLevel block with
                             | Some l => if Elements.truthyNum l then l else Elements.Int 1
                             | None => Elements.Int 1
                             end)) as Hsmall.
      { intros Hbound. unfold level'.
        assert (forall l, Elements.truthyNum l = false \/ Elements.metaLevel block = None ->
                          Elements.metaLevel block = Some l \/ Elements.metaLevel block = None ->
                          Elements.tagLevel (Elements.getBlockTag exponentNotation block)
                          = Some (Elements.Int 1)) as Htag.
        { intros l Hfalsy Hl. unfold Elements.getBlockTag. rewrite Epb, Etype.
          destruct Hl as [Hl|Hl]; rewrite Hl; [|done].
          destruct Hfalsy as [Hf|Hf]; [|congruence].
          destruct l as [|z]; [done|]. simpl in Hf.
          apply negb_false_iff, Z.eqb_eq in Hf. by subst z. }
        destruct (Elements.metaLevel block) as [l|] eqn:El.
        - destruct (Elements.truthyNum l) eqn:Et.
          + destruct l as [|z]; [done|].
            destruct (numberToString_nonempty exponentNotation z (Hbound z eq_refl))
              as (c0 & rest0 & Hs).
            rewrite Hs, <- Hs. by rewrite parseInt_numberToString by (by apply Hbound).
          + apply (Htag l); auto.
        - apply (Htag Elements.NaN); auto. }
      assert (forall z c0 rest0,
                 Elements.metaLevel block = Some (Elements.Int z) ->
                 2 ^ 53 <= Z.abs z ->
                 exponentNotation z = String c0 rest0 ->
                 level' = Some (Elements.parseInt (exponentNotation z))) as Hlarge.
      { intros z c0 rest0 Hl Hz Hs. unfold level'. rewrite Hl.
        assert (Elements.truthyNum (Elements.Int z) = true) as ->.
        { simpl. apply negb_true_iff, Z.eqb_neq. lia. }
        unfold Elements.numberToString.
        replace (Z.abs z <? 2 ^ 53) with false by (symmetry; by apply Z.ltb_ge).
        by rewrite Hs. }
      clearbody level'.
      destruct (Elements.metaAlignment block) as [a|] eqn:Ea; destruct level' as [lv|];
        unfold Elements.metaIsPageBreak, Elements.metaAlignment, Elements.metaLevel in *;
        cbn [Elements.metadata Elements.isPageBreak Elements.alignment Elements.level
             Elements.styles mbind option_bind];
        (split; [done|]); (split; [done|]); (split; [done|]);
        (split; [done|]); intros _;
        (split; [done|]); (split; [done|]); (split; [done|]);
        (split; [done|]);
        (split; [intros _ Hbound; by rewrite <- (Hsmall Hbound)|]);
        intros z c0 rest0 _ Hl Hz Hs; by rewrite <- (Hlarge z c0 rest0 Hl Hz Hs).
    + (* list *)
      change (Elements.includesString "heading" _) with false.
      change (Elements.includesString "list" _) with true. cbv iota.
      destruct (Elements.metaAlignment block) as [a|] eqn:Ea;
        unfold Elements.metaIsPageBreak, Elements.metaAlignment, Elements.metaLevel;
        cbn; repeat split; done.
Qed.

Lemma block_survives_its_element_witness :
  exists block',
    Elements.readBlock
      (Elements.createBlockElement (fun _ => "1e+21") (fun _ => [TextNode "Title"])
         {| Elements.id := "b"; Elements.type := Storage.heading;
            Elements.content := "Title";
            Elements.metadata :=
              Some {| Elements.alignment := Some Storage.center;
                      Elements.level := Some (Elements.Int 2);
                      Elements.styles := None; Elements.isPageBreak := false |} |})
    = Some block'
    /\ Elements.id block' = "b"
    /\ Elements.type block' = Storage.heading
    /\ Elements.metaAlignment block' = Some Storage.center
    /\ Elements.metaLevel block' = Some (Elements.Int 2).
Proof.
  destruct (block_survives_its_element (fun _ => "1e+21") (fun _ => [TextNode "Title"])
              {| Elements.id := "b"; Elements.type := Storage.heading;
                 Elements.content := "Title";
                 Elements.metadata :=
                   Some {| Elements.alignment := Some Storage.center;
                           Elements.level := Some (Elements.Int 2);
                           Elements.styles := None; Elements.isPageBreak := false |} |})
    as (block' & Hread & Hid & _ & _ & _ & Hrest); [discriminate|].
  destruct (Hrest eq_refl) as (Htype & _ & Halign & _ & Hlevel & _).
  exists block'. split; [exact Hread|]. split; [exact Hid|]. split; [exact Htype|].
  split; [exact Halign|].
  apply Hlevel; [reflexivity|]. intros z Hz. injection Hz as <-. reflexivity.
Defined.

(** A level of 10^21 is written [1e+21] and comes back as level 1. *)
Lemma heading_level_lost_in_exponent_notation :
  Elements.readBlock
    (Elements.createBlockElement (fun _ => "1e+21") (fun _ => [])
       {| Elements.id := "b"; Elements.type := Storage.heading;
          Elements.content := EmptyString;
          Elements.metadata :=
            Some {| Elements.alignment := None;
                    Elements.level := Some (Elements.Int (10 ^ 21));
                    Elements.styles := None; Elements.isPageBreak := false |} |})
  ≫= Elements.metaLevel
  = Some (Elements.Int 1).
Proof. reflexivity. Qed.

Section TypeChange.

Import Elements.

Lemma optText_text s : Format.textContent (optText s) = s.
Proof. unfold optText. destruct s; [done|]. apply textContent_text. Qed.

End TypeChange.

(** X29: [handleBlockTypeChange] turns every block of the selection that
    has a block id and is no page break into a block of the chosen type,
    with the same id, alignment and text and with no formatting: the element
    that replaces the block has the tag of the chosen type, reads back as
    the chosen type and level, and holds the text of the block in at most
    one text node.  Page breaks, elements without a block id and blocks
    outside the selection are not touched, and the number of blocks stays
    the same. *)
Theorem block_type_change_keeps_text (exponentNotation : Z -> string)
    (blockTypeOption : Elements.BlockTypeOption)
    (intersects : Elements.Element -> bool) (blocks : list Elements.Element) :
  let blocks' :=
    Elements.handleBlockTypeChange exponentNotation blockTypeOption intersects blocks in
  length blocks' = length blocks
  /\ (forall i block,
        blocks !! i = Some block ->
        is_Some (Elements.dataBlockId block) ->
        Elements.dataPageBreak block = false ->
        intersects block = true ->
        exists block',
          blocks' !! i = Some block'
          /\ Elements.tagName block'
             = match blockTypeOption with
               | Elements.h1 => "h1"
               | Elements.h2 => "h2"
               | Elements.h3 => "h3"
               | Elements.paragraphOption => "p"
               end
          /\ Elements.getBlockTypeFromElement block' = Elements.optionType blockTypeOption
          /\ Elements.getBlockMetadataFromElement block' ≫= Elements.level
             = Elements.optionLevel blockTypeOption
          /\ Elements.dataPageBreak block' = false
          /\ Elements.childNodes block'
             = optText (Format.textContent (Elements.childNodes block))
          /\ Format.textContent (Elements.childNodes block')
             = Format.textContent (Elements.childNodes block)
          /\ Elements.dataBlockId block' = Elements.dataBlockId block
          /\ Elements.textAlign block' = Elements.textAlign block)
  /\ (forall i block,
        blocks !! i = Some block ->
        Elements.dataPageBreak block = true \/ Elements.dataBlockId block = None
        \/ intersects block = false ->
        blocks' !! i = Some block).
Proof.
  intros blocks'. unfold blocks'. split; [|split].
  - unfold Elements.handleBlockTypeChange. apply length_map.
  - intros i block Hi [blockId Hid] Hpb Hsel. unfold Elements.handleBlockTypeChange.
    rewrite list_lookup_fmap, Hi. cbn [fmap option_fmap option_map].
    rewrite Hpb, Hsel, bool_decide_eq_true_2 by (rewrite Hid; eauto). cbn [negb andb].
    eexists. split; [reflexivity|]. unfold Elements.changeBlockType.
    cbn [Elements.childNodes Elements.dataBlockId Elements.textAlign Elements.tagName
         Elements.dataPageBreak].
    split; [by destruct blockTypeOption|].
    split; [by destruct blockTypeOption|].
    split.
    { unfold Elements.getBlockMetadataFromElement.
      cbn [Elements.dataPageBreak Elements.className Elements.dataLevel Elements.tagName
           Elements.textAlign].
      destruct blockTypeOption; cbn;
        destruct (Elements.alignmentOf (Elements.textAlign block)); reflexivity. }
    split; [done|]. split; [done|]. split; [apply optText_text|].
    split; [by rewrite Hid|done].
  - intros i block Hi Hskip. unfold Elements.handleBlockTypeChange.
    rewrite list_lookup_fmap, Hi. cbn [fmap option_fmap option_map]. f_equal.
    destruct Hskip as [H|[H|H]]; rewrite H.
    + by rewrite andb_false_r.
    + by rewrite bool_decide_eq_false_2 by (by intros [? ?]).
    + by rewrite andb_false_r.
Qed.

(** A paragraph with a bold word becomes a heading of level 2. *)
Lemma block_type_change_keeps_text_witness :
  exists block',
    Elements.handleBlockTypeChange (fun _ => "1e+21") Elements.h2 (fun _ => true)
      [ {| Elements.tagName := "p"; Elements.className := "block paragraph";
           Elements.dataBlockId := Some "b"; Elements.dataPageBreak := false;
           Elements.dataLevel := None; Elements.textAlign := "center";
           Elements.childNodes :=
             [TextNode "Hello "; SpanNode [bold] [TextNode "World"]] |} ] !! 0%nat
    = Some block'
    /\ Elements.tagName block' = "h2"
    /\ Elements.getBlockTypeFromElement block' = Storage.heading
    /\ Elements.getBlockMetadataFromElement block' ≫= Elements.level
       = Some (Elements.Int 2)
    /\ Elements.childNodes block' = [TextNode "Hello World"]
    /\ Elements.dataBlockId block' = Some "b"
    /\ Elements.textAlign block' = "center".
Proof.
  destruct (block_type_change_keeps_text (fun _ => "1e+21") Elements.h2 (fun _ => true)
              [ {| Elements.tagName := "p"; Elements.className := "block paragraph";
                   Elements.dataBlockId := Some "b"; Elements.dataPageBreak := false;
                   Elements.dataLevel := None; Elements.textAlign := "center";
                   Elements.childNodes :=
                     [TextNode "Hello "; SpanNode [bold] [TextNode "World"]] |} ])
    as (_ & Hsel & _).
  destruct (Hsel 0%nat _ eq_refl (ex_intro _ "b" eq_refl) eq_refl eq_refl)
    as (block' & H0 & H1 & H2 & H3 & _ & H4 & _ & H5 & H6).
  exists block'. split; [exact H0|]. split; [exact H1|]. split; [exact H2|].
  split; [exact H3|]. split; [exact H4|]. split; [exact H5|exact H6].
Defined.

(** ** Taking a format off again *)

Section ToggleOff.

Import Format.

Variable format : FormatType.

Abbreviation spanOf := (fun char : string => SpanNode [format] [TextNode char]).

Lemma walkText_app (l1 l2 : list Node) : walkText (l1 ++ l2) = walkText l1 ++ walkText l2.
Proof. apply flat_map_app. Qed.

Lemma walkText_texts (ts : list string) :
  walkText (map TextNode ts) = map (fun t => (t, [])) ts.
Proof. induction ts as [|t ts IH]; [done|]. cbn. by rewrite <- IH. Qed.

Lemma walkText_spans (cs : list string) :
  walkText (map spanOf cs) = map (fun c => (c, [[format]])) cs.
Proof. induction cs as [|c cs IH]; [done|]. cbn. by rewrite <- IH. Qed.

(** The nodes of a block whose characters [cs] carry the format, between
    the text nodes [bt] and [at']. *)
Lemma walkText_shape (bt cs at' : list string) :
  walkText (map TextNode bt ++ map spanOf cs ++ map TextNode at')
  = map (fun t => (t, [])) bt ++ map (fun c => (c, [[format]])) cs
    ++ map (fun t => (t, [])) at'.
Proof. by rewrite !walkText_app, !walkText_texts, walkText_spans. Qed.

Lemma texts_shape (bt cs at' : list string) :
  map fst (walkText (map TextNode bt ++ map spanOf cs ++ map TextNode at'))
  = bt ++ cs ++ at'.
Proof.
  rewrite walkText_shape, !map_app, !map_map. cbn [fst].
  by rewrite !map_id.
Qed.

Lemma charsBefore_app (l1 l2 : list string) k :
  charsBefore (length l1 + k) (l1 ++ l2)
  = (charsBefore (length l1) l1 + charsBefore k l2)%nat.
Proof.
  induction l1 as [|t l1 IH]; [done|]. cbn [length Nat.add app charsBefore].
  rewrite IH. lia.
Qed.

Lemma charsBefore_single (cs rest : list string) k :
  Forall (fun c => String.length c = 1%nat) cs -> (k <= length cs)%nat ->
  charsBefore k (cs ++ rest) = k.
Proof.
  intros Hcs. revert k. induction Hcs as [|c cs Hc _ IH]; intros k Hk.
  - simpl in Hk. by replace k with 0%nat by lia.
  - destruct k as [|k]; [done|]. cbn [app charsBefore]. rewrite Hc, IH; [done|].
    simpl in Hk. lia.
Qed.

(** The scan for a boundary steps over the text nodes that end in front of
    the index. *)
Lemma findBoundary_skip (l1 l2 : list string) charCount k index :
  (charCount + charsBefore (length l1) l1 < index)%nat ->
  findBoundary charCount k index (l1 ++ l2)
  = findBoundary (charCount + charsBefore (length l1) l1) (k + length l1) index l2.
Proof.
  revert charCount k. induction l1 as [|t l1 IH]; intros charCount k Hlt.
  - cbn. by rewrite !Nat.add_0_r.
  - cbn [app findBoundary length charsBefore] in *.
    replace (index <=? charCount + String.length t)%nat with false
      by (symmetry; apply Nat.leb_gt; lia).
    rewrite IH by lia. f_equal; lia.
Qed.

Lemma findBoundary_chars (cs rest : list string) charCount k i :
  Forall (fun c => String.length c = 1%nat) cs -> (i < length cs)%nat ->
  findBoundary charCount k (charCount + S i) (cs ++ rest) = Some ((k + i)%nat, 1%nat).
Proof.
  intros Hcs. revert charCount k i. induction Hcs as [|c cs Hc _ IH]; intros charCount k i Hi.
  - simpl in Hi. lia.
  - cbn [app findBoundary]. rewrite Hc. destruct i as [|i].
    + replace (charCount + 1 <=? charCount + 1)%nat with true
        by (symmetry; apply Nat.leb_le; lia).
      rewrite Nat.add_0_r. do 2 f_equal. lia.
    + replace (charCount + S (S i) <=? charCount + 1)%nat with false
        by (symmetry; apply Nat.leb_gt; lia).
      replace (charCount + S (S i))%nat with (charCount + 1 + S i)%nat by lia.
      rewrite IH by (simpl in Hi; lia). do 2 f_equal. lia.
Qed.

(** Breaking a selection that consists of single characters changes
    nothing. *)
Lemma breakNodes_spans start stop (cs : list string) (rest : list Node) k :
  Forall (fun c => String.length c = 1%nat) cs ->
  breakNodes start stop (map spanOf cs ++ rest) k
  = (map spanOf cs ++ (breakNodes start stop rest (k + length cs)).1,
     (breakNodes start stop rest (k + length cs)).2).
Proof.
  intros Hcs. revert k. induction Hcs as [|c cs Hc _ IH]; intros k.
  - cbn. rewrite Nat.add_0_r. by destruct (breakNodes start stop rest k).
  - cbn [map app breakNodes breakNode]. unfold breakTextNode. rewrite Hc.
    cbn [Nat.eqb negb]. rewrite !andb_false_r. cbn [app].
    rewrite IH. cbn [length].
    replace (S k + length cs)%nat with (k + S (length cs))%nat by lia.
    by destruct (breakNodes start stop rest (k + S (length cs))).
Qed.

Lemma updateNodes_spans_off a b (cs : list string) (rest : list Node) pos :
  Forall (fun c => String.length c = 1%nat) cs ->
  (a <= pos)%nat -> (pos + length cs <= b)%nat ->
  updateNodes true format a b (map spanOf cs ++ rest) pos
  = map TextNode cs ++ updateNodes true format a b rest (pos + length cs).
Proof.
  intros Hcs. revert pos. induction Hcs as [|c cs Hc _ IH]; intros pos Ha Hb.
  - cbn. by rewrite Nat.add_0_r.
  - cbn [map app updateNodes updateNode length] in *.
    unfold toUpdate. rewrite Hc.
    replace (pos <? b)%nat with true by (symmetry; apply Nat.ltb_lt; lia).
    replace (a <? pos + 1)%nat with true by (symmetry; apply Nat.ltb_lt; lia).
    replace (a <=? pos)%nat with true by (symmetry; apply Nat.leb_le; lia).
    cbn [andb negb Nat.eqb orb app].
    assert (updatedFormats true format [format] = []) as ->.
    { unfold updatedFormats, deleteFormat. rewrite filter_cons.
      case_decide; [done|]. by destruct format. }
    cbn [app]. f_equal. rewrite IH by lia. do 2 f_equal. lia.
Qed.

Lemma updateNodes_text_outside remove a b t (rest : list Node) pos :
  (pos + String.length t <= a \/ b <= pos)%nat ->
  updateNodes remove format a b (TextNode t :: rest) pos
  = TextNode t :: updateNodes remove format a b rest (pos + String.length t).
Proof.
  intros H. cbn [updateNodes updateNode]. unfold toUpdate.
  destruct H as [H|H].
  - replace (a <? pos + String.length t)%nat with false
      by (symmetry; apply Nat.ltb_ge; lia).
    by rewrite andb_false_r.
  - replace (pos <? b)%nat with false by (symmetry; apply Nat.ltb_ge; lia).
    done.
Qed.

Lemma intersecting_before {A} r k (l1 l2 : list A) :
  (k + length l1 <= startContainer r)%nat ->
  intersecting r k (l1 ++ l2) = intersecting r (k + length l1) l2.
Proof.
  revert k. induction l1 as [|x l1 IH]; intros k Hk.
  - cbn. by rewrite Nat.add_0_r.
  - cbn [app intersecting length] in *. unfold intersectsNode at 1.
    replace (startContainer r <=? k)%nat with false by (symmetry; apply Nat.leb_gt; lia).
    cbn [andb]. rewrite IH by lia. f_equal. lia.
Qed.

Lemma intersecting_in {A} r k (l1 l2 : list A) :
  (startContainer r <= k)%nat -> (k + length l1 <= S (endContainer r))%nat ->
  intersecting r k (l1 ++ l2) = l1 ++ intersecting r (k + length l1) l2.
Proof.
  revert k. induction l1 as [|x l1 IH]; intros k Hs He.
  - cbn. by rewrite Nat.add_0_r.
  - cbn [app intersecting length] in *. unfold intersectsNode at 1.
    replace (startContainer r <=? k)%nat with true by (symmetry; apply Nat.leb_le; lia).
    replace (k <=? endContainer r)%nat with true by (symmetry; apply Nat.leb_le; lia).
    cbn [andb]. rewrite IH by lia.
    by replace (S k + length l1)%nat with (k + S (length l1))%nat by lia.
Qed.

Lemma intersecting_after {A} r k (l : list A) :
  (endContainer r < k)%nat -> intersecting r k l = [].
Proof.
  revert k. induction l as [|x l IH]; intros k Hk; [done|].
  cbn [intersecting]. unfold intersectsNode.
  replace (k <=? endContainer r)%nat with false by (symmetry; apply Nat.leb_gt; lia).
  rewrite andb_false_r. apply IH. lia.
Qed.

Lemma spans_formatted (cs : list string) :
  forallb (fun tn : string * list (list FormatType) => isTextNodeFormatted tn.2 format)
    (map (fun c => (c, [[format]])) cs) = true.
Proof.
  induction cs as [|c cs IH]; [done|].
  cbn [map forallb snd isTextNodeFormatted existsb]. unfold includes at 1.
  rewrite bool_decide_eq_true_2 by apply list_elem_of_here. cbn [orb andb]. exact IH.
Qed.

(** The format of the spans is active for a selection of the characters
    that carry it. *)
Lemma active_on_spans (bt cs at' : list string) :
  cs <> [] ->
  includes format
    (getActiveFormats (mkRange (length bt) 0 (length bt + length cs - 1) 1)
       (map TextNode bt ++ map spanOf cs ++ map TextNode at')) = true.
Proof.
  intros Hcs. unfold includes. apply bool_decide_eq_true_2.
  unfold getActiveFormats. cbn [startContainer endContainer].
  rewrite walkText_shape.
  destruct cs as [|c cs]; [done|]. cbn [length map].
  destruct (length bt =? length bt + S (length cs) - 1)%nat eqn:E.
  - rewrite lookup_app_r by (rewrite length_map; lia).
    rewrite length_map, Nat.sub_diag. cbn [app lookup list_lookup].
    apply list_elem_of_filter. split; [apply list_elem_of_here|]. by destruct format; set_solver.
  - apply Nat.eqb_neq in E.
    set (r := mkRange (length bt) 0 (length bt + S (length cs) - 1) 1).
    assert (intersecting r 0
              (map (fun t => (t, [])) bt
               ++ ((c, [[format]]) :: map (fun c0 => (c0, [[format]])) cs)
               ++ map (fun t => (t, [])) at')
            = (c, [[format]]) :: map (fun c0 : string => (c0, [[format]])) cs) as ->.
    { rewrite intersecting_before by (rewrite length_map; simpl; lia).
      rewrite intersecting_in by (cbn [length]; rewrite !length_map; simpl; lia).
      rewrite intersecting_after by (cbn [length]; rewrite !length_map; simpl; lia).
      by rewrite app_nil_r. }
    apply list_elem_of_filter. split; [|by destruct format; set_solver].
    apply (spans_formatted (c :: cs)).
Qed.

Lemma breakNodes_texts_after start c o (ts : list string) k :
  (c < k)%nat ->
  breakNodes start (Some (c, o)) (map TextNode ts) k = (map TextNode ts, (k + length ts)%nat).
Proof.
  revert k. induction ts as [|t ts IH]; intros k Hk.
  - cbn. by rewrite Nat.add_0_r.
  - cbn [map breakNodes breakNode]. unfold breakTextNode.
    replace (k <=? c)%nat with false by (symmetry; apply Nat.leb_gt; lia).
    rewrite andb_false_r. cbn [andb app]. rewrite IH by lia.
    cbn [length]. f_equal. lia.
Qed.

Lemma updateNodes_texts_after remove a b (ts : list string) pos :
  (b <= pos)%nat ->
  updateNodes remove format a b (map TextNode ts) pos = map TextNode ts.
Proof.
  revert pos. induction ts as [|t ts IH]; intros pos Hpos; [done|].
  cbn [map]. rewrite updateNodes_text_outside by (right; lia).
  by rewrite IH by lia.
Qed.

(** Taking the format off the characters that carry it leaves every one
    of them in a text node of its own. *)
Lemma toggle_off_shape (bt cs at' : list string) :
  Forall (fun c => String.length c = 1%nat) cs -> cs <> [] ->
  (bt = [] \/ exists t, bt = [t]) ->
  applyFormat format (mkRange (length bt) 0 (length bt + length cs - 1) 1)
    (map TextNode bt ++ map spanOf cs ++ map TextNode at')
  = map TextNode bt ++ map TextNode cs ++ map TextNode at'.
Proof.
  intros Hsingle Hcs Hbt.
  assert (0 < length cs)%nat as Hn by (destruct cs; [done|simpl; lia]).
  unfold applyFormat, collapsed. cbn [startContainer endContainer startOffset endOffset].
  cbn [Nat.eqb]. rewrite andb_false_r.
  rewrite active_on_spans by done.
  unfold charIndex. rewrite texts_shape.
  set (A := charsBefore (length bt) bt).
  assert (charsBefore (length bt) (bt ++ cs ++ at') = A) as HA.
  { rewrite <- (Nat.add_0_r (length bt)) at 1. rewrite charsBefore_app.
    fold A. destruct (cs ++ at'); simpl; lia. }
  assert (charsBefore (length bt + length cs - 1) (bt ++ cs ++ at')
          = (A + (length cs - 1))%nat) as HB.
  { replace (length bt + length cs - 1)%nat with (length bt + (length cs - 1))%nat by lia.
    rewrite charsBefore_app. fold A. rewrite charsBefore_single by (done || lia). done. }
  rewrite HA, HB. rewrite Nat.add_0_r.
  replace (A + (length cs - 1) + 1)%nat with (A + length cs)%nat by lia.
  assert (findBoundary 0 0 (A + length cs) (bt ++ cs ++ at')
          = Some ((length bt + (length cs - 1))%nat, 1%nat)) as Hstop.
  { rewrite findBoundary_skip by (fold A; lia). fold A. cbn [Nat.add].
    replace (A + length cs)%nat with (A + S (length cs - 1))%nat by lia.
    rewrite findBoundary_chars by (done || lia). done. }
  rewrite Hstop.
  unfold breakSelectionIntoCharacterNodes.
  destruct Hbt as [->|[t ->]].
  - cbn [map app length Nat.add] in *. unfold A in *. cbn [charsBefore length] in *.
    rewrite breakNodes_spans by done. cbn [fst].
    rewrite breakNodes_texts_after by lia. cbn [fst].
    rewrite updateNodes_spans_off by (done || lia).
    by rewrite updateNodes_texts_after by lia.
  - cbn [map app length Nat.add] in *. unfold A in *. cbn [charsBefore length] in *.
    rewrite Nat.add_0_r in *.
    cbn [findBoundary]. rewrite Nat.leb_refl. cbn [Nat.add Nat.sub].
    rewrite Nat.sub_0_r, Nat.min_id, Nat.max_0_l.
    cbn [breakNodes breakNode]. unfold breakTextNode at 1.
    rewrite Nat.eqb_refl, Nat.ltb_irrefl.
    replace (S (length cs - 1) =? 0)%nat with false by done.
    rewrite andb_false_r. cbn [andb app].
    rewrite (breakNodes_spans _ _ _ _ _ Hsingle).
    rewrite breakNodes_texts_after by lia. cbn [fst].
    rewrite updateNodes_text_outside by (left; lia). f_equal.
    rewrite updateNodes_spans_off by (done || lia).
    by rewrite updateNodes_texts_after by lia.
Qed.

End ToggleOff.

Section Serialized.

Import Format.

Lemma extract_app (l1 l2 : list Node) :
  extractFormattedContent (l1 ++ l2)
  = String.app (extractFormattedContent l1) (extractFormattedContent l2).
Proof.
  unfold extractFormattedContent. induction l1 as [|n l1 IH]; [done|].
  cbn [app foldr]. by rewrite IH, string_app_assoc.
Qed.

Lemma escapeText_app (s t : string) :
  escapeText (String.app s t) = String.app (escapeText s) (escapeText t).
Proof.
  induction s as [|c s IH]; [done|].
  change (String.app (String c s) t) with (String c (String.app s t)).
  cbn [escapeText]. by rewrite IH, string_app_assoc.
Qed.

Lemma extract_optText s : extractFormattedContent (optText s) = escapeText s.
Proof.
  unfold optText. destruct s as [|c s]; [done|].
  unfold extractFormattedContent. cbn [Nat.eqb String.length foldr serializeNode].
  apply string_app_nil_r.
Qed.

Lemma extract_chars s : extractFormattedContent (map TextNode (chars s)) = escapeText s.
Proof.
  induction s as [|c s IH]; [done|].
  unfold extractFormattedContent in *. cbn [chars map foldr serializeNode]. rewrite IH.
  cbn [escapeText]. by rewrite string_app_nil_r.
Qed.

Lemma chars_single_each s : Forall (fun c => String.length c = 1%nat) (chars s).
Proof. induction s as [|c s IH]; [constructor|]. by constructor. Qed.

Lemma optText_as_texts s :
  optText s = map TextNode (if (String.length s =? 0)%nat then [] else [s]).
Proof. unfold optText. by destruct (String.length s =? 0)%nat. Qed.

End Serialized.

(** X30: taking a format off again gives the text back.  The characters
    [a] to [b] of a plain text node are formatted, and then, selected from
    the first of their text nodes to the last one, formatted once more:
    that removes the format.  Every character is left in a text node of its
    own, with no span, and the serialized content and the text of the block
    are the ones of the text node the block started with. *)
Theorem plain_text_toggle_restores_content format a b s :
  (a < b)%nat -> (b <= String.length s)%nat ->
  let once := Format.applyFormat format (Format.mkRange 0 a 0 b) [TextNode s] in
  let first := length (optText (String.substring 0 a s)) in
  let twice :=
    Format.applyFormat format
      (Format.mkRange first 0 (first + (b - a) - 1) 1) once in
  twice = optText (String.substring 0 a s)
          ++ map TextNode (Format.chars (String.substring a (b - a) s))
          ++ optText (String.substring b (String.length s - b) s)
  /\ Format.extractFormattedContent twice = Format.extractFormattedContent [TextNode s]
  /\ Format.textContent twice = s.
Proof.
  intros Hab Hb once first twice.
  set (before := String.substring 0 a s) in *.
  set (selected := String.substring a (b - a) s) in *.
  set (after := String.substring b (String.length s - b) s) in *.
  assert (twice = optText before ++ map TextNode (Format.chars selected) ++ optText after)
    as Htwice.
  { unfold twice, once, first. rewrite applyFormat_plain_text_shape by done.
    fold before selected after. rewrite !optText_as_texts, length_map.
    assert (length (Format.chars selected) = (b - a)%nat) as Hlen.
    { unfold selected. by rewrite length_chars, length_substring by lia. }
    rewrite <- Hlen. apply toggle_off_shape.
    - apply chars_single_each.
    - intros Hnil. rewrite Hnil in Hlen. simpl in Hlen. lia.
    - destruct (String.length before =? 0)%nat; eauto. }
  split; [exact Htwice|]. rewrite Htwice.
  assert (String.app before (String.app selected after) = s) as Hs.
  { unfold before, selected, after. apply substring_three. lia. }
  split.
  - rewrite !extract_app, !extract_optText, extract_chars.
    rewrite <- !escapeText_app, Hs.
    unfold Format.extractFormattedContent. cbn [foldr Format.serializeNode].
    by rewrite string_app_nil_r.
  - rewrite !textContent_app, !optText_text.
    rewrite (chars_text TextNode) by apply textContent_text. exact Hs.
Qed.

Lemma plain_text_toggle_restores_content_witness :
  Format.applyFormat bold (Format.mkRange 1 0 3 1)
    (Format.applyFormat bold (Format.mkRange 0 2 0 5) [TextNode "abcdefg"])
  = [TextNode "ab"; TextNode "c"; TextNode "d"; TextNode "e"; TextNode "fg"].
Proof.
  pose proof (plain_text_toggle_restores_content bold 2 5 "abcdefg"
                ltac:(lia) ltac:(simpl; lia)) as [H _].
  exact H.
Defined.
